(** * windreport: the storm-event retrieval and matching pipeline

    A shallow embedding of the request handler of the wind report server
    ([GET /api/windstorms]) and of the functions it calls, followed by the
    properties of the pipeline.

    Conventions of the embedding.
    - A JavaScript string is a [string] whose characters are UTF-16 code
      units below 256; the built-in string methods are given on that range.
    - A JavaScript Number is an IEEE 754 binary64 value ([spec_float] at
      precision 53); a Number that the code knows to be integral (a year,
      a rounded wind speed, a time value) is kept as its integer value in [Z].
    - [null] and [undefined] are [None].
    - [Math.sin], [Math.cos] and [Math.atan2] are implementation-approximated
      in ECMAScript: the code that calls them takes them from a [MathLib]. *)

From Stdlib Require Import ZArith Lia Bool List Ascii String SpecFloat.
From Stdlib Require Import DecimalString DecimalZ DecimalPos Sorting.Sorted.
From stdpp Require Import base decidable option list sets gmap strings sorting.

Local Open Scope Z_scope.

(* ===================================================================== *)
(** * Built-in string methods *)
(* ===================================================================== *)

Module JsString.

Definition code (c : ascii) : Z := Z.of_N (N_of_ascii c).
Definition fromCharCode (z : Z) : ascii := ascii_of_N (Z.to_N z).

(** WhiteSpace and LineTerminator code units below 256: TAB, LF, VT, FF,
    CR, SP and NBSP.  This is the class [\s] and what [trim] removes. *)
Definition is_space (c : ascii) : bool :=
  let n := code c in
  ((9 <=? n) && (n <=? 13)) || (n =? 32) || (n =? 160).

Definition is_digit (c : ascii) : bool :=
  let n := code c in (48 <=? n) && (n <=? 57).

Definition is_upper_az (c : ascii) : bool :=
  let n := code c in (65 <=? n) && (n <=? 90).

Definition is_lower_az (c : ascii) : bool :=
  let n := code c in (97 <=? n) && (n <=? 122).

Definition digit_value (c : ascii) : Z := code c - 48.

(** [String.prototype.toLowerCase] on one code unit: A-Z, and the Latin-1
    capitals U+00C0..U+00DE except the multiplication sign U+00D7. *)
Definition lower_char (c : ascii) : ascii :=
  let n := code c in
  if is_upper_az c then fromCharCode (n + 32)
  else if (192 <=? n) && (n <=? 222) && negb (n =? 215) then fromCharCode (n + 32)
  else c.

Fixpoint toLowerCase (s : string) : string :=
  match s with
  | EmptyString => EmptyString
  | String c s' => String (lower_char c) (toLowerCase s')
  end.

(** [String.prototype.toUpperCase], used by the code on strings of the
    letters a-z and A-Z only (a month abbreviation, a magnitude flag);
    on the other code units below 256: U+00B5 and U+00FF have capitals
    above 255 and U+00DF becomes "SS", they are left as they are here. *)
Definition upper_char (c : ascii) : ascii :=
  let n := code c in
  if is_lower_az c then fromCharCode (n - 32)
  else if (224 <=? n) && (n <=? 254) && negb (n =? 247) then fromCharCode (n - 32)
  else c.

Fixpoint toUpperCase (s : string) : string :=
  match s with
  | EmptyString => EmptyString
  | String c s' => String (upper_char c) (toUpperCase s')
  end.

Fixpoint trimStart (s : string) : string :=
  match s with
  | String c s' => if is_space c then trimStart s' else s
  | EmptyString => EmptyString
  end.

Fixpoint all_space (s : string) : bool :=
  match s with
  | EmptyString => true
  | String c s' => is_space c && all_space s'
  end.

Fixpoint trimEnd (s : string) : string :=
  match s with
  | EmptyString => EmptyString
  | String c s' => if all_space s then EmptyString else String c (trimEnd s')
  end.

Definition trim (s : string) : string := trimEnd (trimStart s).

(** [hay.includes(needle)]: [needle] occurs in [hay] as a substring. *)
Fixpoint includes (hay needle : string) : bool :=
  String.prefix needle hay ||
  match hay with
  | EmptyString => false
  | String _ hay' => includes hay' needle
  end.

(** [s.split(" ")[0]]: the part of [s] before its first space (all of [s]
    when it has none; [""] for the empty string). *)
Fixpoint split_space_first (s : string) : string :=
  match s with
  | EmptyString => EmptyString
  | String c s' => if Ascii.eqb c " " then EmptyString
                   else String c (split_space_first s')
  end.

Fixpoint repeat_char (c : ascii) (n : nat) : string :=
  match n with
  | O => EmptyString
  | S n' => String c (repeat_char c n')
  end.

(** [s.padStart(n, "0")]. *)
Definition padStart0 (n : nat) (s : string) : string :=
  repeat_char "0" (n - String.length s) +:+ s.

(** The decimal numeral of an integer: what [String(x)] and a template
    literal give for an integral Number of magnitude below 10^21. *)
Definition decimal (z : Z) : string := NilZero.string_of_int (Z.to_int z).

(** The value of a string of decimal digits ([Number(s)] on such a string). *)
Fixpoint digits_value_acc (acc : Z) (s : string) : Z :=
  match s with
  | EmptyString => acc
  | String c s' => digits_value_acc (10 * acc + digit_value c) s'
  end.
Definition digits_value (s : string) : Z := digits_value_acc 0 s.

(** The longest prefix of [s] made of characters in [p], at most [max]
    long, and the rest of [s]. *)
Fixpoint span_upto (p : ascii -> bool) (max : nat) (s : string) : string * string :=
  match max, s with
  | S max', String c s' =>
      if p c then let '(a, b) := span_upto p max' s' in (String c a, b)
      else (EmptyString, s)
  | _, _ => (EmptyString, s)
  end.

Fixpoint forall_chars (p : ascii -> bool) (s : string) : bool :=
  match s with
  | EmptyString => true
  | String c s' => p c && forall_chars p s'
  end.

(** [s] without its prefix [p], when it starts with [p]. *)
Fixpoint strip_prefix (p s : string) : option string :=
  match p, s with
  | EmptyString, _ => Some s
  | String a p', String b s' => if Ascii.eqb a b then strip_prefix p' s' else None
  | String _ _, EmptyString => None
  end.

End JsString.

(* ===================================================================== *)
(** * Numbers: IEEE 754 binary64 *)
(* ===================================================================== *)

Module JsNumber.

Definition prec : Z := 53.
Definition emax : Z := 1024.

Definition number : Type := spec_float.

Definition NaN : number := S754_nan.
Definition Infinity : number := S754_infinity false.
Definition pos_zero : number := S754_zero false.

Definition mul : number -> number -> number := SFmul prec emax.
Definition add : number -> number -> number := SFadd prec emax.
Definition sub : number -> number -> number := SFsub prec emax.
Definition div : number -> number -> number := SFdiv prec emax.
Definition sqrt : number -> number := SFsqrt prec emax.

(** [x < y], [x <= y], [x > y]: false as soon as one side is NaN. *)
Definition ltb (x y : number) : bool := SFltb x y.
Definition leb (x y : number) : bool := SFleb x y.
Definition gtb (x y : number) : bool := SFltb y x.

Definition isFinite (x : number) : bool :=
  match x with
  | S754_zero _ | S754_finite _ _ _ => true
  | S754_infinity _ | S754_nan => false
  end.

(** ToBoolean on a Number: false for +0, -0 and NaN. *)
Definition truthy (x : number) : bool :=
  match x with
  | S754_zero _ | S754_nan => false
  | S754_infinity _ | S754_finite _ _ _ => true
  end.

(** The Number nearest to the integer [n] (ties to even). *)
Definition of_Z (n : Z) : number := binary_normalize prec emax n 0 false.

(** The Number nearest to [(-1)^neg * digits * 10^exp10] (ties to even):
    the value of a decimal literal of the source and of a decimal numeral
    read by [parseFloat]. *)
Definition of_decimal (neg : bool) (digits : Z) (exp10 : Z) : number :=
  match digits with
  | Zpos d =>
      if 0 <=? exp10
      then binary_normalize prec emax (cond_Zopp neg (Zpos d * 10 ^ exp10)) 0 neg
      else SFdiv prec emax (S754_finite neg d 0)
                           (S754_finite false (Z.to_pos (10 ^ (- exp10))) 0)
  | _ => S754_zero neg
  end.

(** The integer [floor (v)] and the integer nearest to [v] with ties
    towards +infinity, for [v = (-1)^s * m * 2^e]. *)
Definition floor_finite (s : bool) (m : positive) (e : Z) : Z :=
  if 0 <=? e then cond_Zopp s (Zpos m * 2 ^ e)
  else cond_Zopp s (Zpos m) / 2 ^ (- e).

Definition round_half_up_finite (s : bool) (m : positive) (e : Z) : Z :=
  if 0 <=? e then cond_Zopp s (Zpos m * 2 ^ e)
  else (2 * cond_Zopp s (Zpos m) + 2 ^ (- e)) / 2 ^ (1 - e).

(** [Math.round]: NaN, the infinities, the zeros and the integral Numbers
    are returned as they are; a value in (0, 0.5) gives +0 and one in
    [-0.5, 0) gives -0; the others go to the nearest integer, ties
    towards +infinity. *)
Definition Math_round (x : number) : number :=
  match x with
  | S754_finite s m e =>
      if 0 <=? e then x
      else match round_half_up_finite s m e with
           | Z0 => S754_zero s
           | n => of_Z n
           end
  | _ => x
  end.

(** [Math.max(0, x)]: NaN if [x] is NaN, and +0 is larger than -0. *)
Definition Math_max0 (x : number) : number :=
  match x with
  | S754_nan => S754_nan
  | S754_zero _ => S754_zero false
  | S754_infinity true | S754_finite true _ _ => S754_zero false
  | _ => x
  end.

(** The integer value of an integral Number (the integer part, for the
    others; 0 for NaN and the infinities). *)
Definition integral_value (x : number) : Z :=
  match x with
  | S754_finite s m e =>
      if 0 <=? e then cond_Zopp s (Zpos m * 2 ^ e)
      else cond_Zopp s (Zpos m / 2 ^ (- e))
  | _ => 0
  end.

(** ** parseFloat *)

(** DecimalDigits: reads digits, returning their value appended to [acc],
    how many were read, and the rest. *)
Fixpoint read_digits (acc : Z) (count : Z) (s : string) : Z * Z * string :=
  match s with
  | String c s' =>
      if JsString.is_digit c
      then read_digits (10 * acc + JsString.digit_value c) (count + 1) s'
      else (acc, count, s)
  | EmptyString => (acc, count, s)
  end.

(** ExponentPart: [e] or [E], an optional sign, and at least one digit;
    0 when [s] does not start with one. *)
Definition read_exponent (s : string) : Z :=
  match s with
  | String c s1 =>
      if Ascii.eqb c "e" || Ascii.eqb c "E" then
        let '(neg, s2) :=
          match s1 with
          | String "-" s2 => (true, s2)
          | String "+" s2 => (false, s2)
          | _ => (false, s1)
          end in
        let '(v, n, _) := read_digits 0 0 s2 in
        if 0 <? n then cond_Zopp neg v else 0
      else 0
  | EmptyString => 0
  end.

(** StrUnsignedDecimalLiteral, longest prefix. *)
Definition read_unsigned (neg : bool) (s : string) : number :=
  match JsString.strip_prefix "Infinity" s with
  | Some _ => S754_infinity neg
  | None =>
      let '(ip, ni, s1) := read_digits 0 0 s in
      let '(m, nf, s2) :=
        match s1 with
        | String "." s1' => read_digits ip 0 s1'
        | _ => (ip, 0, s1)
        end in
      if (ni =? 0) && (nf =? 0) then NaN
      else of_decimal neg m (read_exponent s2 - nf)
  end.

(** [parseFloat(s)]: leading white space is skipped, then the longest
    prefix that is a decimal literal is converted; NaN if there is none. *)
Definition parseFloat (s : string) : number :=
  match JsString.trimStart s with
  | String "-" s' => read_unsigned true s'
  | String "+" s' => read_unsigned false s'
  | s' => read_unsigned false s'
  end.

(** [parseFloat] of a field of a record: [undefined] gives NaN, as the
    string "undefined" does. *)
Definition parseFloat_field (v : option string) : number :=
  match v with
  | Some s => parseFloat s
  | None => NaN
  end.

End JsNumber.

(* ===================================================================== *)
(** * Dates: time values *)
(* ===================================================================== *)

(** A [Date] is its time value, the milliseconds since the epoch.  Every
    [Date] of the pipeline is built by [Date.UTC] from a year of at most
    four digits and a month and a day of at most two, or read from the
    clock, so that it is never the invalid date. *)
Module JsDate.

Definition Date : Type := Z.

Definition msPerDay : Z := 86400000.

Definition Day (t : Z) : Z := t / msPerDay.
Definition TimeWithinDay (t : Z) : Z := t mod msPerDay.

Definition DayFromYear (y : Z) : Z :=
  365 * (y - 1970) + (y - 1969) / 4 - (y - 1901) / 100 + (y - 1601) / 400.

Definition DaysInYear (y : Z) : Z :=
  if (y mod 4 =? 0) && (negb (y mod 100 =? 0) || (y mod 400 =? 0))
  then 366 else 365.

(** The year [y] with [DayFromYear y <= d < DayFromYear (y + 1)]. *)
Definition YearFromDay (d : Z) : Z :=
  let y := 1970 + (400 * d) / 146097 in
  if DayFromYear (y + 1) <=? d then y + 1
  else if d <? DayFromYear y then y - 1
  else y.

Definition YearFromTime (t : Z) : Z := YearFromDay (Day t).

Definition leap_day (y : Z) : Z := if DaysInYear y =? 366 then 1 else 0.

Definition DayWithinYear (t : Z) : Z := Day t - DayFromYear (YearFromTime t).

(** The day of the year on which month [mn] (0 to 11) starts. *)
Definition month_start (mn : Z) (leap : Z) : Z :=
  match mn with
  | 0 => 0
  | 1 => 31
  | 2 => 59 + leap
  | 3 => 90 + leap
  | 4 => 120 + leap
  | 5 => 151 + leap
  | 6 => 181 + leap
  | 7 => 212 + leap
  | 8 => 243 + leap
  | 9 => 273 + leap
  | 10 => 304 + leap
  | _ => 334 + leap
  end.

Definition MonthFromTime (t : Z) : Z :=
  let d := DayWithinYear t in
  let leap := leap_day (YearFromTime t) in
  if d <? 31 then 0
  else if d <? 59 + leap then 1
  else if d <? 90 + leap then 2
  else if d <? 120 + leap then 3
  else if d <? 151 + leap then 4
  else if d <? 181 + leap then 5
  else if d <? 212 + leap then 6
  else if d <? 243 + leap then 7
  else if d <? 273 + leap then 8
  else if d <? 304 + leap then 9
  else if d <? 334 + leap then 10
  else 11.

Definition DateFromTime (t : Z) : Z :=
  DayWithinYear t
  - month_start (MonthFromTime t) (leap_day (YearFromTime t)) + 1.

(** MakeDay: months outside 0..11 carry into the year, days outside the
    month carry into the following or preceding months. *)
Definition MakeDay (year month date : Z) : Z :=
  let ym := year + month / 12 in
  let mn := month mod 12 in
  DayFromYear ym + month_start mn (leap_day ym) + date - 1.

Definition MakeDate (day time : Z) : Z := day * msPerDay + time.

(** [Date.UTC(year, month, date)]: a year from 0 to 99 stands for
    1900 + year. *)
Definition Date_UTC (year month date : Z) : Date :=
  let yr := if (0 <=? year) && (year <=? 99) then 1900 + year else year in
  MakeDate (MakeDay yr month date) 0.

Definition getTime (d : Date) : Z := d.
Definition getUTCFullYear (d : Date) : Z := YearFromTime d.
Definition getUTCMonth (d : Date) : Z := MonthFromTime d.
Definition getUTCDate (d : Date) : Z := DateFromTime d.

(** Local time: [LocalTZA t isUTC] is the offset of the local time zone
    at [t], taken from the environment. *)
Definition getFullYear (LocalTZA : Z -> bool -> Z) (d : Date) : Z :=
  YearFromTime (d + LocalTZA d true).

(** [d.setFullYear(y)]: the same local month, day and time of day in the
    local year [y]. *)
Definition setFullYear (LocalTZA : Z -> bool -> Z) (d : Date) (y : Z) : Date :=
  let t := d + LocalTZA d true in
  let u := MakeDate (MakeDay y (MonthFromTime t) (DateFromTime t))
                    (TimeWithinDay t) in
  u - LocalTZA u false.

End JsDate.

Import JsNumber JsDate.

(* ===================================================================== *)
(** * The data of the pipeline *)
(* ===================================================================== *)

(** The implementation-approximated functions of [Math]. *)
Record MathLib := {
  Math_sin : number -> number;
  Math_cos : number -> number;
  Math_atan2 : number -> number -> number
}.

(** One row of a dataset file, as [csv-parse] gives it with
    [columns: true]: the values by column name. *)
Abbreviation RawEventRecord := (gmap string string).

(** The result of the geocoder. *)
Module Geo.
Record GeoTarget := {
  displayName : string;
  lat : number;
  lon : number;
  county : option string;
  state : option string
}.
End Geo.
Abbreviation GeoTarget := Geo.GeoTarget.

(** An event pushed by [getWindEventsForYear].  [windSpeedMph] is the
    integer value of [Math.round(magnitude)], and [distanceMiles] stays
    [None] (the property is not set) until the radius step sets it. *)
Record StormEvent := {
  date : Date;
  windSpeedMph : Z;
  eventType : string;
  lat : option number;
  lon : option number;
  distanceMiles : option number
}.

(** One element of [results] in the response. *)
Module Result.
Record t := {
  date : string;
  windSpeedMph : Z;
  eventType : string;
  distanceMiles : option number
}.
End Result.

Definition WIND_EVENT_TYPES : gset string :=
  list_to_set [
    "High Wind";
    "Thunderstorm Wind";
    "Marine Thunderstorm Wind";
    "Marine High Wind";
    "Strong Wind";
    "Tropical Storm";
    "Hurricane";
    "Hurricane (Typhoon)"
  ].

Definition DIRECTORY_CACHE_TTL : Z := 3600000.

(** ToBoolean on a string, and on a value that may be [null] or
    [undefined]. *)
Definition nonempty (s : string) : bool :=
  match s with EmptyString => false | String _ _ => true end.

Definition truthy_string (v : option string) : bool :=
  match v with Some s => nonempty s | None => false end.

(** [a || b] on such values. *)
Definition or_else (a b : option string) : option string :=
  if truthy_string a then a else b.

(** [(v || "")]. *)
Definition or_empty (v : option string) : string :=
  match v with Some s => s | None => EmptyString end.

(* ===================================================================== *)
(** * The regular expressions of the source *)
(* ===================================================================== *)

Module Regex.
Import JsString.

(** [\d{min,max}] at the start of [s], greedy: the digits and the rest. *)
Definition digits_between (min max : nat) (s : string) : option (string * string) :=
  let '(ds, rest) := span_upto is_digit max s in
  if (min <=? String.length ds)%nat then Some (ds, rest) else None.

(** [[A-Z]{3}] with the flag [i]. *)
Definition is_letter (c : ascii) : bool := is_upper_az c || is_lower_az c.

Definition letters3 (s : string) : option (string * string) :=
  match s with
  | String a (String b (String c rest)) =>
      if is_letter a && is_letter b && is_letter c
      then Some (String a (String b (String c EmptyString)), rest)
      else None
  | _ => None
  end.

(** [/^(\d{1,2})\/(\d{1,2})\/(\d{4})/]: the three groups. *)
Definition slashMatch (s : string) : option (string * string * string) :=
  '(g1, s1) ← digits_between 1 2 s;
  s2 ← strip_prefix "/" s1;
  '(g2, s3) ← digits_between 1 2 s2;
  s4 ← strip_prefix "/" s3;
  '(g3, _) ← digits_between 4 4 s4;
  Some (g1, g2, g3).

(** [/^(\d{1,2})-([A-Z]{3})-(\d{2,4})/i]: the three groups. *)
Definition dashMatch (s : string) : option (string * string * string) :=
  '(g1, s1) ← digits_between 1 2 s;
  s2 ← strip_prefix "-" s1;
  '(g2, s3) ← letters3 s2;
  s4 ← strip_prefix "-" s3;
  '(g3, _) ← digits_between 2 4 s4;
  Some (g1, g2, g3).

(** [/StormEvents_details-ftp_v1\.0_d(\d{4})_c(\d{8})\.csv\.gz/] at the
    start of [s]: the matched text and the two groups. *)
Definition storm_prefix : string := "StormEvents_details-ftp_v1.0_d".
Definition storm_suffix : string := ".csv.gz".

Definition storm_filename (year created : string) : string :=
  storm_prefix +:+ year +:+ "_c" +:+ created +:+ storm_suffix.

Definition stormMatch (s : string) : option (string * string * string) :=
  s1 ← strip_prefix storm_prefix s;
  '(g1, s2) ← digits_between 4 4 s1;
  s3 ← strip_prefix "_c" s2;
  '(g2, s4) ← digits_between 8 8 s3;
  _ ← strip_prefix storm_suffix s4;
  Some (storm_filename g1 g2, g1, g2).

(** The loop [while ((match = regex.exec(html)) !== null)] with the flag
    [g]: the matches from left to right, each search starting where the
    previous match ended.  [skip] characters of [s] belong to the
    previous match. *)
Fixpoint stormMatches_from (skip : nat) (s : string)
    : list (string * string * string) :=
  match skip with
  | S skip' =>
      match s with
      | String _ s' => stormMatches_from skip' s'
      | EmptyString => []
      end
  | O =>
      match stormMatch s with
      | Some (match0, g1, g2) =>
          (match0, g1, g2) ::
          match s with
          | String _ s' =>
              stormMatches_from (String.length match0 - 1)%nat s'
          | EmptyString => []
          end
      | None =>
          match s with
          | String _ s' => stormMatches_from O s'
          | EmptyString => []
          end
      end
  end.

Definition stormMatches : string -> list (string * string * string) :=
  stormMatches_from O.

(** [/\s+county$/] with the flag [i], tried at the start of [s]: a run
    of white space, "county", and the end of the string. *)
Fixpoint eq_ignore_case (a b : string) : bool :=
  match a, b with
  | EmptyString, EmptyString => true
  | String x a', String y b' =>
      Ascii.eqb (upper_char x) (upper_char y) && eq_ignore_case a' b'
  | _, _ => false
  end.

Definition county_suffix_at (s : string) : bool :=
  match s with
  | String c s' =>
      is_space c && eq_ignore_case (trimStart s') "county"
  | EmptyString => false
  end.

(** [s.replace(/\s+county$/i, "")]: the leftmost match is removed. *)
Fixpoint remove_county_suffix (s : string) : string :=
  match s with
  | EmptyString => EmptyString
  | String c s' =>
      if county_suffix_at s then EmptyString
      else String c (remove_county_suffix s')
  end.

(** [s.replace(/[^a-z0-9\s]/g, " ")]. *)
Fixpoint blank_other_chars (s : string) : string :=
  match s with
  | EmptyString => EmptyString
  | String c s' =>
      String (if is_lower_az c || is_digit c || is_space c then c else " "%char)
             (blank_other_chars s')
  end.

(** [s.replace(/\s+/g, " ")]: every run of white space becomes one
    space.  [in_run] tells that the previous character was white space. *)
Fixpoint collapse_spaces_from (in_run : bool) (s : string) : string :=
  match s with
  | EmptyString => EmptyString
  | String c s' =>
      if is_space c
      then if in_run then collapse_spaces_from true s'
           else String " " (collapse_spaces_from true s')
      else String c (collapse_spaces_from false s')
  end.

Definition collapse_spaces : string -> string := collapse_spaces_from false.

End Regex.

(* ===================================================================== *)
(** * The pure functions of the source *)
(* ===================================================================== *)

Definition months : gmap string Z :=
  list_to_map [
    ("JAN", 0); ("FEB", 1); ("MAR", 2); ("APR", 3); ("MAY", 4); ("JUN", 5);
    ("JUL", 6); ("AUG", 7); ("SEP", 8); ("OCT", 9); ("NOV", 10); ("DEC", 11)
  ].

(** [parseNoaaDate(value)]: "MM/DD/YYYY ..." first, then "DD-MON-YY ...". *)
Definition parseNoaaDate (value : option string) : option Date :=
  if negb (truthy_string value) then None
  else
    let str := JsString.trim (or_empty value) in
    match Regex.slashMatch str with
    | Some (month, day, year) =>
        Some (Date_UTC (JsString.digits_value year)
                       (JsString.digits_value month - 1)
                       (JsString.digits_value day))
    | None =>
        match Regex.dashMatch str with
        | Some (day, monthStr, yearStr) =>
            let month := months !! JsString.toUpperCase monthStr in
            let year := JsString.digits_value yearStr in
            let year := if year <? 100 then year + 2000 else year in
            match month with
            | Some month => Some (Date_UTC year month (JsString.digits_value day))
            | None => None
            end
        | None => None
        end
    end.

Definition formatDate (date : Date) : string :=
  let month := JsString.padStart0 2 (JsString.decimal (getUTCMonth date + 1)) in
  let day := JsString.padStart0 2 (JsString.decimal (getUTCDate date)) in
  let year := JsString.decimal (getUTCFullYear date) in
  month +:+ "/" +:+ day +:+ "/" +:+ year.

Definition normalizeName (value : option string) : string :=
  if negb (truthy_string value) then EmptyString
  else
    JsString.trim
      (Regex.collapse_spaces
         (Regex.blank_other_chars
            (Regex.remove_county_suffix
               (JsString.toLowerCase (or_empty value))))).

(** [Math.PI], and the literals of the source. *)
Definition Math_PI : number := of_decimal false 3141592653589793 (-15).
Definition knots_to_mph : number := of_decimal false 115078 (-5).
Definition earth_radius_miles : number := of_decimal false 39588 (-1).

Definition toRad (deg : number) : number :=
  mul deg (div Math_PI (of_Z 180)).

Definition haversineDistance (M : MathLib) (lat1 lon1 lat2 lon2 : number) : number :=
  let R := earth_radius_miles in
  let dLat := toRad (sub lat2 lat1) in
  let dLon := toRad (sub lon2 lon1) in
  let a :=
    add (mul (Math_sin M (div dLat (of_Z 2))) (Math_sin M (div dLat (of_Z 2))))
        (mul (mul (mul (Math_cos M (toRad lat1)) (Math_cos M (toRad lat2)))
                  (Math_sin M (div dLon (of_Z 2))))
             (Math_sin M (div dLon (of_Z 2)))) in
  let c := mul (of_Z 2) (Math_atan2 M (sqrt a) (sqrt (sub (of_Z 1) a))) in
  mul R c.

(** The test [countyMatches] of [getWindEventsForYear], on the two
    normalized names. *)
Definition countyMatches (recordCounty normalizedTargetCounty : string) : bool :=
  String.eqb recordCounty normalizedTargetCounty
  || JsString.includes recordCounty normalizedTargetCounty
  || JsString.includes normalizedTargetCounty recordCounty
  || String.eqb (JsString.split_space_first recordCounty)
                (JsString.split_space_first normalizedTargetCounty).

(** The magnitude in miles per hour: [Math.round(magnitude * 1.15078)] for
    the flags EG and MG, the magnitude itself otherwise. *)
Definition is_gust_flag (magnitudeType : string) : bool :=
  String.eqb magnitudeType "EG" || String.eqb magnitudeType "MG".

Definition convert_magnitude (magnitude : number) (magnitudeType : string) : number :=
  if is_gust_flag magnitudeType
  then Math_round (mul magnitude knots_to_mph)
  else magnitude.

(** The body of the loop [while ((record = parser.read()))] of
    [getWindEventsForYear]: [None] where the source says [continue], the
    pushed event otherwise.  The counters kept for the log are left out. *)
Definition process_record (geo : GeoTarget) (cutoff : Date)
    (record : RawEventRecord) : option StormEvent :=
  let normalizedTargetCounty := normalizeName (Geo.county geo) in
  let normalizedTargetState := normalizeName (Geo.state geo) in
  let eventType := JsString.trim (or_empty (record !! "EVENT_TYPE")) in
  if negb (bool_decide (eventType ∈ WIND_EVENT_TYPES)) then None
  else
    let recordState := normalizeName (record !! "STATE") in
    if nonempty normalizedTargetState
       && negb (String.eqb recordState normalizedTargetState) then None
    else
      let recordCounty := normalizeName (record !! "CZ_NAME") in
      if nonempty normalizedTargetCounty
         && negb (countyMatches recordCounty normalizedTargetCounty) then None
      else
        match parseNoaaDate (or_else (record !! "BEGIN_DATE_TIME")
                                     (record !! "BEGIN_DATE")) with
        | None => None
        | Some beginDate =>
            if beginDate <? cutoff then None
            else
              let magnitude := parseFloat_field (record !! "MAGNITUDE") in
              let magnitudeType :=
                JsString.toUpperCase (or_empty (record !! "MAGNITUDE_TYPE")) in
              let magnitude := convert_magnitude magnitude magnitudeType in
              if negb (isFinite magnitude) || leb magnitude pos_zero then None
              else
                let lat := parseFloat_field (record !! "BEGIN_LAT") in
                let lon := parseFloat_field (record !! "BEGIN_LON") in
                Some {|
                  date := beginDate;
                  windSpeedMph := integral_value (Math_round magnitude);
                  eventType := eventType;
                  lat := if isFinite lat then Some lat else None;
                  lon := if isFinite lon then Some lon else None;
                  distanceMiles := None
                |}
        end.

(** The events of a file whose stream ends well: one per retained row, in
    the order of the rows. *)
Definition events_of_records (geo : GeoTarget) (cutoff : Date)
    (records : list RawEventRecord) : list StormEvent :=
  omap (process_record geo cutoff) records.

(** [Array.prototype.sort] with a comparison function: the sort is stable,
    and [cmp a b <= 0] leaves [a] before [b].  For a consistent comparison
    function this fixes the result, whatever algorithm the engine runs;
    the result is given here by insertion. *)
Fixpoint sort_insert {A : Type} (cmp : A -> A -> Z) (x : A) (l : list A) : list A :=
  match l with
  | [] => [x]
  | y :: l' => if cmp x y <=? 0 then x :: y :: l' else y :: sort_insert cmp x l'
  end.

Fixpoint Array_sort {A : Type} (cmp : A -> A -> Z) (l : list A) : list A :=
  match l with
  | [] => []
  | x :: l' => sort_insert cmp x (Array_sort cmp l')
  end.

(** [a.localeCompare(b)], on the strings of digits the source compares:
    the order of the code units. *)
Definition localeCompare (a b : string) : Z :=
  match String.compare a b with
  | Lt => -1
  | Eq => 0
  | Gt => 1
  end.

(** The part of [getLatestStormFilename] after the listing is there. *)
Record FileMatch := { filename : string; created : string }.

Definition year_matches (html : string) (year : Z) : list FileMatch :=
  omap (fun m : string * string * string =>
          let '(match0, match1, match2) := m in
          if JsString.digits_value match1 =? year
          then Some {| filename := match0; created := match2 |}
          else None)
       (Regex.stormMatches html).

Definition latestStormFilename (html : string) (year : Z) : option string :=
  let matches := year_matches html year in
  match matches with
  | [] => None
  | _ :: _ =>
      match Array_sort (fun a b => localeCompare (created b) (created a)) matches with
      | first :: _ => Some (filename first)
      | [] => None
      end
  end.

(* ===================================================================== *)
(** * Number to string, for an integral Number *)
(* ===================================================================== *)

(** [x] is the integer value of a Number: the Number nearest to it has
    that value. *)
Definition is_integral_number (x : Z) : Prop := integral_value (of_Z x) = x.

Module NumberToString.
Import JsString.

(** How many decimal digits [s] has. *)
Definition digits10 (s : Z) : Z := Z.of_nat (String.length (decimal s)).

(** The condition of Number::toString on [s] and [n], for the Number
    printed, [x]: [s] has [k] digits, at most [n], and the Number nearest
    to [s * 10^(n - k)] is [x]. *)
Definition represents (x : Z) (sn : Z * Z) : bool :=
  let '(s, n) := sn in
  (0 <? s) && (digits10 s <=? n)
  && (integral_value (of_Z (s * 10 ^ (n - digits10 s))) =? x).

(** The two [k]-digit neighbours of [x], which has [n] digits, the
    nearer to [x] first (the even one, when they are as near). *)
Definition candidates (x n k : Z) : list (Z * Z) :=
  let p := 10 ^ (n - k) in
  let lo := x / p in
  let below := (lo, n) in
  let above := if lo + 1 =? 10 ^ k then (10 ^ (k - 1), n + 1) else (lo + 1, n) in
  let d_lo := x - lo * p in
  let d_hi := (lo + 1) * p - x in
  if (d_hi <? d_lo) || ((d_hi =? d_lo) && Z.odd lo)
  then [above; below] else [below; above].

(** The least [k] from which some [s] of [k] digits represents [x]. *)
Fixpoint shortest (fuel : nat) (k : Z) (x n : Z) : option (Z * Z) :=
  match fuel with
  | O => None
  | S fuel' =>
      match List.find (represents x) (candidates x n k) with
      | Some sn => Some sn
      | None => shortest fuel' (k + 1) x n
      end
  end.

(** The digits [d1 d2 ... dk] as [d1.d2...dk], followed by [e+] and the
    exponent. *)
Definition exponential (digits : string) (e : Z) : string :=
  match digits with
  | String d EmptyString => String d ("e+" +:+ decimal e)
  | String d rest => String d ("." +:+ rest +:+ "e+" +:+ decimal e)
  | EmptyString => EmptyString
  end.

(** [String(x)] for an integral Number [x] that is not negative, given
    by its integer value: with the shortest digits [s] that read back as
    [x] and the number [n] of digits of the integer part, the digits
    of [s] followed by zeros when [n] is at most 21, the digits and a
    decimal exponent beyond.  Seventeen digits are enough for every
    Number; zero has the numeral "0". *)
Definition of_nonneg (x : Z) : string :=
  match shortest 17 1 x (digits10 x) with
  | Some (s, n) =>
      if n <=? 21
      then decimal s +:+ repeat_char "0" (Z.to_nat (n - digits10 s))
      else exponential (decimal s) (n - 1)
  | None => decimal x
  end.

Definition Number_toString (x : Z) : string :=
  if x <? 0 then String "-" (of_nonneg (- x)) else of_nonneg x.

End NumberToString.

(* ===================================================================== *)
(** * The world outside: clock, network, cache directory *)
(* ===================================================================== *)

(** What [zlib.createGunzip()] and the CSV parser deliver from the bytes
    of a file: the rows read, then the end of the stream ([intact]) or an
    error. *)
Record FileData := {
  records : list RawEventRecord;
  intact : bool
}.

(** The body of a download as it arrives: what reaches the disk, and
    whether the transfer completes. *)
Record Download := {
  received : FileData;
  completed : bool
}.

(** The outcome of [await fetch(url)]: a rejection, or a response with
    its [ok] flag and its body. *)
Inductive FetchResult (B : Type) : Type :=
  | NetworkError
  | Response (ok : bool) (body : B).
Arguments NetworkError {B}.
Arguments Response {B} ok body.

(** The remote ends, by the time of the request; each answer comes with
    the time it took. *)
Record Remote := {
  fetch_listing : Z -> FetchResult string * Z;
  fetch_file : string -> Z -> FetchResult Download * Z
}.

(** The state of the process and of its disk. *)
Record World := {
  now : Z;
  directoryCache : option string * Z;
  cacheDir : gmap string FileData
}.

(** A computation that may throw, over the world. *)
Inductive Outcome (A : Type) : Type :=
  | Returned (a : A)
  | Thrown (message : string).
Arguments Returned {A} a.
Arguments Thrown {A} message.

Definition IO (A : Type) : Type := World -> Outcome A * World.

Definition ret {A} (a : A) : IO A := fun w => (Returned a, w).
Definition throw {A} (message : string) : IO A := fun w => (Thrown message, w).
Definition bind {A B} (c : IO A) (k : A -> IO B) : IO B :=
  fun w =>
    match c w with
    | (Returned a, w') => k a w'
    | (Thrown message, w') => (Thrown message, w')
    end.

(** [try { body } catch (err) { handler }]. *)
Definition try_catch {A} (body : IO A) (handler : string -> IO A) : IO A :=
  fun w =>
    match body w with
    | (Returned a, w') => (Returned a, w')
    | (Thrown message, w') => handler message w'
    end.

Declare Scope io_scope.
Delimit Scope io_scope with io.
Notation "x <- c ;; k" := (bind c (fun x => k))
  (at level 100, c at next level, right associativity) : io_scope.
Notation "c ;;; k" := (bind c (fun _ => k))
  (at level 100, right associativity) : io_scope.

Definition Date_now : IO Z := fun w => (Returned (now w), w).

Definition elapse (dt : Z) : IO unit :=
  fun w => (Returned tt,
            {| now := now w + dt; directoryCache := directoryCache w;
               cacheDir := cacheDir w |}).

Definition get_directoryCache : IO (option string * Z) :=
  fun w => (Returned (directoryCache w), w).

Definition set_directoryCache (c : option string * Z) : IO unit :=
  fun w => (Returned tt,
            {| now := now w; directoryCache := c; cacheDir := cacheDir w |}).

Definition existsSync (name : string) : IO bool :=
  fun w => (Returned (bool_decide (is_Some (cacheDir w !! name))), w).

Definition write_file (name : string) (data : FileData) : IO unit :=
  fun w => (Returned tt,
            {| now := now w; directoryCache := directoryCache w;
               cacheDir := <[name := data]> (cacheDir w) |}).

Definition read_file (name : string) : IO FileData :=
  fun w =>
    match cacheDir w !! name with
    | Some data => (Returned data, w)
    | None => (Thrown "ENOENT: no such file or directory", w)
    end.

(** [await fetch(...)]: the answer of the remote end at the present time,
    after the time it takes. *)
Definition fetch {B} (remote : Z -> FetchResult B * Z) : IO (bool * B) :=
  (t <- Date_now ;;
   let '(result, dt) := remote t in
   elapse dt ;;;
   match result with
   | NetworkError => throw "fetch failed"
   | Response ok body => ret (ok, body)
   end)%io.

(* ===================================================================== *)
(** * The functions of the source that act on the world *)
(* ===================================================================== *)

Local Open Scope io_scope.

Section Acquisition.
Variable remote : Remote.

Definition getNoaaDirectoryHtml : IO string :=
  now <- Date_now ;;
  cache <- get_directoryCache ;;
  if truthy_string (fst cache) && (now - snd cache <? DIRECTORY_CACHE_TTL)
  then ret (or_empty (fst cache))
  else
    response <- fetch (fetch_listing remote) ;;
    if negb (fst response)
    then throw "Failed to fetch NOAA directory listing."
    else
      let html := snd response in
      set_directoryCache (Some html, now) ;;;
      ret html.

Definition getLatestStormFilename (year : Z) : IO (option string) :=
  html <- getNoaaDirectoryHtml ;;
  ret (latestStormFilename html year).

(** The cache directory is made when it is missing, which never fails
    here; a download that breaks off leaves what it wrote. *)
Definition ensureFileDownloaded (filename : string) : IO unit :=
  present <- existsSync filename ;;
  if present then ret tt
  else
    response <- fetch (fetch_file remote filename) ;;
    if negb (fst response)
    then throw ("Failed to download " +:+ filename)
    else
      write_file filename (received (snd response)) ;;;
      if completed (snd response) then ret tt
      else throw "aborted".

Definition getWindEventsForYear (year : Z) (geo : GeoTarget) (cutoff : Date)
    : IO (list StormEvent) :=
  filename <- getLatestStormFilename year ;;
  match filename with
  | None => ret []
  | Some filename =>
      ensureFileDownloaded filename ;;;
      data <- read_file filename ;;
      let events := events_of_records geo cutoff (records data) in
      if intact data then ret events
      else throw "unexpected end of file"
  end.

(** The loop [for (let year = startYear; year <= endYear; year++)] of
    the handler, over the years still to do, with its [try] and
    [catch]. *)
Fixpoint year_loop (geo : GeoTarget) (cutoff : Date) (years : list Z)
    (allEvents : list StormEvent) : IO (list StormEvent) :=
  match years with
  | [] => ret allEvents
  | year :: years' =>
      allEvents' <-
        try_catch
          (events <- getWindEventsForYear year geo cutoff ;;
           ret (allEvents ++ events))
          (fun _ => ret allEvents) ;;
      year_loop geo cutoff years' allEvents'
  end.

End Acquisition.

(* ===================================================================== *)
(** * The steps of the handler after the loop *)
(* ===================================================================== *)

(** ToBoolean on a coordinate or a distance that may be [null] or
    [undefined]. *)
Definition truthy_number (v : option number) : bool :=
  match v with Some x => truthy x | None => false end.

Definition or_zero (v : option number) : number :=
  match v with Some x => x | None => pos_zero end.

(** The comparison function of [allEvents.sort]. *)
Definition newest_first (a b : StormEvent) : Z :=
  getTime (date b) - getTime (date a).

Section Radius.
Variable M : MathLib.
Variable geo : GeoTarget.
Variable radiusMiles : number.

(** The function given to [map]. *)
Definition with_distance (e : StormEvent) : StormEvent :=
  if truthy_number (lat e) && truthy_number (lon e)
  then {| date := date e; windSpeedMph := windSpeedMph e;
          eventType := eventType e; lat := lat e; lon := lon e;
          distanceMiles :=
            Some (haversineDistance M (Geo.lat geo) (Geo.lon geo)
                                    (or_zero (lat e)) (or_zero (lon e))) |}
  else e.

(** The function given to [filter]; a distance that is not set compares
    as NaN. *)
Definition within_radius (e : StormEvent) : bool :=
  if negb (truthy_number (lat e)) || negb (truthy_number (lon e)) then false
  else
    match distanceMiles e with
    | Some d => leb d radiusMiles
    | None => false
    end.

Definition filteredEvents (allEvents : list StormEvent) : list StormEvent :=
  if gtb radiusMiles pos_zero
  then List.filter within_radius (List.map with_distance allEvents)
  else allEvents.

End Radius.

(** The key of the set [seen]. *)
Definition dedup_key (e : StormEvent) : string :=
  formatDate (date e) +:+ "-" +:+ NumberToString.Number_toString (windSpeedMph e).

(** [filteredEvents.filter(...)] with the set [seen]. *)
Fixpoint unique_from (seen : gset string) (events : list StormEvent)
    : list StormEvent :=
  match events with
  | [] => []
  | e :: events' =>
      let key := dedup_key e in
      if bool_decide (key ∈ seen) then unique_from seen events'
      else e :: unique_from ({[ key ]} ∪ seen) events'
  end.

Definition uniqueEvents : list StormEvent -> list StormEvent := unique_from ∅.

Definition to_result (event : StormEvent) : Result.t :=
  {| Result.date := formatDate (date event);
     Result.windSpeedMph := windSpeedMph event;
     Result.eventType := eventType event;
     Result.distanceMiles :=
       if truthy_number (distanceMiles event)
       then Some (div (Math_round (mul (or_zero (distanceMiles event)) (of_Z 10)))
                      (of_Z 10))
       else None |}.

(** Everything the handler does to [allEvents] after the loop. *)
Definition sortedEvents (allEvents : list StormEvent) : list StormEvent :=
  Array_sort newest_first allEvents.

Definition selectedEvents (M : MathLib) (geo : GeoTarget) (radiusMiles : number)
    (allEvents : list StormEvent) : list StormEvent :=
  uniqueEvents (filteredEvents M geo radiusMiles (sortedEvents allEvents)).

Definition results_of (M : MathLib) (geo : GeoTarget) (radiusMiles : number)
    (allEvents : list StormEvent) : list Result.t :=
  List.map to_result (selectedEvents M geo radiusMiles allEvents).

(* ===================================================================== *)
(** * The handler of GET /api/windstorms *)
(* ===================================================================== *)

Record Payload := {
  p_address : string;
  p_county : option string;
  p_state : option string;
  p_radiusMiles : option number;
  p_results : list Result.t
}.

Inductive Reply : Type :=
  | Failure (status : Z) (error : string)
  | Success (payload : Payload).

(** [Math.max(0, Number(req.query.radius) || 0)], from the Number that
    [Number(req.query.radius)] is. *)
Definition radius_of_query (q : number) : number :=
  Math_max0 (if truthy q then q else pos_zero).

Section Handler.
Variable M : MathLib.
Variable remote : Remote.
(** The offset of the local time zone, and the geocoder. *)
Variable LocalTZA : Z -> bool -> Z.
Variable geocodeAddress : string -> IO (option GeoTarget).

(** [const cutoff = new Date(); cutoff.setFullYear(cutoff.getFullYear() - 10)]. *)
Definition cutoff_at (t : Z) : Date :=
  setFullYear LocalTZA t (getFullYear LocalTZA t - 10).

Definition handler_body (query_address : option string) (query_radius : number)
    : IO Reply :=
  let address := JsString.trim (or_empty query_address) in
  if negb (nonempty address) then ret (Failure 400 "Address is required.")
  else
    let radiusMiles := radius_of_query query_radius in
    geo <- geocodeAddress address ;;
    match geo with
    | None =>
        ret (Failure 404 "Could not find that address. Try including city and state.")
    | Some geo =>
        t <- Date_now ;;
        let cutoff := cutoff_at t in
        let startYear := getUTCFullYear cutoff in
        let endYear := getUTCFullYear t in
        allEvents <-
          year_loop remote geo cutoff
            (seqZ startYear (endYear - startYear + 1)) [] ;;
        ret (Success {|
               p_address := Geo.displayName geo;
               p_county := Geo.county geo;
               p_state := Geo.state geo;
               p_radiusMiles :=
                 if truthy radiusMiles then Some radiusMiles else None;
               p_results := results_of M geo radiusMiles allEvents |})
    end.

Definition handler (query_address : option string) (query_radius : number)
    : IO Reply :=
  try_catch (handler_body query_address query_radius)
            (fun _ => ret (Failure 500 "Server error. Please try again.")).

End Handler.

Local Close Scope io_scope.

(* ===================================================================== *)
(** * An implementation of the approximated functions *)
(* ===================================================================== *)

(** [Math.sin], [Math.cos] and [Math.atan2] by their power series in
    binary64 arithmetic, with the values ECMAScript fixes at the zeros, the
    infinities and NaN.  The sine and the cosine are meant for arguments
    between -pi and pi, which is where [haversineDistance] calls them. *)
Module SeriesMath.

Fixpoint factorial (n : nat) : Z :=
  match n with
  | O => 1
  | S n' => Z.of_nat n * factorial n'
  end.

Definition one : number := of_Z 1.
Definition two : number := of_Z 2.

(** [c0 + y (c1 + y (c2 + ...))]. *)
Fixpoint horner (coefficients : list number) (y : number) : number :=
  match coefficients with
  | [] => pos_zero
  | c :: rest => add c (mul y (horner rest y))
  end.

Definition alternate (k : nat) (x : number) : number :=
  if Nat.even k then x else SFopp x.

Definition sin_coefficients : list number :=
  List.map (fun k => alternate k (div one (of_Z (factorial (2 * k + 1)))))
      (seq 0 12).

Definition cos_coefficients : list number :=
  List.map (fun k => alternate k (div one (of_Z (factorial (2 * k)))))
      (seq 0 12).

Definition atan_coefficients : list number :=
  List.map (fun k => alternate k (div one (of_Z (Z.of_nat (2 * k + 1)))))
      (seq 0 16).

Definition sin (x : number) : number :=
  match x with
  | S754_nan | S754_infinity _ => NaN
  | S754_zero _ => x
  | S754_finite _ _ _ => mul x (horner sin_coefficients (mul x x))
  end.

Definition cos (x : number) : number :=
  match x with
  | S754_nan | S754_infinity _ => NaN
  | S754_zero _ => one
  | S754_finite _ _ _ => horner cos_coefficients (mul x x)
  end.

(** The arc tangent of [t] between 0 and 1: the argument is halved twice
    with [atan t = 2 atan (t / (1 + sqrt (1 + t^2)))]. *)
Definition halve (t : number) : number :=
  div t (add one (sqrt (add one (mul t t)))).

Definition atan_unit (t : number) : number :=
  let u := halve (halve t) in
  mul (of_Z 4) (mul u (horner atan_coefficients (mul u u))).

Definition half_pi : number := div Math_PI two.

(** The arc tangent of [y / x] for [y] and [x] positive and finite. *)
Definition atan_quotient (y x : number) : number :=
  if leb y x then atan_unit (div y x)
  else sub half_pi (atan_unit (div x y)).

Definition is_negative (x : number) : bool :=
  match x with
  | S754_zero s | S754_infinity s | S754_finite s _ _ => s
  | S754_nan => false
  end.

Definition with_sign_of (y r : number) : number :=
  if is_negative y then SFopp r else r.

Definition atan2 (y x : number) : number :=
  match y, x with
  | S754_nan, _ | _, S754_nan => NaN
  | S754_zero _, _ =>
      if is_negative x then with_sign_of y Math_PI else y
  | _, S754_zero _ => with_sign_of y half_pi
  | S754_infinity _, S754_infinity sx =>
      with_sign_of y
        (if sx then mul (of_Z 3) (div Math_PI (of_Z 4)) else div Math_PI (of_Z 4))
  | S754_infinity _, _ => with_sign_of y half_pi
  | _, S754_infinity sx =>
      with_sign_of y (if sx then Math_PI else pos_zero)
  | S754_finite _ _ _, S754_finite sx _ _ =>
      let a := atan_quotient (SFabs y) (SFabs x) in
      with_sign_of y (if sx then sub Math_PI a else a)
  end.

Definition lib : MathLib :=
  {| Math_sin := sin; Math_cos := cos; Math_atan2 := atan2 |}.

End SeriesMath.


(* ===================================================================== *)
(** * Notions the statements use *)
(* ===================================================================== *)

(** ** The order of the results *)

Definition not_older (a b : StormEvent) : Prop := date b <= date a.

(** What the radius step does to an event that stays. *)
Definition annotate (M : MathLib) (geo : GeoTarget) (radiusMiles : number)
    (e : StormEvent) : StormEvent :=
  if gtb radiusMiles pos_zero then with_distance M geo e else e.

(** ** Characters and numerals *)

Definition is_digit_or_minus (c : ascii) : bool :=
  JsString.is_digit c || Ascii.eqb c "-".

Definition is_digit_or_point (c : ascii) : bool :=
  JsString.is_digit c || Ascii.eqb c ".".

Definition not_slash (c : ascii) : bool := negb (Ascii.eqb c "/").

(** The digits before [e+], with their point. *)
Definition mantissa (digits : string) : string :=
  match digits with
  | String d EmptyString => String d EmptyString
  | String d rest => String d ("." +:+ rest)
  | EmptyString => EmptyString
  end.

(** ** Numbers *)

(** A finite Number has a mantissa of at most 53 bits and an exponent of
    at most 971. *)
Definition bounded_number (x : number) : Prop :=
  match x with
  | S754_finite _ m e => Zpos (digits2_pos m) <= prec /\ e <= emax - prec
  | _ => True
  end.

(** The key reads the wind speed of an event as a Number that is not
    negative. *)
Definition speed_is_number (e : StormEvent) : Prop :=
  0 <= windSpeedMph e /\ is_integral_number (windSpeedMph e).

(** ** Deduplication *)

(** The pair the claim names: the formatted date and the wind speed. *)
Definition date_and_speed (e : StormEvent) : string * Z :=
  (formatDate (date e), windSpeedMph e).

Definition same_date_and_speed (a b : StormEvent) : bool :=
  bool_decide (date_and_speed a = date_and_speed b).

(** The deduplication in the words of the specification: an event is kept
    when none of the events before it, kept or not, has its pair. *)
Fixpoint keep_first_occurrences (earlier events : list StormEvent)
    : list StormEvent :=
  match events with
  | [] => []
  | e :: rest =>
      if existsb (same_date_and_speed e) earlier
      then keep_first_occurrences (earlier ++ [e]) rest
      else e :: keep_first_occurrences (earlier ++ [e]) rest
  end.

(** ** The dataset directory resolver *)

(** A string of exactly [n] decimal digits. *)
Definition digit_string (n : nat) (s : string) : Prop :=
  String.length s = n /\ JsString.forall_chars JsString.is_digit s = true.

(** [token] occurs in [html]. *)
Definition occurs_in (token html : string) : Prop :=
  exists before after, html = before +:+ token +:+ after.

(** The listing [html] has a file name of the fixed pattern for the year
    [year] with the creation suffix [created]. *)
Definition listed (html : string) (year : Z) (created : string) : Prop :=
  exists y, digit_string 4 y /\ digit_string 8 created
            /\ JsString.digits_value y = year
            /\ occurs_in (Regex.storm_filename y created) html.

Definition not_capital_S (c : ascii) : bool := negb (Ascii.eqb c "S").

Fixpoint free_of_S_upto (n : nat) (s : string) : bool :=
  match n, s with
  | S n', String c s' => not_capital_S c && free_of_S_upto n' s'
  | _, _ => true
  end.

(** ** County matching *)

(** The first token of a string delimited by white space: leading white
    space is skipped, and the token runs up to the next white space. *)
Fixpoint take_word (s : string) : string :=
  match s with
  | EmptyString => EmptyString
  | String c s' => if JsString.is_space c then EmptyString else String c (take_word s')
  end.

Definition first_word (s : string) : string := take_word (JsString.trimStart s).

(** White space is single spaces only. *)
Definition space_is_blank (c : ascii) : bool :=
  negb (JsString.is_space c) || Ascii.eqb c " ".

(** A string does not start with white space. *)
Definition starts_clean (s : string) : Prop :=
  match s with
  | EmptyString => True
  | String c _ => JsString.is_space c = false
  end.

(** ** Dates of the form DD-MON-YY *)

(** [s] does not go on with a decimal digit. *)
Definition no_digit_ahead (s : string) : Prop :=
  match s with
  | EmptyString => True
  | String c _ => JsString.is_digit c = false
  end.

(** ** The row filter *)

(** The speed in miles per hour in the words of the specification: the
    magnitude times 1.15078, rounded, with a gust flag, and the magnitude
    rounded without.  It is this rounded speed that the specification
    tests against zero. *)
Definition speed_of_magnitude (m : number) (flag : string) : number :=
  if decide (flag = "EG" \/ flag = "MG")
  then Math_round (mul m knots_to_mph)
  else Math_round m.

(** ** The radius *)

(** The distance of a result in the words of the specification: the
    haversine distance rounded to one decimal. *)
Definition round_to_tenth (d : number) : number :=
  div (Math_round (mul d (of_Z 10))) (of_Z 10).

Definition distance_to (M : MathLib) (geo : GeoTarget) (e : StormEvent) : number :=
  haversineDistance M (Geo.lat geo) (Geo.lon geo) (or_zero (lat e)) (or_zero (lon e)).

(** ** The loop over the years *)

(** What each year adds to [allEvents] in the words of the specification:
    its events when its processing returns, nothing when it throws.  Every
    year runs in the world the year before it left. *)
Fixpoint contributions (remote : Remote) (geo : GeoTarget) (cutoff : Date)
    (years : list Z) (w : World) : list (list StormEvent) * World :=
  match years with
  | [] => ([], w)
  | year :: years' =>
      let '(outcome, w1) := getWindEventsForYear remote year geo cutoff w in
      let '(rest, w2) := contributions remote geo cutoff years' w1 in
      (match outcome with Returned events => events | Thrown _ => [] end :: rest, w2)
  end.

(** A request the remote end does not serve. *)
Definition refused {B} (answer : FetchResult B * Z) : Prop :=
  match fst answer with
  | NetworkError => True
  | Response ok _ => ok = false
  end.

(** The cached listing cannot be used. *)
Definition listing_stale (w : World) : Prop :=
  truthy_string (fst (directoryCache w))
  && (now w - snd (directoryCache w) <? DIRECTORY_CACHE_TTL) = false.


(* ===================================================================== *)
(** * Example data *)
(* ===================================================================== *)

(** The target of the examples of the specification: Suffolk County, New
    York, at the coordinates (40.0, -75.0). *)
Definition example_geo : GeoTarget :=
  {| Geo.displayName := "Suffolk County, New York, United States";
     Geo.lat := parseFloat "40.0";
     Geo.lon := parseFloat "-75.0";
     Geo.county := Some "Suffolk";
     Geo.state := Some "New York" |}.

(** A row of a dataset file for that county, with the fields the claims
    vary. *)
Definition example_record (date magnitude magnitudeType lat lon : string)
    : RawEventRecord :=
  list_to_map [
    ("EVENT_TYPE", "Thunderstorm Wind");
    ("STATE", "NEW YORK");
    ("CZ_TYPE", "C");
    ("CZ_NAME", "SUFFOLK");
    ("BEGIN_DATE_TIME", date);
    ("MAGNITUDE", magnitude);
    ("MAGNITUDE_TYPE", magnitudeType);
    ("BEGIN_LAT", lat);
    ("BEGIN_LON", lon)
  ].

(** A request on the 2nd of November 2025 has its cutoff ten years
    before. *)
Definition example_now : Date := Date_UTC 2025 10 2.
Definition example_cutoff : Date := Date_UTC 2015 10 2.

(** A directory listing with two versions of the file of 2020, a remote
    end that serves it and serves [records] as every file, a process that
    has just started, and a geocoder that finds the target. *)
Definition example_listing : string :=
  "<a>StormEvents_details-ftp_v1.0_d2020_c20230927.csv.gz</a> " +:+
  "<a>StormEvents_details-ftp_v1.0_d2020_c20240620.csv.gz</a>".

Definition example_remote (records : list RawEventRecord) : Remote :=
  {| fetch_listing := fun _ => (Response true example_listing, 120);
     fetch_file := fun _ _ =>
       (Response true {| received := {| records := records; intact := true |};
                         completed := true |}, 900) |}.

Definition example_world : World :=
  {| now := example_now; directoryCache := (None, 0); cacheDir := ∅ |}.

Definition example_geocoder (address : string) : IO (option GeoTarget) :=
  ret (Some example_geo).

(** The reply of the handler to a request for the example address with
    the radius [radius], when the file of 2020 has the rows [records]. *)
Definition example_reply (records : list RawEventRecord) (radius : number)
    : Outcome Reply :=
  fst (handler SeriesMath.lib (example_remote records) (fun _ _ => 0)
         example_geocoder (Some "Suffolk County, NY") radius example_world).

Definition example_results (records : list RawEventRecord) (radius : number)
    : list Result.t :=
  match example_reply records radius with
  | Returned (Success payload) => p_results payload
  | _ => []
  end.

(** A listing with the files of 2019 and 2020, and a remote end that
    refuses the file of 2019 and serves [records] as the file of 2020. *)
Definition two_year_listing : string :=
  "<a>StormEvents_details-ftp_v1.0_d2019_c20230927.csv.gz</a> " +:+
  "<a>StormEvents_details-ftp_v1.0_d2020_c20240620.csv.gz</a>".

Definition refusing_2019 (records : list RawEventRecord) : Remote :=
  {| fetch_listing := fun _ => (Response true two_year_listing, 120);
     fetch_file := fun filename _ =>
       if String.eqb filename (Regex.storm_filename "2019" "20230927")
       then (Response false {| received := {| records := []; intact := false |};
                               completed := false |}, 50)
       else (Response true {| received := {| records := records; intact := true |};
                              completed := true |}, 900) |}.

Definition example_day : string := "06/15/2020 14:30:00".

Definition example_result (date : string) (speed : Z) (distance : option number)
    : Result.t :=
  {| Result.date := date; Result.windSpeedMph := speed;
     Result.eventType := "Thunderstorm Wind"; Result.distanceMiles := distance |}.


(* ===================================================================== *)
(** * Notions the further properties use *)
(* ===================================================================== *)

(** The fields of a row that [getWindEventsForYear] reads and uses. *)
Definition read_fields : list string :=
  ["EVENT_TYPE"; "STATE"; "CZ_NAME"; "BEGIN_DATE_TIME"; "BEGIN_DATE";
   "MAGNITUDE"; "MAGNITUDE_TYPE"; "BEGIN_LAT"; "BEGIN_LON"].

(** The target without its county. *)
Definition without_county (geo : GeoTarget) : GeoTarget :=
  {| Geo.displayName := Geo.displayName geo; Geo.lat := Geo.lat geo;
     Geo.lon := Geo.lon geo; Geo.county := None; Geo.state := Geo.state geo |}.

(** The reply to the example request with no radius, by the remote end. *)
Definition example_reply_of (remote : Remote) : Outcome Reply :=
  fst (handler SeriesMath.lib remote (fun _ _ => 0) example_geocoder
         (Some "Suffolk County, NY") NaN example_world).

(** A remote end whose downloads break off after no row. *)
Definition breaking_off : Remote :=
  {| fetch_listing := fun _ => (Response true example_listing, 120);
     fetch_file := fun _ _ =>
       (Response true {| received := {| records := []; intact := false |};
                         completed := false |}, 900) |}.

(** The remote end when the directory listing is down. *)
Definition listing_down : Remote :=
  {| fetch_listing := fun _ => (NetworkError, 3000);
     fetch_file := fun _ _ => (NetworkError, 3000) |}.

(** A time value at midnight UTC. *)
Definition at_midnight (d : Date) : Prop := TimeWithinDay d = 0.

(** What the brute-force checks of the numerals test: [k] printed on two
    places, and [y] printed, are strings of digits of the right length
    that read back as [k] and [y]. *)
Definition two_places_ok (k : Z) : bool :=
  let s := JsString.padStart0 2 (JsString.decimal k) in
  (String.length s =? 2)%nat && JsString.forall_chars JsString.is_digit s
  && (JsString.digits_value s =? k).

Definition four_places_ok (y : Z) : bool :=
  let s := JsString.decimal y in
  (String.length s =? 4)%nat && JsString.forall_chars JsString.is_digit s
  && (JsString.digits_value s =? y).

(* ===================================================================== *)
(** * The geocoder *)
(* ===================================================================== *)

(** The regular expression of white space, a word and the end of the
    string, with the flag [i], tried at the start of [s]; and [replace]
    with it and the empty string, which removes the leftmost match. *)
Definition suffix_word_at (word s : string) : bool :=
  match s with
  | String c s' =>
      JsString.is_space c && Regex.eq_ignore_case (JsString.trimStart s') word
  | EmptyString => false
  end.

Fixpoint remove_suffix_word (word s : string) : string :=
  match s with
  | EmptyString => EmptyString
  | String c s' =>
      if suffix_word_at word s then EmptyString
      else String c (remove_suffix_word word s')
  end.

(** One entry of the array the geocoding service answers with:
    [display_name], [Number(lat)], [Number(lon)], and the fields of
    [address] when it has one. *)
Record NominatimResult := {
  display_name : string;
  result_lat : number;
  result_lon : number;
  result_address : option (gmap string string)
}.

(** What [response.json()] gives: it throws on a body that is not JSON,
    and the value it returns is an array of results or something else. *)
Inductive GeocodeBody : Type :=
  | MalformedBody
  | OtherJson
  | ResultArray (results : list NominatimResult).

(** [a || b || ... || null] on fields that are strings or missing. *)
Fixpoint first_truthy (values : list (option string)) : option string :=
  match values with
  | [] => None
  | v :: values' => if truthy_string v then v else first_truthy values'
  end.

(** The chain of [replace] and the [trim] applied to the county. *)
Definition clean_county (county : string) : string :=
  JsString.trim
    (remove_suffix_word "Census Area"
       (remove_suffix_word "Borough"
          (remove_suffix_word "Parish"
             (remove_suffix_word "County" county)))).

Definition geocode_county (details : gmap string string) : option string :=
  match first_truthy [details !! "county"; details !! "state_district";
                      details !! "region"; details !! "city"] with
  | Some county => Some (clean_county county)
  | None => None
  end.

(** The object [geocodeAddress] returns for the first result.  Its field
    [stateCode], which one of the two versions adds and nothing reads, is
    left out. *)
Definition geo_of_result (result : NominatimResult) : GeoTarget :=
  let details := default ∅ (result_address result) in
  {| Geo.displayName := display_name result;
     Geo.lat := result_lat result;
     Geo.lon := result_lon result;
     Geo.county := geocode_county details;
     Geo.state := first_truthy [details !! "state"] |}.

(** [geocodeAddress], over the answers of the geocoding service by
    address and time. *)
Definition geocodeAddress (nominatim : string -> Z -> FetchResult GeocodeBody * Z)
    (address : string) : IO (option GeoTarget) :=
  bind (fetch (nominatim address)) (fun response =>
    if negb (fst response) then ret None
    else
      match snd response with
      | MalformedBody => throw "Unexpected token in JSON"
      | OtherJson => ret None
      | ResultArray [] => ret None
      | ResultArray (result :: _) => ret (Some (geo_of_result result))
      end).

(** The four words the geocoder removes, as the source writes them. *)
Definition county_words : list string :=
  ["County"; "Parish"; "Borough"; "Census Area"].

(** The code units below 256. *)
Definition all_chars : list ascii := List.map ascii_of_nat (seq 0 256).

(** The characters a character of a pattern with the flag i matches. *)
Definition same_case_chars (c : ascii) : list ascii :=
  List.filter (fun x => Ascii.eqb (JsString.upper_char x) (JsString.upper_char c))
              all_chars.

(** Every spelling of [word] in upper and lower case letters. *)
Fixpoint case_variants (word : string) : list string :=
  match word with
  | EmptyString => [EmptyString]
  | String c word' =>
      List.flat_map (fun tail => List.map (fun x => String x tail) (same_case_chars c))
                    (case_variants word')
  end.

(** The chain of [replace] removes a space and [suffix] altogether. *)
Definition tail_cleaned (suffix : string) : bool :=
  String.eqb
    (remove_suffix_word "Census Area"
       (remove_suffix_word "Borough"
          (remove_suffix_word "Parish"
             (remove_suffix_word "County" (String " " suffix)))))
    EmptyString.

(** A string without white space. *)
Definition one_word (s : string) : Prop :=
  JsString.forall_chars (fun c => negb (JsString.is_space c)) s = true.

(* ===================================================================== *)
(** * The shape of a normalized name *)
(* ===================================================================== *)

(** A lower-case letter, a digit or the space. *)
Definition name_char (c : ascii) : bool :=
  JsString.is_lower_az c || JsString.is_digit c || Ascii.eqb c " ".

(** No two spaces in a row. *)
Fixpoint single_spaced (s : string) : bool :=
  match s with
  | String a ((String b _) as s') =>
      negb (Ascii.eqb a " " && Ascii.eqb b " ") && single_spaced s'
  | _ => true
  end.

(** The last character, if any, is not white space. *)
Fixpoint ends_clean (s : string) : bool :=
  match s with
  | EmptyString => true
  | String c EmptyString => negb (JsString.is_space c)
  | String _ s' => ends_clean s'
  end.

(** What [replace(/[^a-z0-9\s]/g, " ")] leaves. *)
Definition kept_char (c : ascii) : bool :=
  JsString.is_lower_az c || JsString.is_digit c || JsString.is_space c.

Definition starts_with_space (s : string) : bool :=
  match s with String c _ => Ascii.eqb c " " | EmptyString => false end.

(** A date as the row parser makes them from a year of four digits that
    does not start with 0: at midnight UTC, in a year from 1000 to 9999. *)
Definition plain_date (d : Date) : Prop :=
  at_midnight d /\ 1000 <= getUTCFullYear d <= 9999.

(** The events of the date [d]. *)
Definition on_date (d : Date) (e : StormEvent) : bool := date e =? d.

(** What [JSON.stringify] writes for a field that holds a Number or
    [null]: a Number that is not finite is written [null]. *)
Definition json_number (v : option number) : option number :=
  match v with
  | Some x => if isFinite x then Some x else None
  | None => None
  end.


(* ===================================================================== *)
(** * The normalization of names in the words of the specification *)
(* ===================================================================== *)

(** Stripping a trailing "county" suffix word: when the string ends with
    white space followed by the word county, in any letter case, what is
    left is the part before that white space; otherwise the string is
    left as it is. *)
Definition county_word_stripped (s r : string) : Prop :=
  (exists ws w,
     s = r +:+ ws +:+ w /\ ws <> "" /\ JsString.all_space ws = true
     /\ Regex.eq_ignore_case w "county" = true /\ ends_clean r = true)
  \/ (r = s
      /\ forall base ws w,
           s = base +:+ ws +:+ w -> ws <> "" -> JsString.all_space ws = true ->
           Regex.eq_ignore_case w "county" = false).

(** Replacing every character that is not a letter from a to z or a
    digit by a space. *)
Fixpoint map_chars (f : ascii -> ascii) (s : string) : string :=
  match s with
  | EmptyString => EmptyString
  | String c s' => String (f c) (map_chars f s')
  end.

Definition alnum_or_blank (c : ascii) : ascii :=
  if JsString.is_lower_az c || JsString.is_digit c then c else " "%char.

(** Collapsing white space and trimming: the words of the string, which
    white space delimits, joined by single spaces.  [cur] is the word
    being read. *)
Fixpoint words_acc (cur s : string) : list string :=
  match s with
  | EmptyString => if nonempty cur then [cur] else []
  | String c s' =>
      if JsString.is_space c
      then if nonempty cur then cur :: words_acc EmptyString s'
           else words_acc EmptyString s'
      else words_acc (cur +:+ String c EmptyString) s'
  end.

Definition words : string -> list string := words_acc EmptyString.

Fixpoint unwords (ws : list string) : string :=
  match ws with
  | [] => EmptyString
  | w :: ws' =>
      match ws' with
      | [] => w
      | _ :: _ => w +:+ " " +:+ unwords ws'
      end
  end.

(** The normalized name in the words of the specification: lowercase,
    strip a trailing county suffix word, replace non-alphanumerics with
    spaces, collapse white space, trim.  A name that is missing or empty
    has the empty normalized name. *)
Definition normalized_as (value : option string) (n : string) : Prop :=
  if truthy_string value
  then exists stripped,
         county_word_stripped (JsString.toLowerCase (or_empty value)) stripped
         /\ n = unwords (words (map_chars alnum_or_blank stripped))
  else n = EmptyString.

(** The fuzzy match in the words of the specification, on the two names
    as the row and the geocoder give them: after normalizing both, the
    two normalized strings are equal, or either contains the other, or
    their first tokens delimited by white space are equal. *)
Definition fuzzy_county_match (recordCounty targetCounty : option string) : Prop :=
  exists r t,
    normalized_as recordCounty r /\ normalized_as targetCounty t
    /\ (r = t \/ occurs_in t r \/ occurs_in r t \/ first_word r = first_word t).

(* ===================================================================== *)
(** * Sorting *)
(* ===================================================================== *)

Section SortFacts.
Context {A : Type} (cmp : A -> A -> Z).

Lemma sort_insert_perm x l : sort_insert cmp x l ≡ₚ x :: l.
Proof.
  induction l as [|y l IH]; simpl; [done|].
  destruct (cmp x y <=? 0); [done|].
  rewrite IH. apply Permutation_swap.
Qed.

Lemma Array_sort_perm l : Array_sort cmp l ≡ₚ l.
Proof.
  induction l as [|x l IH]; simpl; [done|].
  by rewrite sort_insert_perm, IH.
Qed.

(** An element moves past another one only if the comparison function
    puts it strictly after. *)
Lemma sort_insert_filter (P : A -> bool) x l :
  (forall y, P x = true -> P y = true -> cmp x y <= 0) ->
  List.filter P (sort_insert cmp x l) = List.filter P (x :: l).
Proof.
  intros HP. induction l as [|y l IH]; simpl; [done|].
  destruct (cmp x y <=? 0) eqn:Hc; [done|].
  simpl in *. rewrite IH.
  destruct (P x) eqn:Hx, (P y) eqn:Hy; try done.
  specialize (HP y eq_refl Hy). lia.
Qed.

Lemma Array_sort_filter (P : A -> bool) l :
  (forall x y, P x = true -> P y = true -> cmp x y <= 0) ->
  List.filter P (Array_sort cmp l) = List.filter P l.
Proof.
  intros HP. induction l as [|x l IH]; simpl; [done|].
  rewrite sort_insert_filter by eauto. simpl. by rewrite IH.
Qed.

Lemma sort_insert_sorted x l :
  (forall a b, ~ cmp a b <= 0 -> cmp b a <= 0) ->
  (forall a b c, cmp a b <= 0 -> cmp b c <= 0 -> cmp a c <= 0) ->
  StronglySorted (fun a b => cmp a b <= 0) l ->
  StronglySorted (fun a b => cmp a b <= 0) (sort_insert cmp x l).
Proof.
  intros Htot Htrans. induction 1 as [|y l Hs IH Hall]; simpl.
  - repeat constructor.
  - destruct (cmp x y <=? 0) eqn:Hc.
    + apply Z.leb_le in Hc. constructor; [by constructor|].
      constructor; [done|]. eapply Forall_impl; [exact Hall|]. eauto.
    + apply Z.leb_gt in Hc. constructor; [done|].
      rewrite sort_insert_perm. constructor; [|done].
      apply Htot. lia.
Qed.

Lemma Array_sort_sorted l :
  (forall a b, ~ cmp a b <= 0 -> cmp b a <= 0) ->
  (forall a b c, cmp a b <= 0 -> cmp b c <= 0 -> cmp a c <= 0) ->
  StronglySorted (fun a b => cmp a b <= 0) (Array_sort cmp l).
Proof.
  intros Htot Htrans. induction l as [|x l IH]; simpl.
  - constructor.
  - by apply sort_insert_sorted.
Qed.

End SortFacts.


Section OrderFacts.

Lemma StronglySorted_sublist {A} (R : A -> A -> Prop) l1 l2 :
  l1 `sublist_of` l2 -> StronglySorted R l2 -> StronglySorted R l1.
Proof.
  induction 1 as [|x l1 l2 Hsub IH|x l1 l2 Hsub IH]; intros Hs.
  - constructor.
  - apply StronglySorted_cons in Hs as [Hall Hs].
    apply StronglySorted_cons. split; [|by apply IH].
    rewrite Forall_forall in *. intros y Hy. apply Hall.
    by eapply sublist_subseteq.
  - apply StronglySorted_cons in Hs as [_ Hs]. by apply IH.
Qed.

Lemma filter_sublist {A} (P : A -> bool) l : List.filter P l `sublist_of` l.
Proof.
  induction l as [|x l IH]; simpl; [constructor|].
  destruct (P x); by constructor.
Qed.

Lemma unique_from_sublist seen events :
  unique_from seen events `sublist_of` events.
Proof.
  revert seen. induction events as [|e events IH]; intros seen; simpl.
  - constructor.
  - case_bool_decide; constructor; apply IH.
Qed.

Lemma with_distance_date M geo e : date (with_distance M geo e) = date e.
Proof. unfold with_distance. by destruct (_ && _). Qed.

Lemma annotate_date M geo r e : date (annotate M geo r e) = date e.
Proof. unfold annotate. destruct (gtb _ _); [apply with_distance_date|done]. Qed.

Lemma filteredEvents_sublist M geo r events :
  filteredEvents M geo r events `sublist_of` List.map (annotate M geo r) events.
Proof.
  unfold filteredEvents, annotate. destruct (gtb r pos_zero).
  - apply filter_sublist.
  - by rewrite List.map_id.
Qed.

Lemma sortedEvents_sorted allEvents :
  StronglySorted not_older (sortedEvents allEvents).
Proof.
  unfold sortedEvents.
  assert (Hs : StronglySorted (fun a b => newest_first a b <= 0)
                 (Array_sort newest_first allEvents)).
  { apply Array_sort_sorted; unfold newest_first, getTime; intros; lia. }
  induction Hs as [|x l Hs IH Hall]; constructor; [done|].
  eapply Forall_impl; [exact Hall|].
  unfold newest_first, getTime, not_older. intros; lia.
Qed.

Lemma sortedEvents_stable allEvents d :
  List.filter (fun e => date e =? d) (sortedEvents allEvents)
  = List.filter (fun e => date e =? d) allEvents.
Proof.
  apply Array_sort_filter. intros x y Hx Hy.
  apply Z.eqb_eq in Hx, Hy. unfold newest_first, getTime. lia.
Qed.

Lemma map_sorted_by_date (f : StormEvent -> StormEvent) l :
  (forall e, date (f e) = date e) ->
  StronglySorted not_older l -> StronglySorted not_older (List.map f l).
Proof.
  intros Hf. induction 1 as [|x l Hs IH Hall]; simpl; constructor; [done|].
  rewrite Forall_forall in *. intros y Hy.
  apply list_elem_of_In, in_map_iff in Hy as (z & <- & Hz).
  unfold not_older. rewrite !Hf. apply Hall. by apply list_elem_of_In.
Qed.

End OrderFacts.

(** C7.  The events behind the results are in descending order of begin
    date: each one is not older than those after it, and so than the next
    one.  The sort is stable: for each date, the events of that date are
    in the order of [allEvents].  The radius step and the deduplication
    only drop events: what they keep is a sublist of the sorted list, up to
    the distance set on each event, and the results are these events one
    by one. *)
Theorem C7_results_sorted_stable M geo radiusMiles allEvents :
  let sorted := sortedEvents allEvents in
  let filtered := filteredEvents M geo radiusMiles sorted in
  let selected := selectedEvents M geo radiusMiles allEvents in
  StronglySorted not_older selected
  /\ Sorted not_older selected
  /\ (forall d : Date,
        List.filter (fun e => date e =? d) sorted
        = List.filter (fun e => date e =? d) allEvents)
  /\ sorted ≡ₚ allEvents
  /\ filtered `sublist_of` List.map (annotate M geo radiusMiles) sorted
  /\ selected `sublist_of` filtered
  /\ (forall e, date (annotate M geo radiusMiles e) = date e)
  /\ results_of M geo radiusMiles allEvents = List.map to_result selected.
Proof.
  intros sorted filtered selected.
  assert (Hsub1 : filtered `sublist_of` List.map (annotate M geo radiusMiles) sorted)
    by apply filteredEvents_sublist.
  assert (Hsub2 : selected `sublist_of` filtered) by apply unique_from_sublist.
  assert (Hss : StronglySorted not_older selected).
  { eapply StronglySorted_sublist; [exact Hsub2|].
    eapply StronglySorted_sublist; [exact Hsub1|].
    apply map_sorted_by_date; [apply annotate_date|apply sortedEvents_sorted]. }
  split_and!; try done.
  - by apply StronglySorted_Sorted.
  - apply sortedEvents_stable.
  - apply Array_sort_perm.
  - apply annotate_date.
Qed.


(* ===================================================================== *)
(** * Strings *)
(* ===================================================================== *)

Section StringFacts.
Import JsString.

Lemma append_cons c a b : String c a +:+ b = String c (a +:+ b).
Proof. reflexivity. Qed.

Lemma append_empty_l a : EmptyString +:+ a = a.
Proof. reflexivity. Qed.

Lemma append_empty_r a : a +:+ EmptyString = a.
Proof. induction a as [|c a IH]; [done|]. by rewrite append_cons, IH. Qed.

Lemma append_assoc a b c : (a +:+ b) +:+ c = a +:+ (b +:+ c).
Proof. induction a as [|x a IH]; [done|]. by rewrite !append_cons, IH. Qed.

Lemma forall_chars_append p a b :
  forall_chars p (a +:+ b) = forall_chars p a && forall_chars p b.
Proof.
  induction a as [|c a IH]; [done|].
  rewrite append_cons. simpl. by rewrite IH, andb_assoc.
Qed.

Lemma forall_chars_impl (p q : ascii -> bool) s :
  (forall c, p c = true -> q c = true) ->
  forall_chars p s = true -> forall_chars q s = true.
Proof.
  intros Hpq. induction s as [|c s IH]; [done|]. simpl.
  rewrite !andb_true_iff. intros [? ?]. auto.
Qed.

(** A string is cut in one way only at the first occurrence of a
    character. *)
Lemma split_at_char (p : ascii -> bool) c a a' b b' :
  p c = false ->
  forall_chars p a = true -> forall_chars p a' = true ->
  a +:+ String c b = a' +:+ String c b' -> a = a' /\ b = b'.
Proof.
  intros Hc. revert a'. induction a as [|x a IH]; intros [|x' a'] Ha Ha' Heq;
    rewrite ?append_cons, ?append_empty_l in Heq; simpl in Ha, Ha'.
  - by injection Heq.
  - injection Heq as <- _. apply andb_true_iff in Ha' as [? _]. congruence.
  - injection Heq as -> _. apply andb_true_iff in Ha as [? _]. congruence.
  - injection Heq as -> Heq.
    apply andb_true_iff in Ha as [_ Ha], Ha' as [_ Ha'].
    destruct (IH a' Ha Ha' Heq) as [-> ->]. done.
Qed.

Lemma repeat_char_forall p c n :
  p c = true -> forall_chars p (repeat_char c n) = true.
Proof. intros Hc. induction n as [|n IH]; [done|]. simpl. by rewrite Hc, IH. Qed.

(** ** Decimal numerals *)

Lemma string_of_uint_digits d :
  forall_chars is_digit (NilEmpty.string_of_uint d) = true.
Proof. induction d; simpl; try done. Qed.

Lemma nilzero_uint_digits d :
  forall_chars is_digit (NilZero.string_of_uint d) = true.
Proof. destruct d; try done; apply (string_of_uint_digits (_ d)). Qed.

Lemma nilzero_uint_nonempty d : NilZero.string_of_uint d <> EmptyString.
Proof. by destruct d. Qed.

(** The numeral of [z]: a minus sign if [z] is negative, then digits,
    at least one. *)
Lemma decimal_shape z :
  exists ds, ds <> EmptyString /\ forall_chars is_digit ds = true /\
    decimal z = if z <? 0 then String "-" ds else ds.
Proof.
  unfold decimal. destruct z as [|p|p]; simpl.
  - by exists "0"%string.
  - exists (NilZero.string_of_uint (Pos.to_uint p)).
    split_and!; [apply nilzero_uint_nonempty|apply nilzero_uint_digits|done].
  - exists (NilZero.string_of_uint (Pos.to_uint p)).
    split_and!; [apply nilzero_uint_nonempty|apply nilzero_uint_digits|done].
Qed.

Lemma decimal_chars z : forall_chars is_digit_or_minus (decimal z) = true.
Proof.
  destruct (decimal_shape z) as (ds & _ & Hds & ->).
  assert (forall_chars is_digit_or_minus ds = true).
  { eapply forall_chars_impl; [|exact Hds].
    unfold is_digit_or_minus. intros c ->. done. }
  destruct (z <? 0); [simpl|]; done.
Qed.

Lemma decimal_inj a b : decimal a = decimal b -> a = b.
Proof.
  unfold decimal. intros H. apply DecimalZ.to_int_inj.
  assert (Hnn : forall z, Z.to_int z <> Decimal.Pos Decimal.Nil
                          /\ Z.to_int z <> Decimal.Neg Decimal.Nil).
  { intros [|p|p]; simpl; split; try done; intros [= Hp];
      by apply DecimalPos.Unsigned.to_uint_nonnil in Hp. }
  assert (Some (Z.to_int a) = Some (Z.to_int b)) as [= ->]; [|done].
  rewrite <- (NilZero.isi (Z.to_int a)), <- (NilZero.isi (Z.to_int b));
    try apply Hnn.
  by rewrite H.
Qed.

Lemma decimal_nonneg_digits z :
  0 <= z -> forall_chars is_digit (decimal z) = true.
Proof.
  intros Hz. destruct (decimal_shape z) as (ds & _ & Hds & ->).
  destruct (Z.ltb_spec z 0); [lia|done].
Qed.

Lemma decimal_nonempty z : decimal z <> EmptyString.
Proof.
  destruct (decimal_shape z) as (ds & Hne & _ & ->).
  by destruct (z <? 0).
Qed.

(** A numeral followed by a minus sign ends at that sign. *)
Lemma decimal_then_minus y1 y2 r1 r2 :
  decimal y1 +:+ String "-" r1 = decimal y2 +:+ String "-" r2 ->
  y1 = y2 /\ r1 = r2.
Proof.
  intros Heq.
  destruct (decimal_shape y1) as (d1 & Hn1 & Hd1 & E1).
  destruct (decimal_shape y2) as (d2 & Hn2 & Hd2 & E2).
  assert (Hm : is_digit "-" = false) by done.
  assert (decimal y1 = decimal y2 /\ r1 = r2) as [? ?];
    [|split; [by apply decimal_inj|done]].
  rewrite E1, E2 in *.
  destruct (y1 <? 0), (y2 <? 0); rewrite ?append_cons in Heq.
  - injection Heq as Heq.
    destruct (split_at_char _ _ _ _ _ _ Hm Hd1 Hd2 Heq) as [-> ->]. done.
  - destruct d2 as [|c d2]; [done|]. rewrite append_cons in Heq.
    injection Heq as <- _. simpl in Hd2. done.
  - destruct d1 as [|c d1]; [done|]. rewrite append_cons in Heq.
    injection Heq as -> _. simpl in Hd1. done.
  - destruct (split_at_char _ _ _ _ _ _ Hm Hd1 Hd2 Heq) as [-> ->]. done.
Qed.

End StringFacts.


(* ===================================================================== *)
(** * Numbers: the shape of what the operations return *)
(* ===================================================================== *)

Section FloatFacts.

Lemma digits2_pos_bounds p :
  2 ^ (Zpos (digits2_pos p) - 1) <= Zpos p < 2 ^ Zpos (digits2_pos p).
Proof.
  induction p as [p IH|p IH|]; cbn [digits2_pos]; [| |simpl; lia];
    rewrite Pos2Z.inj_succ;
    replace (Z.succ (Zpos (digits2_pos p)) - 1) with (Z.succ (Zpos (digits2_pos p) - 1))
      by lia;
    rewrite !Z.pow_succ_r by lia;
    revert IH; generalize (2 ^ (Zpos (digits2_pos p) - 1)) (2 ^ Zpos (digits2_pos p));
    intros a b IH; [rewrite Pos2Z.inj_xI|rewrite Pos2Z.inj_xO]; lia.
Qed.

Lemma Zdigits2_bounds m :
  0 < m -> 2 ^ (Zdigits2 m - 1) <= m < 2 ^ Zdigits2 m.
Proof. destruct m as [|p|p]; [lia| |lia]. intros _. apply digits2_pos_bounds. Qed.

Lemma Zdigits2_nonneg m : 0 <= Zdigits2 m.
Proof. destruct m; simpl; lia. Qed.

(** The number of bits is the least [k] with [m < 2^k]. *)
Lemma Zdigits2_le m k : 0 <= m -> 0 <= k -> (Zdigits2 m <= k <-> m < 2 ^ k).
Proof.
  intros Hm Hk. destruct (Z.eq_dec m 0) as [->|Hne].
  { simpl. split; [intros _; apply Z.pow_pos_nonneg; lia|lia]. }
  pose proof (Zdigits2_bounds m ltac:(lia)) as [Hlo Hhi].
  pose proof (Zdigits2_nonneg m).
  split.
  - intros Hle. eapply Z.lt_le_trans; [exact Hhi|].
    apply Z.pow_le_mono_r; lia.
  - intros Hlt. destruct (Z.le_gt_cases (Zdigits2 m) k) as [|Hgt]; [done|].
    assert (2 ^ k <= 2 ^ (Zdigits2 m - 1)) by (apply Z.pow_le_mono_r; lia).
    lia.
Qed.

Lemma shr_1_m r : 0 <= shr_m r -> shr_m (shr_1 r) = shr_m r / 2.
Proof.
  destruct r as [m rb sb]. simpl. intros Hm.
  destruct m as [|[p|p|]|p]; simpl; try done; try lia.
  - rewrite Pos2Z.inj_xI. Z.div_mod_to_equations; lia.
  - rewrite Pos2Z.inj_xO. Z.div_mod_to_equations; lia.
Qed.

Lemma shr_1_nonneg r : 0 <= shr_m r -> 0 <= shr_m (shr_1 r).
Proof. intros H. rewrite shr_1_m by done. Z.div_mod_to_equations; lia. Qed.

Lemma pow2_xO p : 2 ^ Zpos p~0 = 2 ^ Zpos p * 2 ^ Zpos p.
Proof.
  change (Zpos p~0) with (2 * Zpos p).
  rewrite <- Z.add_diag. apply Z.pow_add_r; lia.
Qed.

Lemma pow2_xI p : 2 ^ Zpos p~1 = 2 * (2 ^ Zpos p * 2 ^ Zpos p).
Proof.
  change (Zpos p~1) with (Z.succ (Zpos p~0)).
  rewrite Z.pow_succ_r by lia. by rewrite pow2_xO.
Qed.

Lemma pow2_pos k : 0 < 2 ^ Zpos k.
Proof. apply Z.pow_pos_nonneg; lia. Qed.

Lemma iter_pos_shr_m p : forall r,
  0 <= shr_m r ->
  shr_m (SpecFloat.iter_pos shr_1 p r) = shr_m r / 2 ^ Zpos p
  /\ 0 <= shr_m (SpecFloat.iter_pos shr_1 p r).
Proof.
  induction p as [p IH|p IH|]; intros r Hr; cbn [SpecFloat.iter_pos].
  - pose proof (shr_1_nonneg r Hr) as H1.
    destruct (IH (shr_1 r) H1) as [E2 H2].
    destruct (IH _ H2) as [E3 H3].
    pose proof (pow2_pos p).
    split; [|done]. rewrite E3, E2, shr_1_m by done.
    rewrite !Z.div_div by lia. by rewrite pow2_xI, Z.mul_assoc.
  - destruct (IH r Hr) as [E2 H2]. destruct (IH _ H2) as [E3 H3].
    pose proof (pow2_pos p).
    split; [|done]. rewrite E3, E2.
    rewrite Z.div_div by lia. by rewrite pow2_xO.
  - split; [by rewrite shr_1_m|by apply shr_1_nonneg].
Qed.

(** After [shr_fexp] the mantissa has at most 53 bits. *)
Lemma shr_fexp_digits m e l :
  0 <= m ->
  let '(mrs, e') := shr_fexp prec emax m e l in
  0 <= shr_m mrs /\ Zdigits2 (shr_m mrs) <= prec.
Proof.
  intros Hm. unfold shr_fexp, shr.
  set (n := fexp prec emax (Zdigits2 m + e) - e).
  assert (Hn : Zdigits2 m - prec <= n).
  { unfold n, fexp. lia. }
  assert (Hr : shr_m (shr_record_of_loc m l) = m).
  { by destruct l as [|[]]. }
  destruct n as [|p|p] eqn:En.
  - rewrite Hr. split; [done|]. lia.
  - destruct (iter_pos_shr_m p (shr_record_of_loc m l)) as [E H0]; [by rewrite Hr|].
    split; [done|]. rewrite E, Hr.
    apply Zdigits2_le; [apply Z.div_pos; [done|apply Z.pow_pos_nonneg; lia]|done|].
    apply Z.div_lt_upper_bound; [apply Z.pow_pos_nonneg; lia|].
    rewrite <- Z.pow_add_r by (unfold prec; lia).
    apply Zdigits2_le; [done|unfold prec; lia|lia].
  - rewrite Hr. split; [done|]. lia.
Qed.

Lemma round_nearest_even_nonneg m l : 0 <= m -> 0 <= round_nearest_even m l.
Proof. destruct l as [|[]]; simpl; try done; try lia. destruct (Z.even m); lia. Qed.

(** What the rounding returns is a Number. *)
Lemma binary_round_aux_bounded s m e l :
  0 <= m -> bounded_number (binary_round_aux prec emax s m e l).
Proof.
  intros Hm. unfold binary_round_aux.
  pose proof (shr_fexp_digits m e l Hm) as H1.
  destruct (shr_fexp prec emax m e l) as [mrs' e'].
  destruct H1 as [H1 _].
  pose proof (shr_fexp_digits
                (round_nearest_even (shr_m mrs') (loc_of_shr_record mrs')) e'
                loc_Exact (round_nearest_even_nonneg _ _ H1)) as H2.
  destruct (shr_fexp prec emax _ e' loc_Exact) as [mrs'' e''].
  destruct H2 as [_ H2].
  destruct (shr_m mrs'') as [|p|p]; try done.
  destruct (Z.leb_spec e'' (emax - prec)); [|done].
  split; [exact H2|done].
Qed.

Lemma binary_round_bounded s m e : bounded_number (binary_round prec emax s m e).
Proof.
  unfold binary_round. destruct (shl_align _ _ _) as [mz ez].
  by apply binary_round_aux_bounded.
Qed.

Lemma of_Z_bounded n : bounded_number (of_Z n).
Proof. destruct n; [done|apply binary_round_bounded..]. Qed.

End FloatFacts.


Section FloatExact.

Lemma Zdigits2_unique m k :
  2 ^ (k - 1) <= m < 2 ^ k -> 1 <= k -> Zdigits2 m = k.
Proof.
  intros [Hlo Hhi] Hk.
  assert (0 < 2 ^ (k - 1)) by (apply Z.pow_pos_nonneg; lia).
  pose proof (Zdigits2_nonneg m).
  pose proof (proj2 (Zdigits2_le m k ltac:(lia) ltac:(lia)) Hhi).
  destruct (Z.eq_dec (Zdigits2 m) k) as [|Hne]; [done|].
  pose proof (proj1 (Zdigits2_le m (k - 1) ltac:(lia) ltac:(lia)) ltac:(lia)).
  lia.
Qed.

Lemma iter_xO_value k : forall m, Zpos (Pos.iter xO m k) = Zpos m * 2 ^ Zpos k.
Proof.
  induction k as [|k IH] using Pos.peano_ind; intros m.
  - simpl. lia.
  - rewrite Pos.iter_succ, Pos2Z.inj_succ, Z.pow_succ_r by lia.
    rewrite Pos2Z.inj_xO, IH. lia.
Qed.

(** Shifting out bits that are all zero is exact. *)
Lemma shr_1_exact m :
  0 <= m -> Z.modulo m 2 = 0 ->
  shr_1 {| shr_m := m; shr_r := false; shr_s := false |}
  = {| shr_m := m / 2; shr_r := false; shr_s := false |}.
Proof.
  intros Hm Hmod. destruct m as [|[p|p|]|p]; simpl; try done; try lia.
  - rewrite Pos2Z.inj_xI in Hmod. Z.div_mod_to_equations; lia.
  - f_equal. rewrite Pos2Z.inj_xO. Z.div_mod_to_equations; lia.
Qed.

Lemma iter_pos_shr_exact p : forall m,
  0 <= m -> Z.modulo m (2 ^ Zpos p) = 0 ->
  SpecFloat.iter_pos shr_1 p {| shr_m := m; shr_r := false; shr_s := false |}
  = {| shr_m := m / 2 ^ Zpos p; shr_r := false; shr_s := false |}.
Proof.
  induction p as [p IH|p IH|]; intros m Hm Hmod; cbn [SpecFloat.iter_pos].
  - pose proof (pow2_pos p) as Hp. rewrite pow2_xI in Hmod.
    assert (H2 : Z.modulo m 2 = 0).
    { apply Z.mod_divide; [lia|]. apply Z.mod_divide in Hmod; [|lia].
      destruct Hmod as [q ->]. exists (q * (2 ^ Zpos p * 2 ^ Zpos p)). lia. }
    rewrite shr_1_exact by done.
    assert (Hq : m = 2 * (2 ^ Zpos p * 2 ^ Zpos p) * (m / (2 * (2 ^ Zpos p * 2 ^ Zpos p)))).
    { apply Z.div_exact; [lia|done]. }
    set (q := m / (2 * (2 ^ Zpos p * 2 ^ Zpos p))) in *.
    assert (E1 : m / 2 = 2 ^ Zpos p * 2 ^ Zpos p * q).
    { rewrite Hq at 1. rewrite <- !Z.mul_assoc, Z.mul_comm, Z.div_mul by lia. lia. }
    rewrite IH; [|rewrite E1; nia|].
    2:{ rewrite E1. rewrite <- Z.mul_assoc, Z.mul_comm. apply Z.mod_mul. lia. }
    assert (E2 : m / 2 / 2 ^ Zpos p = 2 ^ Zpos p * q).
    { rewrite E1. rewrite <- Z.mul_assoc, Z.mul_comm, Z.div_mul by lia. lia. }
    rewrite IH; [|rewrite E2; nia|].
    2:{ rewrite E2. rewrite Z.mul_comm. apply Z.mod_mul. lia. }
    f_equal. rewrite E2, pow2_xI. fold q.
    rewrite Z.mul_comm, Z.div_mul by lia. done.
  - pose proof (pow2_pos p) as Hp. rewrite pow2_xO in Hmod.
    assert (Hq : m = 2 ^ Zpos p * 2 ^ Zpos p * (m / (2 ^ Zpos p * 2 ^ Zpos p))).
    { apply Z.div_exact; [nia|done]. }
    set (q := m / (2 ^ Zpos p * 2 ^ Zpos p)) in *.
    assert (E1 : m / 2 ^ Zpos p = 2 ^ Zpos p * q).
    { rewrite Hq at 1. rewrite <- Z.mul_assoc, Z.mul_comm, Z.div_mul by lia. lia. }
    rewrite IH; [|done|].
    2:{ rewrite Hq. rewrite <- Z.mul_assoc, Z.mul_comm. apply Z.mod_mul. lia. }
    rewrite IH; [|rewrite E1; nia|].
    2:{ rewrite E1, Z.mul_comm. apply Z.mod_mul. lia. }
    f_equal. rewrite E1, pow2_xO. fold q.
    rewrite Z.mul_comm, Z.div_mul by lia. done.
  - change (2 ^ 1) with 2 in *. by apply shr_1_exact.
Qed.

Lemma fexp_53 d : -1021 <= d -> fexp prec emax d = d - 53.
Proof. unfold fexp, SpecFloat.emin, prec, emax. lia. Qed.

(** A mantissa of exactly 53 bits with an exponent in range is returned
    as it is. *)
Lemma binary_round_aux_53 (M : positive) e :
  Zpos (digits2_pos M) = 53 -> -1074 <= e <= 971 ->
  binary_round_aux prec emax false (Zpos M) e loc_Exact = S754_finite false M e.
Proof.
  intros Hd He. unfold binary_round_aux.
  assert (Hs : shr_fexp prec emax (Zpos M) e loc_Exact
               = ({| shr_m := Zpos M; shr_r := false; shr_s := false |}, e)).
  { unfold shr_fexp. cbn [Zdigits2]. rewrite Hd.
    assert (fexp prec emax (53 + e) - e = 0) as ->.
    { unfold fexp, SpecFloat.emin, prec, emax. lia. }
    done. }
  rewrite Hs. cbn [shr_m loc_of_shr_record round_nearest_even]. rewrite Hs.
  cbn [shr_m]. destruct (Z.leb_spec e (emax - prec)); [done|].
  unfold emax, prec in *. lia.
Qed.

Lemma digits2_pos_ge1 M : 1 <= Zpos (digits2_pos M).
Proof. lia. Qed.

(** An integer that fits in 53 bits, or whose bits below the 53 leading
    ones are zero, is the value of the Number nearest to it. *)
Lemma of_Z_exact (M : positive) :
  let d := Zpos (digits2_pos M) in
  d <= 53 \/ (Z.modulo (Zpos M) (2 ^ (d - 53)) = 0 /\ d - 53 <= 971) ->
  integral_value (of_Z (Zpos M)) = Zpos M.
Proof.
  intros d Hcase. unfold of_Z. cbn [binary_normalize]. unfold binary_round.
  rewrite Z.add_0_r, fexp_53 by (fold d; lia). fold d.
  unfold shl_align. rewrite Z.sub_0_r.
  pose proof (digits2_pos_bounds M) as HM. fold d in HM.
  destruct (d - 53) as [|k|k] eqn:Ek.
  - rewrite binary_round_aux_53 by (fold d; lia). simpl. lia.
  - destruct Hcase as [?|[Hmod Hk]]; [lia|].
    unfold binary_round_aux.
    assert (Hs : shr_fexp prec emax (Zpos M) 0 loc_Exact
                 = ({| shr_m := Zpos M / 2 ^ Zpos k; shr_r := false; shr_s := false |},
                    Zpos k)).
    { unfold shr_fexp. cbn [Zdigits2]. fold d.
      rewrite Z.add_0_r, fexp_53, Z.sub_0_r, Ek by lia.
      cbn [shr shr_record_of_loc]. by rewrite iter_pos_shr_exact. }
    rewrite Hs. cbn [shr_m loc_of_shr_record round_nearest_even].
    pose proof (pow2_pos k) as Hp.
    assert (Hq : Zpos M = 2 ^ Zpos k * (Zpos M / 2 ^ Zpos k)).
    { apply Z.div_exact; [lia|done]. }
    destruct (Zpos M / 2 ^ Zpos k) as [|M'|M'] eqn:EM'; [lia| |lia].
    assert (Hd' : Zpos (digits2_pos M') = 53).
    { change (Zdigits2 (Zpos M') = 53). apply Zdigits2_unique; [|lia].
      replace d with (53 + Zpos k) in HM by lia.
      replace (53 + Zpos k - 1) with (52 + Zpos k) in HM by lia.
      rewrite !Z.pow_add_r in HM by lia. change (53 - 1) with 52. nia. }
    assert (Hs2 : shr_fexp prec emax (Zpos M') (Zpos k) loc_Exact
                  = ({| shr_m := Zpos M'; shr_r := false; shr_s := false |}, Zpos k)).
    { unfold shr_fexp. cbn [Zdigits2]. rewrite Hd'.
      assert (fexp prec emax (53 + Zpos k) - Zpos k = 0) as ->.
      { unfold fexp, SpecFloat.emin, prec, emax. lia. }
      done. }
    rewrite Hs2. cbn [shr_m].
    destruct (Z.leb_spec (Zpos k) (emax - prec)); [|unfold emax, prec in *; lia].
    cbn [integral_value]. cbn [Z.leb Z.compare cond_Zopp]. lia.
  - assert (Hd : Zpos (digits2_pos (Pos.iter xO M k)) = 53).
    { change (Zdigits2 (Zpos (Pos.iter xO M k)) = 53).
      rewrite iter_xO_value. pose proof (pow2_pos k).
      apply Zdigits2_unique; [|lia].
      assert (Hdk : d + Zpos k = 53) by lia.
      rewrite <- Hdk. replace (d + Zpos k - 1) with (d - 1 + Zpos k) by lia.
      pose proof (digits2_pos_ge1 M). fold d in H0.
      rewrite !Z.pow_add_r by lia. nia. }
    rewrite binary_round_aux_53; [|done|lia].
    cbn [integral_value]. cbn [Z.leb Z.compare cond_Zopp].
    rewrite iter_xO_value. cbn [Z.opp].
    rewrite Z.div_mul by (pose proof (pow2_pos k); lia). done.
Qed.

End FloatExact.


Section RoundFacts.

Lemma shr_fexp_exponent m e l : e <= snd (shr_fexp prec emax m e l).
Proof.
  unfold shr_fexp, shr. destruct (fexp prec emax _ - e); simpl; lia.
Qed.

(** The Number nearest to an integer has a negative exponent only when
    the integer has fewer than 53 bits, and then it is that integer. *)
Lemma of_Z_negative_exponent (M : positive) s m e :
  of_Z (Zpos M) = S754_finite s m e -> e < 0 ->
  s = false /\ Zpos m = Zpos M * 2 ^ (- e).
Proof.
  unfold of_Z. cbn [binary_normalize]. unfold binary_round.
  rewrite Z.add_0_r, fexp_53 by lia.
  unfold shl_align. rewrite Z.sub_0_r.
  pose proof (digits2_pos_bounds M) as HM.
  destruct (Zpos (digits2_pos M) - 53) as [|k|k] eqn:Ek.
  - rewrite binary_round_aux_53 by lia. intros [= <- <- <-]. lia.
  - unfold binary_round_aux.
    pose proof (shr_fexp_exponent (Zpos M) 0 loc_Exact) as H1.
    assert (Hk : snd (shr_fexp prec emax (Zpos M) 0 loc_Exact) = Zpos k).
    { unfold shr_fexp. cbn [Zdigits2]. rewrite Z.add_0_r, fexp_53, Z.sub_0_r, Ek by lia.
      done. }
    destruct (shr_fexp prec emax (Zpos M) 0 loc_Exact) as [mrs' e']. simpl in Hk.
    pose proof (shr_fexp_exponent
                  (round_nearest_even (shr_m mrs') (loc_of_shr_record mrs')) e'
                  loc_Exact) as H2.
    destruct (shr_fexp prec emax _ e' loc_Exact) as [mrs'' e'']. simpl in H2.
    destruct (shr_m mrs''); try done.
    destruct (e'' <=? emax - prec); [|done]. intros [= <- <- <-]. lia.
  - assert (Hd : Zpos (digits2_pos (Pos.iter xO M k)) = 53).
    { change (Zdigits2 (Zpos (Pos.iter xO M k)) = 53).
      rewrite iter_xO_value. pose proof (pow2_pos k).
      apply Zdigits2_unique; [|lia].
      assert (Hdk : Zpos (digits2_pos M) + Zpos k = 53) by lia.
      rewrite <- Hdk.
      replace (Zpos (digits2_pos M) + Zpos k - 1)
        with (Zpos (digits2_pos M) - 1 + Zpos k) by lia.
      rewrite !Z.pow_add_r by lia. nia. }
    rewrite binary_round_aux_53; [|done|lia].
    intros [= <- <- <-] _. split; [done|].
    rewrite iter_xO_value. f_equal.
Qed.

Lemma round_half_up_exact s (M : Z) k :
  0 < k -> (2 * cond_Zopp s (M * 2 ^ k) + 2 ^ k) / 2 ^ (1 + k) = cond_Zopp s M.
Proof.
  intros Hk. assert (Hp : 0 < 2 ^ k) by (apply Z.pow_pos_nonneg; lia).
  rewrite Z.pow_add_r by lia. change (2 ^ 1) with 2.
  replace (2 * cond_Zopp s (M * 2 ^ k) + 2 ^ k)
    with (2 ^ k * (2 * cond_Zopp s M + 1)) by (destruct s; simpl; lia).
  rewrite (Z.mul_comm 2 (2 ^ k)), Z.div_mul_cancel_l by lia.
  Z.div_mod_to_equations; lia.
Qed.

Lemma of_Z_sign_shape z s m e :
  of_Z z = S754_finite s m e -> s = (z <? 0).
Proof.
  destruct z as [|p|p]; [done| |]; unfold of_Z; cbn [binary_normalize];
    unfold binary_round; destruct (shl_align _ _ _) as [mz ez];
    unfold binary_round_aux;
    destruct (shr_fexp prec emax _ ez _) as [mrs' e'];
    destruct (shr_fexp prec emax _ e' loc_Exact) as [mrs'' e''];
    destruct (shr_m mrs''); try done;
    destruct (e'' <=? emax - prec); try done; by intros [= <- _ _].
Qed.

Lemma of_Z_neg_shape p s m e :
  of_Z (Zneg p) = S754_finite s m e <-> of_Z (Zpos p) = S754_finite (negb s) m e.
Proof.
  unfold of_Z; cbn [binary_normalize]; unfold binary_round.
  destruct (shl_align _ _ _) as [mz ez]. unfold binary_round_aux.
  destruct (shr_fexp prec emax _ ez _) as [mrs' e'].
  destruct (shr_fexp prec emax _ e' loc_Exact) as [mrs'' e''].
  destruct (shr_m mrs''); try done.
  destruct (e'' <=? emax - prec); try done.
  destruct s; split; intros [= <- <-]; done.
Qed.

(** Rounding a rounded Number changes nothing. *)
Lemma Math_round_of_Z z : z <> 0 -> Math_round (of_Z z) = of_Z z.
Proof.
  intros Hz. destruct (of_Z z) as [s|s| |s m e] eqn:E; try done.
  cbn [Math_round]. destruct (Z.leb_spec 0 e) as [|He]; [done|].
  assert (Hval : round_half_up_finite s m e = z).
  { unfold round_half_up_finite. destruct (Z.leb_spec 0 e); [lia|].
    destruct z as [|p|p]; [done| |].
    - apply of_Z_negative_exponent in E as [-> Hm]; [|done]. rewrite Hm.
      replace (1 - e) with (1 + - e) by lia.
      apply (round_half_up_exact false (Zpos p)); lia.
    - apply of_Z_neg_shape in E.
      apply of_Z_negative_exponent in E as [Hs Hm]; [|done].
      apply negb_false_iff in Hs as ->. rewrite Hm.
      replace (1 - e) with (1 + - e) by lia.
      apply (round_half_up_exact true (Zpos p)); lia. }
  rewrite Hval. destruct z; [done|by rewrite E..].
Qed.

Lemma Math_round_idempotent x : Math_round (Math_round x) = Math_round x.
Proof.
  destruct x as [s|s| |s m e]; try done. cbn [Math_round].
  destruct (Z.leb_spec 0 e) as [He|He].
  - cbn [Math_round]. by destruct (Z.leb_spec 0 e); [|lia].
  - destruct (round_half_up_finite s m e) eqn:E; [done|by apply Math_round_of_Z..].
Qed.

End RoundFacts.


(* ===================================================================== *)
(** * The key of the deduplication *)
(* ===================================================================== *)

Section KeyFacts.
Import JsString NumberToString.

Lemma shortest_represents fuel k x n sn :
  shortest fuel k x n = Some sn -> represents x sn = true.
Proof.
  revert k. induction fuel as [|fuel IH]; intros k; simpl; [done|].
  destruct (List.find _ _) as [sn'|] eqn:Hf.
  - intros [= <-]. by apply List.find_some in Hf as [_ ?].
  - apply IH.
Qed.

Lemma exponential_mantissa digits e :
  digits <> EmptyString ->
  exponential digits e = mantissa digits +:+ String "e" ("+" +:+ decimal e).
Proof. by destruct digits as [|d [|c rest]]. Qed.

Lemma mantissa_chars digits :
  forall_chars is_digit digits = true ->
  forall_chars is_digit_or_point (mantissa digits) = true.
Proof.
  intros Hd.
  assert (Hd' : forall_chars is_digit_or_point digits = true).
  { eapply forall_chars_impl; [|exact Hd].
    unfold is_digit_or_point. by intros c ->. }
  by destruct digits as [|d [|c rest]].
Qed.

Lemma mantissa_inj a b :
  forall_chars is_digit a = true -> forall_chars is_digit b = true ->
  mantissa a = mantissa b -> a = b.
Proof.
  destruct a as [|x [|x' a]], b as [|y [|y' b]]; simpl; intros _ _ Heq;
    rewrite ?append_cons, ?append_empty_l in Heq; by simplify_eq.
Qed.

Lemma exponential_inj d1 e1 d2 e2 :
  d1 <> EmptyString -> d2 <> EmptyString ->
  forall_chars is_digit d1 = true -> forall_chars is_digit d2 = true ->
  exponential d1 e1 = exponential d2 e2 -> d1 = d2 /\ e1 = e2.
Proof.
  intros Hn1 Hn2 Hd1 Hd2. rewrite !exponential_mantissa by done. intros Heq.
  apply (split_at_char is_digit_or_point) in Heq as [Hm He];
    [|done|by apply mantissa_chars..].
  split; [by apply mantissa_inj|].
  rewrite !append_cons, !append_empty_l in He. injection He as He.
  by apply decimal_inj.
Qed.

(** ** The value of a numeral *)

Lemma digits_value_acc_append a b : forall acc,
  digits_value_acc acc (a +:+ b) = digits_value_acc (digits_value_acc acc a) b.
Proof. induction a as [|c a IH]; intros acc; [done|]. rewrite append_cons. apply IH. Qed.

Lemma digits_value_acc_zeros j : forall acc,
  digits_value_acc acc (repeat_char "0" j) = acc * 10 ^ Z.of_nat j.
Proof.
  induction j as [|j IH]; intros acc.
  - simpl. lia.
  - cbn [repeat_char digits_value_acc]. rewrite IH.
    change (digit_value "0") with 0.
    rewrite Nat2Z.inj_succ, Z.pow_succ_r by lia. lia.
Qed.

Lemma digits_value_acc_uint d : forall a,
  digits_value_acc (Z.of_N (DecimalPos.Unsigned.of_lu a)) (NilEmpty.string_of_uint d)
  = Z.of_N (DecimalPos.Unsigned.of_lu (Decimal.revapp d a)).
Proof.
  induction d as [|d IH|d IH|d IH|d IH|d IH|d IH|d IH|d IH|d IH|d IH];
    intros a; [done|..];
    cbn [NilEmpty.string_of_uint digits_value_acc Decimal.revapp];
    rewrite <- IH; f_equal; cbn [DecimalPos.Unsigned.of_lu];
    unfold digit_value, code; simpl N_of_ascii; lia.
Qed.

Lemma digits_value_decimal z : 0 <= z -> digits_value (decimal z) = z.
Proof.
  intros Hz. unfold decimal, digits_value.
  destruct z as [|p|p]; [done| |lia].
  cbn [Z.to_int NilZero.string_of_int].
  assert (Hnn := DecimalPos.Unsigned.to_uint_nonnil p).
  assert (NilZero.string_of_uint (Pos.to_uint p)
          = NilEmpty.string_of_uint (Pos.to_uint p)) as ->.
  { by destruct (Pos.to_uint p). }
  etrans; [exact (digits_value_acc_uint (Pos.to_uint p) Decimal.Nil)|].
  fold (Decimal.rev (Pos.to_uint p)).
  by rewrite <- DecimalPos.Unsigned.of_uint_alt, DecimalPos.Unsigned.of_to.
Qed.

(** What [of_nonneg] prints for the integer value of a Number: a
    numeral whose value has that Number as the nearest one, or digits
    and an exponent that represent it. *)
Lemma of_nonneg_cases x :
  0 <= x -> is_integral_number x ->
  (forall_chars is_digit (of_nonneg x) = true
   /\ integral_value (of_Z (digits_value (of_nonneg x))) = x)
  \/ exists s n, represents x (s, n) = true
                 /\ of_nonneg x = exponential (decimal s) (n - 1).
Proof.
  intros Hx Hnum. unfold of_nonneg.
  destruct (shortest _ _ _ _) as [[s n]|] eqn:Hs.
  - apply shortest_represents in Hs.
    destruct (Z.leb_spec n 21); [left|right; eauto].
    simpl in Hs. rewrite !andb_true_iff in Hs. destruct Hs as [[Hs Hk] Hr].
    apply Z.ltb_lt in Hs. apply Z.leb_le in Hk. apply Z.eqb_eq in Hr.
    split.
    + rewrite forall_chars_append, decimal_nonneg_digits by lia.
      by rewrite repeat_char_forall.
    + unfold digits_value. rewrite digits_value_acc_append.
      fold (digits_value (decimal s)). rewrite digits_value_decimal by lia.
      rewrite digits_value_acc_zeros, Z2Nat.id by lia. done.
  - left. split; [by apply decimal_nonneg_digits|].
    by rewrite digits_value_decimal.
Qed.

Lemma represents_pos x s n : represents x (s, n) = true -> 0 < s.
Proof. simpl. rewrite !andb_true_iff. intros [[H _] _]. lia. Qed.

Lemma represents_fun x1 x2 sn :
  represents x1 sn = true -> represents x2 sn = true -> x1 = x2.
Proof.
  destruct sn as [s n]. simpl. rewrite !andb_true_iff.
  intros [_ H1] [_ H2]. lia.
Qed.

Lemma exponential_not_digits s n :
  0 < s -> forall_chars is_digit (exponential (decimal s) n) = false.
Proof.
  intros Hs. rewrite exponential_mantissa by apply decimal_nonempty.
  rewrite forall_chars_append. simpl. by rewrite andb_false_r.
Qed.

Lemma of_nonneg_inj x1 x2 :
  0 <= x1 -> 0 <= x2 -> is_integral_number x1 -> is_integral_number x2 ->
  of_nonneg x1 = of_nonneg x2 -> x1 = x2.
Proof.
  intros Hx1 Hx2 Hn1 Hn2 Heq.
  destruct (of_nonneg_cases x1 Hx1 Hn1) as [[Hd1 Hv1]|(s1 & n1 & Hr1 & E1)],
           (of_nonneg_cases x2 Hx2 Hn2) as [[Hd2 Hv2]|(s2 & n2 & Hr2 & E2)].
  - rewrite <- Hv1, <- Hv2. by rewrite Heq.
  - rewrite Heq, E2, exponential_not_digits in Hd1; [done|].
    by eapply represents_pos.
  - rewrite <- Heq, E1, exponential_not_digits in Hd2; [done|].
    by eapply represents_pos.
  - pose proof (represents_pos _ _ _ Hr1). pose proof (represents_pos _ _ _ Hr2).
    rewrite E1, E2 in Heq.
    apply exponential_inj in Heq as [Hs Hn];
      [|first [apply decimal_nonempty|apply decimal_nonneg_digits; lia]..].
    apply decimal_inj in Hs as ->. assert (n1 = n2) as -> by lia.
    by eapply represents_fun.
Qed.

Lemma Number_toString_inj x1 x2 :
  0 <= x1 -> 0 <= x2 -> is_integral_number x1 -> is_integral_number x2 ->
  Number_toString x1 = Number_toString x2 -> x1 = x2.
Proof.
  unfold Number_toString. intros Hx1 Hx2.
  destruct (Z.ltb_spec x1 0), (Z.ltb_spec x2 0); try lia.
  by apply of_nonneg_inj.
Qed.

Lemma padded_decimal_no_slash n z :
  forall_chars not_slash (padStart0 n (decimal z)) = true.
Proof.
  unfold padStart0. rewrite forall_chars_append.
  rewrite repeat_char_forall by done. simpl.
  eapply forall_chars_impl; [|apply decimal_chars].
  intros c. unfold is_digit_or_minus, not_slash, is_digit, code.
  destruct (Ascii.eqb_spec c "/") as [->|]; done.
Qed.

(** The date and the speed can be read back from the key. *)
Lemma dedup_key_inj e1 e2 :
  speed_is_number e1 -> speed_is_number e2 ->
  dedup_key e1 = dedup_key e2 <->
  formatDate (date e1) = formatDate (date e2)
  /\ windSpeedMph e1 = windSpeedMph e2.
Proof.
  intros [Hp1 Hn1] [Hp2 Hn2].
  split; [|unfold dedup_key; by intros [-> ->]].
  unfold dedup_key, formatDate. rewrite !append_assoc, !append_cons, !append_empty_l.
  intros Heq.
  apply (split_at_char not_slash) in Heq as [-> Heq];
    [|done|apply padded_decimal_no_slash..].
  apply (split_at_char not_slash) in Heq as [-> Heq];
    [|done|apply padded_decimal_no_slash..].
  apply decimal_then_minus in Heq as [-> Heq].
  by apply Number_toString_inj in Heq.
Qed.

End KeyFacts.


(* ===================================================================== *)
(** * Deduplication *)
(* ===================================================================== *)

Section DedupFacts.

Lemma dedup_key_pair e1 e2 :
  speed_is_number e1 -> speed_is_number e2 ->
  dedup_key e1 = dedup_key e2 <-> date_and_speed e1 = date_and_speed e2.
Proof.
  intros H1 H2. rewrite dedup_key_inj by done. unfold date_and_speed. split.
  - by intros [-> ->].
  - by intros [= -> ->].
Qed.

Lemma existsb_same e earlier :
  existsb (same_date_and_speed e) earlier = true <->
  date_and_speed e ∈ List.map date_and_speed earlier.
Proof.
  rewrite existsb_exists, list_elem_of_In, in_map_iff.
  unfold same_date_and_speed.
  split; intros (e' & H1 & H2); exists e'.
  - apply bool_decide_eq_true in H2. done.
  - split; [done|]. by apply bool_decide_eq_true.
Qed.

Lemma unique_from_spec seen earlier events :
  Forall speed_is_number earlier -> Forall speed_is_number events ->
  (forall e, speed_is_number e ->
             dedup_key e ∈ seen <->
             date_and_speed e ∈ List.map date_and_speed earlier) ->
  unique_from seen events = keep_first_occurrences earlier events.
Proof.
  intros Hearlier Hevents. revert seen earlier Hearlier.
  induction Hevents as [|e events He Hevents IH];
    intros seen earlier Hearlier Hseen; simpl; [done|].
  assert (Hearlier' : Forall speed_is_number (earlier ++ [e])).
  { apply Forall_app. split; [done|]. by constructor. }
  assert (Hnext : forall seen' : gset string,
            (forall k, k ∈ seen' <-> k = dedup_key e \/ k ∈ seen) ->
            forall e0, speed_is_number e0 ->
               dedup_key e0 ∈ seen' <->
               date_and_speed e0 ∈ List.map date_and_speed (earlier ++ [e])).
  { intros seen' Hs e0 He0. rewrite Hs, Hseen, List.map_app, elem_of_app by done.
    simpl. rewrite list_elem_of_singleton, dedup_key_pair by done. tauto. }
  case_bool_decide as Hin.
  - pose proof Hin as Hex. apply Hseen in Hex; [|done].
    apply existsb_same in Hex.
    rewrite Hex. apply IH, Hnext; [done|]. intros k. split; [tauto|].
    by intros [->|?].
  - destruct (existsb _ _) eqn:Hex.
    { apply existsb_same in Hex. apply Hseen in Hex; done. }
    f_equal. apply IH, Hnext; [done|]. intros k.
    rewrite elem_of_union, elem_of_singleton. tauto.
Qed.

Lemma keep_first_occurrences_facts earlier events :
  let kept := keep_first_occurrences earlier events in
  NoDup (List.map date_and_speed kept)
  /\ Forall (fun e => date_and_speed e ∉ List.map date_and_speed earlier) kept
  /\ Forall (fun e => date_and_speed e ∈
                        List.map date_and_speed (earlier ++ kept)) events.
Proof.
  revert earlier. induction events as [|e events IH]; intros earlier; simpl.
  - split_and!; constructor.
  - destruct (IH (earlier ++ [e])) as (Hnd & Hfresh & Hcov).
    assert (Hcov' : forall kept',
              Forall (fun e0 => date_and_speed e0 ∈
                 List.map date_and_speed ((earlier ++ [e]) ++ kept')) events ->
              (date_and_speed e ∈ List.map date_and_speed (earlier ++ kept')
               -> Forall (fun e0 => date_and_speed e0 ∈
                    List.map date_and_speed (earlier ++ kept')) events)).
    { intros kept' H He. eapply Forall_impl; [exact H|]. simpl. intros e0.
      rewrite !List.map_app, !elem_of_app. simpl.
      rewrite list_elem_of_singleton. intros [[?| ->]|?]; try tauto.
      rewrite List.map_app, elem_of_app in He. done. }
    destruct (existsb _ _) eqn:Hex; simpl.
    + apply existsb_same in Hex. split_and!.
      * done.
      * eapply Forall_impl; [exact Hfresh|]. simpl. intros e0.
        rewrite List.map_app, elem_of_app. tauto.
      * assert (He : date_and_speed e ∈ List.map date_and_speed
                       (earlier ++ keep_first_occurrences (earlier ++ [e]) events)).
        { rewrite List.map_app, elem_of_app. by left. }
        constructor; [done|]. by apply Hcov'.
    + assert (Hex' : date_and_speed e ∉ List.map date_and_speed earlier).
      { intros H. apply existsb_same in H. congruence. }
      split_and!.
      * constructor; [|done]. intros Hin.
        apply list_elem_of_In, in_map_iff in Hin as (e0 & Heq & Hin).
        rewrite Forall_forall in Hfresh.
        apply list_elem_of_In, Hfresh in Hin. apply Hin.
        rewrite List.map_app, elem_of_app, Heq. right. simpl. by left.
      * constructor; [done|].
        eapply Forall_impl; [exact Hfresh|]. simpl. intros e0.
        rewrite List.map_app, elem_of_app. tauto.
      * assert (He : date_and_speed e ∈ List.map date_and_speed
            (earlier ++ e :: keep_first_occurrences (earlier ++ [e]) events)).
        { rewrite List.map_app, elem_of_app. right. simpl. by left. }
        constructor; [done|].
        eapply Forall_impl; [exact Hcov|]. simpl. intros e0.
        rewrite !List.map_app, !elem_of_app. simpl.
        rewrite list_elem_of_singleton, elem_of_cons. tauto.
Qed.

End DedupFacts.

(** C6.  The deduplication keeps, of the events that share a formatted
    date and a wind speed, the first in the order of its input, and no
    other; event type, coordinates and source row play no part.  So the
    pairs of the kept events are all different, every event of the input
    has its pair among them, and the kept events stay in their order.  The
    wind speeds are Numbers that are not negative, as those of the events
    of [getWindEventsForYear] are. *)
Theorem C6_dedup_by_date_and_speed (events : list StormEvent) :
  Forall speed_is_number events ->
  uniqueEvents events = keep_first_occurrences [] events
  /\ NoDup (List.map date_and_speed (uniqueEvents events))
  /\ Forall (fun e => date_and_speed e ∈
                        List.map date_and_speed (uniqueEvents events)) events
  /\ uniqueEvents events `sublist_of` events.
Proof.
  intros Hvalid.
  assert (Heq : uniqueEvents events = keep_first_occurrences [] events).
  { apply unique_from_spec; [constructor|done|]. intros e _. simpl.
    split; [by intros ?%elem_of_empty|by intros ?%elem_of_nil]. }
  destruct (keep_first_occurrences_facts [] events) as (Hnd & _ & Hcov).
  rewrite Heq. split_and!; try done.
  rewrite <- Heq. apply unique_from_sublist.
Qed.


(* ===================================================================== *)
(** * The dataset directory resolver *)
(* ===================================================================== *)

Section ResolverFacts.
Import JsString Regex.

Lemma length_append a b :
  String.length (a +:+ b) = (String.length a + String.length b)%nat.
Proof. induction a as [|c a IH]; [done|]. rewrite append_cons. simpl. by rewrite IH. Qed.

Lemma strip_prefix_Some p s r : strip_prefix p s = Some r <-> s = p +:+ r.
Proof.
  revert s. induction p as [|a p IH]; intros s; simpl.
  - rewrite append_empty_l. split; [by intros [= ->]|by intros ->].
  - destruct s as [|b s]; [done|]. rewrite append_cons.
    destruct (Ascii.eqb_spec a b) as [->|Hne].
    + rewrite IH. split; [by intros ->|by intros [= ->]].
    + split; [done|]. by intros [= ? ?].
Qed.

#[local] Arguments strip_prefix : simpl never.
#[local] Arguments digits_between : simpl never.

Lemma span_upto_sound p max s a b :
  span_upto p max s = (a, b) ->
  s = a +:+ b /\ forall_chars p a = true /\ (String.length a <= max)%nat.
Proof.
  revert s a b. induction max as [|max IH]; intros s a b; simpl.
  - destruct s; intros [= <- <-]; (split_and!; [done|done|simpl; lia]).
  - destruct s as [|c s]; [intros [= <- <-]; (split_and!; [done|done|simpl; lia])|].
    destruct (p c) eqn:Hc; [|intros [= <- <-]; (split_and!; [done|done|simpl; lia])].
    destruct (span_upto p max s) as [a' b'] eqn:Hs. intros [= <- <-].
    destruct (IH _ _ _ Hs) as (-> & Ha & Hl).
    split_and!; [done|simpl; by rewrite Hc|simpl; lia].
Qed.

Lemma span_upto_exact p ds rest :
  forall_chars p ds = true ->
  span_upto p (String.length ds) (ds +:+ rest) = (ds, rest).
Proof.
  induction ds as [|c ds IH]; simpl.
  - by destruct rest.
  - intros [Hc Hds]%andb_true_iff. rewrite append_cons, Hc, IH; done.
Qed.

Lemma digits_between_exact_sound n s ds rest :
  digits_between n n s = Some (ds, rest) ->
  s = ds +:+ rest /\ digit_string n ds.
Proof.
  unfold digits_between. destruct (span_upto _ _ _) as [a b] eqn:Hs.
  apply span_upto_sound in Hs as (-> & Ha & Hl).
  destruct (Nat.leb_spec n (String.length a)); [|done].
  intros [= <- <-]. split; [done|]. split; [lia|done].
Qed.

Lemma digits_between_exact n ds rest :
  digit_string n ds -> digits_between n n (ds +:+ rest) = Some (ds, rest).
Proof.
  intros [<- Hd]. unfold digits_between. rewrite span_upto_exact by done.
  by rewrite Nat.leb_refl.
Qed.

Lemma stormMatch_sound s match0 g1 g2 :
  stormMatch s = Some (match0, g1, g2) ->
  match0 = storm_filename g1 g2 /\ digit_string 4 g1 /\ digit_string 8 g2
  /\ exists rest, s = match0 +:+ rest.
Proof.
  unfold stormMatch. intros H.
  apply bind_Some in H as (s1 & H1 & H).
  apply bind_Some in H as ([y s2] & H2 & H). cbv beta iota in H.
  apply bind_Some in H as (s3 & H3 & H).
  apply bind_Some in H as ([c s4] & H4 & H). cbv beta iota in H.
  apply bind_Some in H as (s5 & H5 & H).
  injection H as <- <- <-.
  apply strip_prefix_Some in H1, H3, H5.
  apply digits_between_exact_sound in H2 as [? ?], H4 as [? ?]. subst.
  split_and!; try done. exists s5.
  unfold storm_filename. by rewrite !append_assoc.
Qed.

Lemma strip_prefix_append p r : strip_prefix p (p +:+ r) = Some r.
Proof. by apply strip_prefix_Some. Qed.

Lemma stormMatch_complete y c rest :
  digit_string 4 y -> digit_string 8 c ->
  stormMatch (storm_filename y c +:+ rest) = Some (storm_filename y c, y, c).
Proof.
  intros Hy Hc. unfold stormMatch, storm_filename.
  rewrite !append_assoc.
  rewrite strip_prefix_append. cbn [mbind option_bind].
  rewrite digits_between_exact by done. cbn [mbind option_bind].
  rewrite strip_prefix_append. cbn [mbind option_bind].
  rewrite digits_between_exact by done. cbn [mbind option_bind].
  by rewrite strip_prefix_append.
Qed.

Lemma digit_not_capital_S s :
  forall_chars is_digit s = true -> forall_chars not_capital_S s = true.
Proof.
  apply forall_chars_impl. intros c.
  destruct (Ascii.eqb_spec c "S") as [->|Hne]; [done|].
  unfold not_capital_S. by destruct (Ascii.eqb_spec c "S").
Qed.

(** A file name of the pattern has no capital S after its first
    character: two occurrences never overlap. *)
Lemma storm_filename_tail y c :
  digit_string 4 y -> digit_string 8 c ->
  exists tail, storm_filename y c = String "S" tail
               /\ forall_chars not_capital_S tail = true.
Proof.
  intros [_ Hy] [_ Hc].
  exists ("tormEvents_details-ftp_v1.0_d" +:+ y +:+ "_c" +:+ c +:+ storm_suffix).
  split; [reflexivity|].
  rewrite !forall_chars_append.
  by rewrite (digit_not_capital_S y Hy), (digit_not_capital_S c Hc).
Qed.

Lemma free_of_S_upto_append tail rest :
  forall_chars not_capital_S tail = true ->
  free_of_S_upto (String.length tail) (tail +:+ rest) = true.
Proof.
  induction tail as [|c tail IH]; simpl; [done|].
  intros [Hc ?]%andb_true_iff. rewrite ?append_cons. simpl. rewrite Hc. auto.
Qed.

Lemma stormMatches_from_complete s : forall skip before y c after,
  free_of_S_upto skip s = true ->
  digit_string 4 y -> digit_string 8 c ->
  s = before +:+ storm_filename y c +:+ after ->
  (storm_filename y c, y, c) ∈ stormMatches_from skip s.
Proof.
  induction s as [|a s IH]; intros skip before y c after Hfree Hy Hc Hs.
  - destruct (storm_filename_tail y c Hy Hc) as (tail & E & _).
    rewrite E in Hs. by destruct before.
  - destruct skip as [|skip]; simpl.
    + destruct before as [|b before].
      * rewrite append_empty_l in Hs. rewrite Hs.
        rewrite stormMatch_complete by done. by left.
      * rewrite append_cons in Hs. injection Hs as -> Hs.
        destruct (stormMatch (String b s)) as [[[m0 g1] g2]|] eqn:Hm.
        -- right. apply stormMatch_sound in Hm as (-> & Hg1 & Hg2 & rest & Hr).
           destruct (storm_filename_tail g1 g2 Hg1 Hg2) as (tail & E & Ht).
           rewrite E in Hr |- *. rewrite append_cons in Hr. injection Hr as _ ->.
           eapply IH; [|done..]. simpl. rewrite Nat.sub_0_r.
           by apply free_of_S_upto_append.
        -- by eapply IH.
    + simpl in Hfree. apply andb_true_iff in Hfree as [Ha Hfree].
      destruct before as [|b before].
      * rewrite append_empty_l in Hs.
        destruct (storm_filename_tail y c Hy Hc) as (tail & E & _).
        rewrite E, append_cons in Hs. injection Hs as -> _. done.
      * rewrite append_cons in Hs. injection Hs as <- Hs. by eapply IH.
Qed.

Lemma occurs_in_cons token a s : occurs_in token s -> occurs_in token (String a s).
Proof. intros (b & r & ->). by exists (String a b), r. Qed.

Lemma stormMatches_from_sound s : forall skip match0 g1 g2,
  (match0, g1, g2) ∈ stormMatches_from skip s ->
  match0 = storm_filename g1 g2 /\ digit_string 4 g1 /\ digit_string 8 g2
  /\ occurs_in match0 s.
Proof.
  induction s as [|a s IH]; intros skip match0 g1 g2.
  - destruct skip; simpl; [|by intros ?%elem_of_nil].
    destruct (stormMatch "") as [[[m0 y] c]|] eqn:Hm; [|by intros ?%elem_of_nil].
    apply stormMatch_sound in Hm as (-> & Hy & Hc & rest & Hr).
    destruct (storm_filename_tail y c Hy Hc) as (tail & E & _).
    by rewrite E in Hr.
  - destruct skip as [|skip]; simpl.
    + destruct (stormMatch (String a s)) as [[[m0 y] c]|] eqn:Hm.
      * intros [[= -> -> ->]|Hin]%elem_of_cons.
        -- apply stormMatch_sound in Hm as (-> & Hy & Hc & rest & Hr).
           split_and!; try done. by exists "", rest.
        -- apply IH in Hin as (? & ? & ? & ?).
           split_and!; try done. by apply occurs_in_cons.
      * intros Hin. apply IH in Hin as (? & ? & ? & ?).
        split_and!; try done. by apply occurs_in_cons.
    + intros Hin. apply IH in Hin as (? & ? & ? & ?).
      split_and!; try done. by apply occurs_in_cons.
Qed.

(** The loop finds the file names of the pattern that occur in the
    listing, and nothing else. *)
Lemma stormMatches_spec html match0 g1 g2 :
  (match0, g1, g2) ∈ stormMatches html <->
  match0 = storm_filename g1 g2 /\ digit_string 4 g1 /\ digit_string 8 g2
  /\ occurs_in match0 html.
Proof.
  split; [apply stormMatches_from_sound|].
  intros (-> & Hy & Hc & before & after & ->).
  by eapply stormMatches_from_complete.
Qed.

Lemma year_matches_spec html year m :
  m ∈ year_matches html year <->
  exists y, filename m = storm_filename y (created m)
            /\ digit_string 4 y /\ digit_string 8 (created m)
            /\ digits_value y = year
            /\ occurs_in (filename m) html.
Proof.
  unfold year_matches. rewrite list_elem_of_omap. split.
  - intros ([[m0 g1] g2] & Hin & Hm).
    destruct (Z.eqb_spec (digits_value g1) year); [|done].
    injection Hm as <-. simpl.
    apply stormMatches_spec in Hin as (? & ? & ? & ?). by exists g1.
  - intros (y & Hf & Hy & Hc & Hv & Ho).
    exists (filename m, y, created m). split.
    + apply stormMatches_spec. done.
    + rewrite Hv, Z.eqb_refl. by destruct m.
Qed.

End ResolverFacts.


Section LatestFacts.
Import JsString Regex.

Lemma localeCompare_leb a b : localeCompare a b <= 0 <-> String.leb a b = true.
Proof.
  unfold localeCompare, String.leb. destruct (String.compare a b); split; (done || lia).
Qed.

Lemma leb_trans a b c :
  String.leb a b = true -> String.leb b c = true -> String.leb a c = true.
Proof.
  intros H1 H2. apply Is_true_true.
  change (String.le a c). transitivity b; apply Is_true_true; done.
Qed.

Lemma leb_total a b : String.leb a b = false -> String.leb b a = true.
Proof. destruct (String.leb_total a b) as [->| ->]; done. Qed.

(** The first element after the sort has the greatest [created]. *)
Lemma sort_by_created_head matches :
  matches <> [] ->
  exists first rest,
    Array_sort (fun a b => localeCompare (created b) (created a)) matches
      = first :: rest
    /\ first ∈ matches
    /\ forall m, m ∈ matches -> String.leb (created m) (created first) = true.
Proof.
  intros Hne.
  set (cmp := fun a b : FileMatch => localeCompare (created b) (created a)).
  pose proof (Array_sort_perm cmp matches) as Hperm.
  assert (Hs : StronglySorted (fun a b => cmp a b <= 0) (Array_sort cmp matches)).
  { apply Array_sort_sorted; unfold cmp.
    - intros a b Hab. apply localeCompare_leb, leb_total.
      destruct (String.leb (created b) (created a)) eqn:E; [|done].
      by apply localeCompare_leb in E.
    - intros a b c. rewrite !localeCompare_leb. eauto using leb_trans. }
  destruct (Array_sort cmp matches) as [|first rest] eqn:E.
  { apply Permutation_nil_l in Hperm. congruence. }
  exists first, rest. split; [done|]. split.
  - rewrite <- Hperm. by left.
  - intros m Hm. rewrite <- Hperm in Hm.
    apply StronglySorted_cons in Hs as [Hall _].
    apply elem_of_cons in Hm as [->|Hm].
    + destruct (String.leb_total (created first) (created first)); done.
    + rewrite Forall_forall in Hall. apply Hall in Hm.
      unfold cmp in Hm. by apply localeCompare_leb.
Qed.

End LatestFacts.

(** C9.  For every listing and every year, the resolver answers with a
    file name of the fixed pattern (four digits of year, eight digits of
    creation suffix) that occurs in the listing, whose year is the one
    asked for and whose creation suffix is the greatest in the order of
    strings among the file names of the pattern in the listing for that
    year; when the listing has none for that year, it answers [null]. *)
Theorem C9_latest_filename (html : string) (year : Z) :
  match latestStormFilename html year with
  | None => forall created, ~ listed html year created
  | Some name =>
      exists y created,
        name = Regex.storm_filename y created
        /\ digit_string 4 y /\ digit_string 8 created
        /\ JsString.digits_value y = year
        /\ occurs_in name html
        /\ forall created',
             listed html year created' -> String.leb created' created = true
  end.
Proof.
  unfold latestStormFilename.
  destruct (year_matches html year) as [|m0 l] eqn:E.
  - intros created (y & Hy & Hc & Hv & Ho).
    assert (Hin : {| filename := Regex.storm_filename y created; created := created |}
                  ∈ year_matches html year).
    { apply year_matches_spec. by exists y. }
    rewrite E in Hin. by apply elem_of_nil in Hin.
  - destruct (sort_by_created_head (m0 :: l)) as (first & rest & -> & Hin & Hmax);
      [done|].
    rewrite <- E in Hin, Hmax.
    apply year_matches_spec in Hin as (y & Hf & Hy & Hc & Hv & Ho).
    exists y, (created first). split_and!; try done.
    intros created' (y' & Hy' & Hc' & Hv' & Ho').
    apply (Hmax {| filename := Regex.storm_filename y' created'; created := created' |}).
    apply year_matches_spec. by exists y'.
Qed.


(* ===================================================================== *)
(** * County matching *)
(* ===================================================================== *)

Section CountyFacts.
Import JsString Regex.

Lemma prefix_spec p s : String.prefix p s = true <-> exists r, s = p +:+ r.
Proof.
  revert s. induction p as [|a p IH]; intros s.
  - destruct s; simpl; split; eauto.
  - destruct s as [|b s]; simpl.
    + split; [done|]. by intros (r & ?).
    + destruct (ascii_dec a b) as [->|Hne].
      * rewrite IH. split; intros (r & Hr); exists r.
        -- by rewrite Hr.
        -- rewrite append_cons in Hr. by injection Hr.
      * split; [done|]. intros (r & Hr). rewrite append_cons in Hr.
        injection Hr as ? ?. congruence.
Qed.

Lemma includes_spec hay needle :
  includes hay needle = true <-> occurs_in needle hay.
Proof.
  induction hay as [|c hay IH].
  - change (includes "" needle) with (String.prefix needle "" || false).
    rewrite orb_true_iff, prefix_spec. split.
    + intros [(r & Hr)|?]; [|done]. by exists "", r.
    + intros (b & r & Hr). left. destruct b; [|done].
      rewrite append_empty_l in Hr. by exists r.
  - change (includes (String c hay) needle)
      with (String.prefix needle (String c hay) || includes hay needle).
    rewrite orb_true_iff, prefix_spec, IH. split.
    + intros [(r & Hr)|(b & r & Hr)].
      * by exists "", r.
      * exists (String c b), r. by rewrite Hr.
    + intros (b & r & Hr). destruct b as [|x b].
      * left. by exists r.
      * right. rewrite append_cons in Hr. injection Hr as _ ->. by exists b, r.
Qed.

Lemma trimStart_chars p s :
  forall_chars p s = true -> forall_chars p (trimStart s) = true.
Proof.
  induction s as [|c s IH]; simpl; [done|].
  intros [Hc Hs]%andb_true_iff. destruct (is_space c); [auto|].
  simpl. by rewrite Hc, Hs.
Qed.

Lemma trimEnd_chars p s :
  forall_chars p s = true -> forall_chars p (trimEnd s) = true.
Proof.
  induction s as [|c s IH]; [done|].
  intros [Hc Hs]%andb_true_iff. cbn [trimEnd].
  destruct (all_space _); [done|]. simpl. by rewrite Hc, IH.
Qed.

Lemma collapse_spaces_chars in_run s :
  forall_chars space_is_blank (collapse_spaces_from in_run s) = true.
Proof.
  revert in_run. induction s as [|c s IH]; intros in_run; simpl; [done|].
  destruct (is_space c) eqn:Hc.
  - destruct in_run; simpl; by rewrite ?IH.
  - simpl. unfold space_is_blank at 1. by rewrite Hc, IH.
Qed.

Lemma trim_starts_clean s : starts_clean (trim s).
Proof.
  unfold trim.
  assert (H : starts_clean (trimStart s)).
  { induction s as [|c s IH]; simpl; [done|].
    destruct (is_space c) eqn:Hc; [done|]. by simpl. }
  destruct (trimStart s) as [|c s']; [done|]. simpl in H.
  cbn [trimEnd all_space]. rewrite H. by simpl.
Qed.

Lemma normalizeName_shape v :
  forall_chars space_is_blank (normalizeName v) = true
  /\ starts_clean (normalizeName v).
Proof.
  unfold normalizeName. destruct (truthy_string v); simpl; [|done].
  split; [|apply trim_starts_clean].
  apply trimEnd_chars, trimStart_chars, collapse_spaces_chars.
Qed.

Lemma take_word_split s :
  forall_chars space_is_blank s = true -> take_word s = split_space_first s.
Proof.
  induction s as [|c s IH]; simpl; [done|].
  intros [Hc Hs]%andb_true_iff. rewrite IH by done.
  unfold space_is_blank in Hc.
  destruct (Ascii.eqb_spec c " ") as [->|Hne]; [done|].
  rewrite orb_false_r in Hc. by destruct (is_space c).
Qed.

Lemma first_word_normalized v :
  first_word (normalizeName v) = split_space_first (normalizeName v).
Proof.
  destruct (normalizeName_shape v) as [Hc Hs]. unfold first_word.
  assert (trimStart (normalizeName v) = normalizeName v) as ->.
  { destruct (normalizeName v) as [|c s]; [done|]. simpl in *. by rewrite Hs. }
  by apply take_word_split.
Qed.

End CountyFacts.

(** The test of the source on two normalized names. *)
Lemma countyMatches_spec (recordCounty targetCounty : option string) :
  countyMatches (normalizeName recordCounty) (normalizeName targetCounty) = true
  <-> (normalizeName recordCounty = normalizeName targetCounty
       \/ occurs_in (normalizeName targetCounty) (normalizeName recordCounty)
       \/ occurs_in (normalizeName recordCounty) (normalizeName targetCounty)
       \/ first_word (normalizeName recordCounty)
          = first_word (normalizeName targetCounty)).
Proof.
  unfold countyMatches.
  rewrite !orb_true_iff, !String.eqb_eq, !includes_spec, !first_word_normalized.
  tauto.
Qed.


(* ===================================================================== *)
(** * Dates of the form DD-MON-YY *)
(* ===================================================================== *)

Section DashDateFacts.
Import JsString Regex.

Lemma span_upto_stop p max ds rest :
  forall_chars p ds = true -> (String.length ds <= max)%nat ->
  match rest with EmptyString => True | String c _ => p c = false end ->
  span_upto p max (ds +:+ rest) = (ds, rest).
Proof.
  revert max. induction ds as [|c ds IH]; intros max Hd Hl Hr.
  - rewrite append_empty_l. destruct max, rest; simpl; try done. by rewrite Hr.
  - simpl in Hd, Hl. apply andb_true_iff in Hd as [Hc Hd].
    destruct max as [|max]; [lia|].
    rewrite append_cons. simpl. rewrite Hc, IH; [done|done|lia|done].
Qed.

Lemma digits_between_stop lo hi ds rest :
  forall_chars is_digit ds = true ->
  (lo <= String.length ds <= hi)%nat -> no_digit_ahead rest ->
  digits_between lo hi (ds +:+ rest) = Some (ds, rest).
Proof.
  intros Hd [Hlo Hhi] Hr. unfold digits_between.
  rewrite span_upto_stop; [|done|done|by destruct rest].
  by apply Nat.leb_le in Hlo as ->.
Qed.

Lemma upper_char_letter c :
  is_upper_az (upper_char c) = true -> is_letter c = true.
Proof. by destruct c as [[] [] [] [] [] [] [] []]. Qed.

Lemma months_keys :
  map_Forall (fun (k : string) (m : Z) =>
                String.length k = 3%nat /\ forall_chars is_upper_az k = true
                /\ 0 <= m <= 11) months.
Proof.
  apply map_Forall_to_list. unfold months. by vm_compute; repeat constructor.
Qed.

Lemma toUpperCase_length s : String.length (toUpperCase s) = String.length s.
Proof. induction s; simpl; congruence. Qed.

Lemma month_abbreviation mon month :
  months !! toUpperCase mon = Some month ->
  0 <= month <= 11
  /\ forall rest, letters3 (mon +:+ rest) = Some (mon, rest).
Proof.
  intros Hm. apply months_keys in Hm as (Hl & Hu & Hr). split; [done|].
  rewrite toUpperCase_length in Hl.
  destruct mon as [|a [|b [|c [|? ?]]]]; try done.
  simpl in Hu. rewrite !andb_true_iff in Hu. destruct Hu as (Ha & Hb & Hc & _).
  intros rest. simpl.
  by rewrite (upper_char_letter a), (upper_char_letter b), (upper_char_letter c).
Qed.

Lemma trimEnd_append x rest :
  forall_chars (fun c => negb (is_space c)) x = true ->
  trimEnd (x +:+ rest) = x +:+ trimEnd rest.
Proof.
  induction x as [|c x IH]; [done|]. simpl.
  intros [Hc Hx]%andb_true_iff. rewrite append_cons. cbn [trimEnd all_space].
  apply negb_true_iff in Hc. rewrite Hc. simpl. by rewrite IH.
Qed.

Lemma trimEnd_no_digit_ahead rest :
  no_digit_ahead rest -> no_digit_ahead (trimEnd rest).
Proof. destruct rest as [|c rest]; [done|]. cbn [trimEnd]. by destruct (all_space _). Qed.

Lemma digit_not_space c : is_digit c = true -> is_space c = false.
Proof. by destruct c as [[] [] [] [] [] [] [] []]. Qed.

Lemma letter_not_space c : is_letter c = true -> is_space c = false.
Proof. by destruct c as [[] [] [] [] [] [] [] []]. Qed.

Lemma two_digits_value yy :
  digit_string 2 yy -> 0 <= digits_value yy <= 99.
Proof.
  intros [Hl Hd]. destruct yy as [|a [|b [|? ?]]]; try done.
  simpl in Hd. rewrite !andb_true_iff in Hd. destruct Hd as (Ha & Hb & _).
  unfold digits_value, digits_value_acc, digit_value.
  unfold is_digit in *. lia.
Qed.

Lemma digits_value_nonneg_acc s : forall acc,
  forall_chars is_digit s = true -> 0 <= acc -> 0 <= digits_value_acc acc s.
Proof.
  induction s as [|c s IH]; intros acc; simpl; [done|].
  intros [Hc Hs]%andb_true_iff Hacc. apply IH; [done|].
  unfold is_digit, digit_value in *. lia.
Qed.

(** ** The calendar *)

Lemma DayFromYear_estimate z :
  146097 * (z - 1970) - 600 <= 400 * DayFromYear z <= 146097 * (z - 1970) + 600.
Proof. unfold DayFromYear. Z.div_mod_to_equations; lia. Qed.

Lemma DayFromYear_next z : DayFromYear (z + 1) = DayFromYear z + DaysInYear z.
Proof.
  unfold DayFromYear, DaysInYear.
  replace (z + 1 - 1969) with (z - 1969 + 1) by lia.
  replace (z + 1 - 1901) with (z - 1901 + 1) by lia.
  replace (z + 1 - 1601) with (z - 1601 + 1) by lia.
  destruct (Z.eqb_spec (Z.modulo z 4) 0), (Z.eqb_spec (Z.modulo z 100) 0),
    (Z.eqb_spec (Z.modulo z 400) 0);
    simpl; Z.div_mod_to_equations; lia.
Qed.

Lemma DaysInYear_leap z : DaysInYear z = 365 + leap_day z /\ 0 <= leap_day z <= 1.
Proof. unfold leap_day, DaysInYear. destruct (_ && _); simpl; lia. Qed.

(** [YearFromDay] is the year of the day, as ECMAScript defines it. *)
Lemma YearFromDay_spec y D :
  DayFromYear y <= D < DayFromYear (y + 1) -> YearFromDay D = y.
Proof.
  intros HD. unfold YearFromDay.
  set (y0 := 1970 + 400 * D / 146097).
  pose proof (DayFromYear_estimate y) as E1.
  pose proof (DayFromYear_estimate (y + 1)) as E2.
  assert (Hy0 : y - 1 <= y0 <= y + 1).
  { unfold y0. Z.div_mod_to_equations; lia. }
  pose proof (DayFromYear_next (y - 1)) as N0.
  pose proof (DayFromYear_next y) as N1.
  pose proof (DayFromYear_next (y + 1)) as N2.
  pose proof (DaysInYear_leap (y - 1)).
  pose proof (DaysInYear_leap y).
  pose proof (DaysInYear_leap (y + 1)).
  replace (y - 1 + 1) with y in N0 by lia.
  assert (y0 = y - 1 \/ y0 = y \/ y0 = y + 1) as [->|[->| ->]] by lia.
  - replace (y - 1 + 1) with y by lia.
    destruct (Z.leb_spec (DayFromYear y) D); lia.
  - destruct (Z.leb_spec (DayFromYear (y + 1)) D); [lia|].
    destruct (Z.ltb_spec D (DayFromYear y)); lia.
  - destruct (Z.leb_spec (DayFromYear (y + 1 + 1)) D); [lia|].
    destruct (Z.ltb_spec D (DayFromYear (y + 1))); lia.
Qed.

Lemma YearFromDay_bounds D :
  DayFromYear (YearFromDay D) <= D < DayFromYear (YearFromDay D + 1).
Proof.
  unfold YearFromDay. set (y0 := 1970 + 400 * D / 146097).
  pose proof (DayFromYear_estimate (y0 - 1)) as E0.
  pose proof (DayFromYear_estimate (y0 + 1 + 1)) as E2.
  assert (Hq : 146097 * (y0 - 1970) <= 400 * D < 146097 * (y0 - 1970) + 146097).
  { unfold y0. Z.div_mod_to_equations; lia. }
  destruct (Z.leb_spec (DayFromYear (y0 + 1)) D).
  - lia.
  - destruct (Z.ltb_spec D (DayFromYear y0)).
    + replace (y0 - 1 + 1) with y0 by lia. lia.
    + lia.
Qed.

Lemma DayFromYear_mono a b : a <= b -> DayFromYear a <= DayFromYear b.
Proof. intros Hab. unfold DayFromYear. Z.div_mod_to_equations; lia. Qed.

Lemma YearFromDay_lower y D : DayFromYear y <= D -> y <= YearFromDay D.
Proof.
  intros Hy. pose proof (YearFromDay_bounds D) as [_ Hb].
  destruct (Z.le_gt_cases y (YearFromDay D)) as [|Hlt]; [done|].
  pose proof (DayFromYear_mono (YearFromDay D + 1) y ltac:(lia)). lia.
Qed.

Lemma month_start_range m leap :
  0 <= m <= 11 -> 0 <= leap <= 1 ->
  0 <= month_start m leap <= 334 + leap.
Proof.
  intros Hm Hl.
  assert (m = 0 \/ m = 1 \/ m = 2 \/ m = 3 \/ m = 4 \/ m = 5 \/ m = 6 \/ m = 7
          \/ m = 8 \/ m = 9 \/ m = 10 \/ m = 11) as Hcases by lia.
  repeat destruct Hcases as [->|Hcases]; try subst m; simpl; lia.
Qed.

(** A day of the month from 1 to 31 in a month from 0 to 11 of the year
    [y] falls in the year [y]. *)
Lemma year_of_MakeDay y m d :
  0 <= m <= 11 -> 1 <= d <= 31 ->
  YearFromTime (MakeDate (MakeDay y m d) 0) = y.
Proof.
  intros Hm Hd. unfold YearFromTime, MakeDate, Day, msPerDay.
  rewrite Z.add_0_r, Z.div_mul by done.
  apply YearFromDay_spec. unfold MakeDay.
  rewrite Z.div_small, Z.mod_small, Z.add_0_r by lia.
  rewrite DayFromYear_next.
  destruct (DaysInYear_leap y) as [-> Hl].
  pose proof (month_start_range m (leap_day y) Hm Hl). lia.
Qed.

Lemma year_of_Date_UTC y m d :
  100 <= y -> 0 <= m <= 11 -> 1 <= d <= 31 ->
  getUTCFullYear (Date_UTC y m d) = y.
Proof.
  intros Hy Hm Hd. unfold getUTCFullYear, Date_UTC.
  destruct (Z.leb_spec 0 y), (Z.leb_spec y 99); simpl; try lia;
    by apply year_of_MakeDay.
Qed.

End DashDateFacts.


Section DashDateParse.
Import JsString Regex.
#[local] Arguments strip_prefix : simpl never.
#[local] Arguments digits_between : simpl never.
#[local] Arguments letters3 : simpl never.

Lemma trimStart_clean s : starts_clean s -> trimStart s = s.
Proof. destruct s as [|c s]; [done|]. simpl. by intros ->. Qed.

Lemma digits_not_space s :
  forall_chars is_digit s = true ->
  forall_chars (fun c => negb (is_space c)) s = true.
Proof. apply forall_chars_impl. intros c Hc. by rewrite digit_not_space. Qed.

Lemma letters3_not_space mon rest0 :
  letters3 (mon +:+ rest0) = Some (mon, rest0) ->
  String.length mon = 3%nat ->
  forall_chars (fun c => negb (is_space c)) mon = true.
Proof.
  destruct mon as [|a [|b [|c [|? ?]]]]; try done. intros H _.
  unfold letters3 in H. rewrite !append_cons in H.
  destruct (is_letter a) eqn:Ha, (is_letter b) eqn:Hb, (is_letter c) eqn:Hc;
    try done.
  simpl. by rewrite !letter_not_space.
Qed.

Lemma dash_date_matches dd mon yy rest month :
  forall_chars is_digit dd = true -> (1 <= String.length dd <= 2)%nat ->
  months !! toUpperCase mon = Some month ->
  digit_string 2 yy -> no_digit_ahead rest ->
  let str := dd +:+ "-" +:+ mon +:+ "-" +:+ yy +:+ rest in
  trim str = dd +:+ "-" +:+ mon +:+ "-" +:+ yy +:+ trimEnd rest
  /\ slashMatch (trim str) = None
  /\ dashMatch (trim str) = Some (dd, mon, yy).
Proof.
  intros Hdd Hl Hmon [Hyl Hyd] Hrest str.
  destruct (month_abbreviation mon month Hmon) as [_ Hl3].
  assert (Hml : String.length mon = 3%nat).
  { apply months_keys in Hmon as (Hk & _). by rewrite toUpperCase_length in Hk. }
  assert (Htrim : trim str
            = dd +:+ "-" +:+ mon +:+ "-" +:+ yy +:+ trimEnd rest).
  { assert (Hs1 := digits_not_space dd Hdd).
    assert (Hs2 := digits_not_space yy Hyd).
    assert (Hs3 := letters3_not_space mon "" (Hl3 "") Hml).
    unfold trim, str. rewrite trimStart_clean.
    - rewrite (trimEnd_append dd), (trimEnd_append "-"), (trimEnd_append mon),
        (trimEnd_append "-"), (trimEnd_append yy); done.
    - destruct dd as [|c dd]; [simpl in Hl; lia|].
      simpl in Hdd. apply andb_true_iff in Hdd as [Hc _].
      rewrite append_cons. simpl. by apply digit_not_space. }
  rewrite Htrim. split; [done|].
  assert (H1 : digits_between 1 2
            (dd +:+ "-" +:+ mon +:+ "-" +:+ yy +:+ trimEnd rest)
            = Some (dd, "-" +:+ mon +:+ "-" +:+ yy +:+ trimEnd rest)).
  { by apply digits_between_stop. }
  split.
  - unfold slashMatch. rewrite H1. done.
  - unfold dashMatch. rewrite H1. cbn [mbind option_bind].
    rewrite strip_prefix_append. cbn [mbind option_bind].
    rewrite Hl3. cbn [mbind option_bind].
    rewrite strip_prefix_append. cbn [mbind option_bind].
    rewrite digits_between_stop; [done|done|lia|].
    by apply trimEnd_no_digit_ahead.
Qed.

End DashDateParse.





(* ===================================================================== *)
(** * The row filter *)
(* ===================================================================== *)

Section RowFacts.

(** What a retained row went through. *)
Lemma process_record_inv geo cutoff record e :
  process_record geo cutoff record = Some e ->
  let magnitude :=
    convert_magnitude (parseFloat_field (record !! "MAGNITUDE"))
      (JsString.toUpperCase (or_empty (record !! "MAGNITUDE_TYPE"))) in
  let bLat := parseFloat_field (record !! "BEGIN_LAT") in
  let bLon := parseFloat_field (record !! "BEGIN_LON") in
  JsString.trim (or_empty (record !! "EVENT_TYPE")) ∈ WIND_EVENT_TYPES
  /\ (nonempty (normalizeName (Geo.state geo)) = true ->
      normalizeName (record !! "STATE") = normalizeName (Geo.state geo))
  /\ (nonempty (normalizeName (Geo.county geo)) = true ->
      countyMatches (normalizeName (record !! "CZ_NAME"))
                    (normalizeName (Geo.county geo)) = true)
  /\ parseNoaaDate (or_else (record !! "BEGIN_DATE_TIME") (record !! "BEGIN_DATE"))
     = Some (date e)
  /\ cutoff <= date e
  /\ isFinite magnitude = true
  /\ leb magnitude pos_zero = false
  /\ e = {| date := date e;
            windSpeedMph := integral_value (Math_round magnitude);
            eventType := JsString.trim (or_empty (record !! "EVENT_TYPE"));
            lat := if isFinite bLat then Some bLat else None;
            lon := if isFinite bLon then Some bLon else None;
            distanceMiles := None |}.
Proof.
  unfold process_record. intros H.
  case_bool_decide as Htype; [|discriminate H]. cbn [negb] in H.
  destruct (nonempty (normalizeName (Geo.state geo))
            && negb (String.eqb (normalizeName (record !! "STATE"))
                                (normalizeName (Geo.state geo)))) eqn:Hstate;
    [discriminate H|].
  destruct (nonempty (normalizeName (Geo.county geo))
            && negb (countyMatches (normalizeName (record !! "CZ_NAME"))
                                   (normalizeName (Geo.county geo)))) eqn:Hcounty;
    [discriminate H|].
  destruct (parseNoaaDate _) as [beginDate|] eqn:Hdate; [|discriminate H].
  destruct (Z.ltb_spec beginDate cutoff) as [|Hcut]; [discriminate H|].
  destruct (negb (isFinite _) || leb _ pos_zero) eqn:Hmag; [discriminate H|].
  injection H as <-. cbn [date].
  apply orb_false_iff in Hmag as [Hfin Hpos]. apply negb_false_iff in Hfin.
  split; [exact Htype|]. split; [|split; [|repeat split; assumption]].
  - intros Hne. rewrite Hne in Hstate. cbn [andb] in Hstate.
    apply negb_false_iff in Hstate. by apply String.eqb_eq.
  - intros Hne. rewrite Hne in Hcounty. cbn [andb] in Hcounty.
    by apply negb_false_iff in Hcounty.
Qed.

End RowFacts.


Section NumberFacts.

Lemma binary_round_aux_sign m e l :
  integral_value (binary_round_aux prec emax true m e l)
  = - integral_value (binary_round_aux prec emax false m e l).
Proof.
  unfold binary_round_aux.
  destruct (shr_fexp prec emax m e l) as [mrs' e'].
  destruct (shr_fexp prec emax _ e' loc_Exact) as [mrs'' e''].
  destruct (shr_m mrs'') as [|p|p]; try done.
  destruct (e'' <=? emax - prec); [|done].
  cbn [integral_value]. destruct (0 <=? e''); cbn [cond_Zopp]; lia.
Qed.

Lemma of_Z_opp z : integral_value (of_Z (- z)) = - integral_value (of_Z z).
Proof.
  destruct z as [|p|p]; [done| |]; unfold of_Z;
    [change (- Zpos p) with (Zneg p)|change (- Zneg p) with (Zpos p)];
    cbn [binary_normalize]; unfold binary_round;
    destruct (shl_align _ _ _) as [mz ez];
    rewrite binary_round_aux_sign; lia.
Qed.

Lemma is_integral_number_opp z : is_integral_number z -> is_integral_number (- z).
Proof. unfold is_integral_number. rewrite of_Z_opp. lia. Qed.

Lemma is_integral_number_pos_finite m e :
  Zpos (digits2_pos m) <= prec -> e <= emax - prec ->
  is_integral_number (integral_value (S754_finite false m e)).
Proof.
  unfold prec, emax. intros Hd He. cbn [integral_value cond_Zopp].
  pose proof (digits2_pos_bounds m) as Hm.
  destruct (Z.leb_spec 0 e) as [He0|He0].
  - assert (Hp : 0 < 2 ^ e) by (apply Z.pow_pos_nonneg; lia).
    destruct (Zpos m * 2 ^ e) as [|M|M] eqn:EM; [lia| |lia].
    assert (HdM : Zpos (digits2_pos M) = Zpos (digits2_pos m) + e).
    { change (Zdigits2 (Zpos M) = Zpos (digits2_pos m) + e). rewrite <- EM.
      apply Zdigits2_unique; [|lia].
      replace (Zpos (digits2_pos m) + e - 1) with (Zpos (digits2_pos m) - 1 + e) by lia.
      rewrite !Z.pow_add_r by lia. nia. }
    apply of_Z_exact. rewrite HdM.
    destruct (Z.le_gt_cases (Zpos (digits2_pos m) + e) 53) as [|Hgt]; [by left|right].
    split; [|lia]. rewrite <- EM.
    replace e with (e - (Zpos (digits2_pos m) + e - 53) + (Zpos (digits2_pos m) + e - 53))
      at 1 by lia.
    rewrite Z.pow_add_r, Z.mul_assoc by lia. apply Z.mod_mul.
    apply Z.pow_nonzero; lia.
  - assert (Hp : 0 < 2 ^ (- e)) by (apply Z.pow_pos_nonneg; lia).
    assert (Hv : 0 <= Zpos m / 2 ^ (- e) < 2 ^ 53).
    { split; [apply Z.div_pos; lia|].
      apply Z.div_lt_upper_bound; [lia|].
      assert (2 ^ Zpos (digits2_pos m) <= 2 ^ 53) by (apply Z.pow_le_mono_r; lia).
      nia. }
    destruct (Zpos m / 2 ^ (- e)) as [|M|M] eqn:EM; [done| |lia].
    apply of_Z_exact. left.
    change (Zdigits2 (Zpos M) <= 53). apply Zdigits2_le; lia.
Qed.

(** The integer value of a Number is the integer value of a Number. *)
Lemma integral_value_is_number x :
  bounded_number x -> is_integral_number (integral_value x).
Proof.
  destruct x as [s|s| |s m e]; try done. intros [Hd He].
  destruct s; [|by apply is_integral_number_pos_finite].
  replace (integral_value (S754_finite true m e))
    with (- integral_value (S754_finite false m e)).
  - by apply is_integral_number_opp, is_integral_number_pos_finite.
  - cbn [integral_value]. destruct (0 <=? e); cbn [cond_Zopp]; lia.
Qed.

Lemma Math_round_bounded x : bounded_number x -> bounded_number (Math_round x).
Proof.
  destruct x as [s|s| |s m e]; try done. intros Hb. cbn [Math_round].
  destruct (0 <=? e); [done|].
  destruct (round_half_up_finite s m e); [done|apply of_Z_bounded..].
Qed.

Lemma mul_bounded x y : bounded_number (mul x y).
Proof.
  destruct x as [sx|sx| |sx mx ex], y as [sy|sy| |sy my ey]; try done.
  by apply binary_round_aux_bounded.
Qed.

Lemma SFdiv_bounded x y : bounded_number (SFdiv prec emax x y).
Proof.
  destruct x as [sx|sx| |sx mx ex], y as [sy|sy| |sy my ey]; try done.
  cbn [SFdiv]. unfold SFdiv_core_binary.
  set (m' := match _ with Zpos _ => _ | 0 => _ | Zneg _ => _ end).
  assert (Hm' : 0 <= m').
  { unfold m'. destruct (_ - _ - _); [lia| |lia].
    apply Z.shiftl_nonneg. lia. }
  pose proof (Z.div_eucl_eq m' (Zpos my) ltac:(lia)) as Hq.
  pose proof (Z.mod_pos_bound m' (Zpos my) ltac:(lia)) as Hr.
  unfold Z.modulo in Hr.
  destruct (Z.div_eucl m' (Zpos my)) as [q r].
  apply binary_round_aux_bounded. nia.
Qed.

Lemma of_decimal_bounded neg digits exp10 :
  bounded_number (of_decimal neg digits exp10).
Proof.
  unfold of_decimal. destruct digits as [|d|d]; try done.
  destruct (0 <=? exp10); [|apply SFdiv_bounded].
  destruct (cond_Zopp neg _); [done|apply binary_round_bounded..].
Qed.

Lemma read_unsigned_bounded neg s : bounded_number (read_unsigned neg s).
Proof.
  unfold read_unsigned. destruct (JsString.strip_prefix _ _); [done|].
  destruct (read_digits 0 0 s) as [[ip ni] s1].
  destruct (match s1 with String "." s1' => _ | _ => _ end) as [[m nf] s2].
  destruct (_ && _); [done|apply of_decimal_bounded].
Qed.

Lemma parseFloat_bounded s : bounded_number (parseFloat s).
Proof.
  unfold parseFloat.
  repeat case_match; apply read_unsigned_bounded.
Qed.

Lemma convert_magnitude_bounded m flag :
  bounded_number m -> bounded_number (convert_magnitude m flag).
Proof.
  intros Hm. unfold convert_magnitude. destruct (is_gust_flag flag); [|done].
  apply Math_round_bounded, mul_bounded.
Qed.

(** A Number that is finite and not [<= 0] is positive. *)
Lemma positive_finite x :
  isFinite x = true -> leb x pos_zero = false ->
  exists m e, x = S754_finite false m e.
Proof. destruct x as [s|s| |[] m e]; try done. eauto. Qed.

Lemma of_Z_nonneg n : 0 <= n -> 0 <= integral_value (of_Z n).
Proof.
  destruct n as [|p|p]; [done| |lia]. intros _.
  unfold of_Z. cbn [binary_normalize]. unfold binary_round.
  destruct (shl_align _ _ _) as [mz ez]. unfold binary_round_aux.
  destruct (shr_fexp prec emax _ ez _) as [mrs' e'].
  destruct (shr_fexp prec emax _ e' loc_Exact) as [mrs'' e''].
  destruct (shr_m mrs'') as [|q|q]; try done.
  destruct (e'' <=? emax - prec); [|done].
  cbn [integral_value cond_Zopp].
  destruct (Z.leb_spec 0 e'');
    [|apply Z.div_pos; [lia|apply Z.pow_pos_nonneg; lia]].
  assert (0 <= 2 ^ e'') by (apply Z.pow_nonneg; lia). nia.
Qed.

Lemma Math_round_positive m e :
  0 <= integral_value (Math_round (S754_finite false m e)).
Proof.
  cbn [Math_round]. destruct (Z.leb_spec 0 e) as [He|He].
  - cbn [integral_value cond_Zopp]. destruct (Z.leb_spec 0 e); [|lia].
    assert (0 <= 2 ^ e) by (apply Z.pow_nonneg; lia). nia.
  - assert (Hn : 0 <= round_half_up_finite false m e).
    { unfold round_half_up_finite. destruct (Z.leb_spec 0 e); [lia|].
      cbn [cond_Zopp]. apply Z.div_pos; [|apply Z.pow_pos_nonneg; lia].
      assert (0 <= 2 ^ (- e)) by (apply Z.pow_nonneg; lia). lia. }
    destruct (round_half_up_finite false m e) as [|n|n] eqn:E; [done| |lia].
    by apply of_Z_nonneg.
Qed.

(** The wind speed of a retained row is a Number that is not negative. *)
Lemma process_record_speed geo cutoff record e :
  process_record geo cutoff record = Some e -> speed_is_number e.
Proof.
  intros H. apply process_record_inv in H as (_ & _ & _ & _ & _ & Hfin & Hpos & ->).
  cbn [windSpeedMph]. destruct (positive_finite _ Hfin Hpos) as (m & ex & Hmag).
  split.
  - rewrite Hmag. apply Math_round_positive.
  - apply integral_value_is_number, Math_round_bounded, convert_magnitude_bounded.
    destruct (record !! "MAGNITUDE"); [apply parseFloat_bounded|done].
Qed.

Lemma events_of_records_speed geo cutoff records :
  Forall speed_is_number (events_of_records geo cutoff records).
Proof.
  apply Forall_forall. intros e He.
  apply list_elem_of_omap in He as (record & _ & Hr).
  by eapply process_record_speed.
Qed.

End NumberFacts.


(* ===================================================================== *)
(** * The loop over the years *)
(* ===================================================================== *)

Section LoopFacts.
Variable remote : Remote.

Lemma year_loop_step geo cutoff year years acc w :
  year_loop remote geo cutoff (year :: years) acc w =
  match getWindEventsForYear remote year geo cutoff w with
  | (Returned events, w1) => year_loop remote geo cutoff years (acc ++ events) w1
  | (Thrown _, w1) => year_loop remote geo cutoff years acc w1
  end.
Proof.
  cbn [year_loop]. unfold bind at 1. unfold try_catch, bind at 1.
  by destruct (getWindEventsForYear remote year geo cutoff w) as [[events|msg] w1].
Qed.

Lemma year_loop_contributions geo cutoff years : forall acc w,
  year_loop remote geo cutoff years acc w =
  (Returned (acc ++ concat (fst (contributions remote geo cutoff years w))),
   snd (contributions remote geo cutoff years w)).
Proof.
  induction years as [|year years IH]; intros acc w.
  - cbn [year_loop contributions fst snd concat]. unfold ret.
    by rewrite app_nil_r.
  - rewrite year_loop_step. cbn [contributions].
    destruct (getWindEventsForYear remote year geo cutoff w) as [[events|msg] w1];
      rewrite IH; destruct (contributions remote geo cutoff years w1) as [rest w2];
      cbn [fst snd concat app]; by rewrite <- ?app_assoc.
Qed.

Lemma contributions_length geo cutoff years : forall w,
  length (fst (contributions remote geo cutoff years w)) = length years.
Proof.
  induction years as [|year years IH]; intros w; [done|].
  cbn [contributions].
  destruct (getWindEventsForYear remote year geo cutoff w) as [outcome w1].
  specialize (IH w1).
  destruct (contributions remote geo cutoff years w1) as [rest w2].
  cbn [fst length] in *. by rewrite IH.
Qed.

Lemma fetch_refused {B} (endpoint : Z -> FetchResult B * Z) w :
  refused (endpoint (now w)) ->
  (exists msg w', fetch endpoint w = (Thrown msg, w'))
  \/ (exists body w', fetch endpoint w = (Returned (false, body), w')).
Proof.
  unfold refused, fetch, bind, Date_now, elapse.
  destruct (endpoint (now w)) as [[|ok body] dt]; cbn [fst]; intros H.
  - left. by eexists _, _.
  - right. subst ok. by eexists _, _.
Qed.

(** The listing cannot be fetched. *)
Lemma listing_failure_throws year geo cutoff w :
  listing_stale w -> refused (fetch_listing remote (now w)) ->
  exists msg w', getWindEventsForYear remote year geo cutoff w = (Thrown msg, w').
Proof.
  intros Hstale Hrefused.
  unfold getWindEventsForYear, getLatestStormFilename, getNoaaDirectoryHtml.
  unfold bind at 1. unfold bind at 1. unfold bind at 1.
  unfold Date_now at 1. unfold bind at 1. unfold get_directoryCache at 1.
  cbn [fst snd]. red in Hstale. rewrite Hstale.
  unfold bind at 1.
  destruct (fetch_refused (fetch_listing remote) w Hrefused)
    as [(msg & w' & ->)|(body & w' & ->)]; [by eexists _, _|].
  cbn [fst negb]. unfold throw. by eexists _, _.
Qed.

(** The file of the year cannot be downloaded, or its download breaks
    off. *)
Lemma download_failure_throws year geo cutoff w filename w1 :
  getLatestStormFilename remote year w = (Returned (Some filename), w1) ->
  cacheDir w1 !! filename = None ->
  refused (fetch_file remote filename (now w1))
  \/ (exists ok d dt, fetch_file remote filename (now w1) = (Response ok d, dt)
                      /\ completed d = false) ->
  exists msg w', getWindEventsForYear remote year geo cutoff w = (Thrown msg, w').
Proof.
  intros Hname Hmissing Hfail.
  unfold getWindEventsForYear. unfold bind at 1. rewrite Hname.
  unfold bind at 1. unfold ensureFileDownloaded. unfold bind at 1.
  unfold existsSync at 1. rewrite Hmissing.
  rewrite bool_decide_eq_false_2 by (by intros [? ?]).
  unfold bind at 1.
  destruct Hfail as [Hrefused|(ok & d & dt & Hfetch & Hbroken)].
  - destruct (fetch_refused (fetch_file remote filename) w1 Hrefused)
      as [(msg & w' & ->)|(body & w' & ->)]; [by eexists _, _|].
    cbn [fst negb]. unfold throw. by eexists _, _.
  - unfold fetch, bind at 1. unfold Date_now at 1. rewrite Hfetch.
    unfold bind at 1. unfold elapse at 1. unfold ret at 1.
    destruct ok; cbn [fst snd negb]; [|unfold throw; by eexists _, _].
    unfold bind at 1. unfold write_file at 1. rewrite Hbroken.
    unfold throw. by eexists _, _.
Qed.

(** The stream of the file of the year is malformed. *)
Lemma malformed_stream_throws year geo cutoff w filename w1 data :
  getLatestStormFilename remote year w = (Returned (Some filename), w1) ->
  cacheDir w1 !! filename = Some data -> intact data = false ->
  exists msg w', getWindEventsForYear remote year geo cutoff w = (Thrown msg, w').
Proof.
  intros Hname Hpresent Hbroken.
  unfold getWindEventsForYear. unfold bind at 1. rewrite Hname.
  unfold bind at 1. unfold ensureFileDownloaded. unfold bind at 1.
  unfold existsSync at 1. rewrite Hpresent.
  rewrite bool_decide_eq_true_2 by done. unfold ret at 1.
  unfold bind at 1. unfold read_file at 1. rewrite Hpresent, Hbroken.
  unfold throw. by eexists _, _.
Qed.

(** The events of a year come from rows of its file. *)
Lemma getWindEventsForYear_rows year geo cutoff w events w' :
  getWindEventsForYear remote year geo cutoff w = (Returned events, w') ->
  exists records, events = events_of_records geo cutoff records.
Proof.
  unfold getWindEventsForYear. unfold bind at 1.
  destruct (getLatestStormFilename remote year w) as [[[filename|]|msg] w1];
    [| |done].
  - unfold bind at 1.
    destruct (ensureFileDownloaded remote filename w1) as [[[]|msg] w2]; [|done].
    unfold bind at 1.
    destruct (read_file filename w2) as [[data|msg] w3]; [|done].
    destruct (intact data); [|done].
    intros [= <- <-]. by exists (records data).
  - intros [= <- <-]. by exists [].
Qed.

Lemma contributions_rows geo cutoff years : forall w,
  Forall (fun events => exists records, events = events_of_records geo cutoff records)
         (fst (contributions remote geo cutoff years w)).
Proof.
  induction years as [|year years IH]; intros w; [by constructor|].
  cbn [contributions].
  destruct (getWindEventsForYear remote year geo cutoff w) as [outcome w1] eqn:E.
  specialize (IH w1).
  destruct (contributions remote geo cutoff years w1) as [rest w2].
  cbn [fst] in *. constructor; [|done].
  destruct outcome as [events|msg]; [by eapply getWindEventsForYear_rows|].
  by exists [].
Qed.

End LoopFacts.

Section HandlerFacts.
Variable M : MathLib.
Variable remote : Remote.
Variable LocalTZA : Z -> bool -> Z.
Variable geocodeAddress : string -> IO (option GeoTarget).

(** Once the address is geocoded the handler answers with a payload,
    whatever the remote end does. *)
Lemma handler_succeeds query_address query_radius geo w w0 :
  let address := JsString.trim (or_empty query_address) in
  nonempty address = true ->
  geocodeAddress address w = (Returned (Some geo), w0) ->
  let cutoff := cutoff_at LocalTZA (now w0) in
  let years := seqZ (getUTCFullYear cutoff)
                    (getUTCFullYear (now w0) - getUTCFullYear cutoff + 1) in
  let radiusMiles := radius_of_query query_radius in
  handler M remote LocalTZA geocodeAddress query_address query_radius w =
  (Returned (Success {|
     p_address := Geo.displayName geo;
     p_county := Geo.county geo;
     p_state := Geo.state geo;
     p_radiusMiles := if truthy radiusMiles then Some radiusMiles else None;
     p_results :=
       results_of M geo radiusMiles
         (concat (fst (contributions remote geo cutoff years w0))) |}),
   snd (contributions remote geo cutoff years w0)).
Proof.
  intros address Hne Hgeo cutoff years radiusMiles.
  unfold handler, try_catch, handler_body. fold address. rewrite Hne. cbn [negb].
  unfold bind at 1. rewrite Hgeo. unfold bind at 1. unfold Date_now at 1.
  unfold bind at 1. fold cutoff. fold years.
  by rewrite year_loop_contributions.
Qed.

End HandlerFacts.


Section SpeedFacts.

(** A rounded Number that is positive is a positive integer. *)
Lemma Math_round_integral_positive y m e :
  Math_round y = S754_finite false m e ->
  0 < integral_value (S754_finite false m e).
Proof.
  intros Hy.
  assert (Hpos : forall e', 0 <= e' -> 0 < Zpos m * 2 ^ e').
  { intros e' He'. assert (0 < 2 ^ e') by (apply Z.pow_pos_nonneg; lia). nia. }
  cbn [integral_value cond_Zopp].
  destruct (Z.leb_spec 0 e) as [He|He]; [by apply Hpos|].
  destruct y as [s|s| |s m' e']; try done. cbn [Math_round] in Hy.
  destruct (Z.leb_spec 0 e'); [injection Hy as -> -> ->; lia|].
  destruct (round_half_up_finite s m' e') as [|n|n] eqn:E; [done| |].
  - apply of_Z_negative_exponent in Hy as [_ Hm]; [|done].
    rewrite Hm, Z.div_mul by (apply Z.pow_nonzero; lia). lia.
  - by apply of_Z_sign_shape in Hy.
Qed.

Lemma gust_flag_spec flag :
  is_gust_flag flag = true <-> flag = "EG" \/ flag = "MG".
Proof.
  unfold is_gust_flag. rewrite orb_true_iff, !String.eqb_eq. tauto.
Qed.

(** The speed stored is the rounded speed of the specification. *)
Lemma speed_of_magnitude_spec m flag :
  Math_round (convert_magnitude m flag) = speed_of_magnitude m flag.
Proof.
  unfold convert_magnitude, speed_of_magnitude.
  pose proof (gust_flag_spec flag) as Hflag.
  destruct (is_gust_flag flag); case_decide as H.
  - apply Math_round_idempotent.
  - exfalso. by apply H, Hflag.
  - by apply Hflag in H.
  - reflexivity.
Qed.

(** On the gust path the speed is rounded before it is tested, and the
    speed of a retained row is positive. *)
Lemma gust_speed_positive geo cutoff record e :
  process_record geo cutoff record = Some e ->
  is_gust_flag (JsString.toUpperCase (or_empty (record !! "MAGNITUDE_TYPE"))) = true ->
  0 < windSpeedMph e.
Proof.
  intros H Hflag.
  apply process_record_inv in H as (_ & _ & _ & _ & _ & Hfin & Hpos & ->).
  cbn [windSpeedMph]. unfold convert_magnitude in *. rewrite Hflag in *.
  rewrite Math_round_idempotent.
  destruct (positive_finite _ Hfin Hpos) as (m & ex & Hmag).
  rewrite Hmag. by eapply Math_round_integral_positive.
Qed.

End SpeedFacts.

Section RadiusFacts.
Variable M : MathLib.
Variable geo : GeoTarget.

Lemma with_distance_fields e :
  windSpeedMph (with_distance M geo e) = windSpeedMph e
  /\ eventType (with_distance M geo e) = eventType e
  /\ lat (with_distance M geo e) = lat e
  /\ lon (with_distance M geo e) = lon e.
Proof. unfold with_distance. by destruct (_ && _). Qed.

(** What the radius filter keeps: the events whose two coordinates are
    truthy Numbers and whose distance is at most the radius. *)
Lemma within_radius_with_distance r e :
  within_radius r (with_distance M geo e) =
  truthy_number (lat e) && truthy_number (lon e) && leb (distance_to M geo e) r.
Proof.
  unfold within_radius, with_distance, distance_to.
  destruct (truthy_number (lat e)) eqn:Hlat, (truthy_number (lon e)) eqn:Hlon;
    cbn [andb negb orb lat lon distanceMiles]; rewrite ?Hlat, ?Hlon; done.
Qed.

Lemma filteredEvents_radius r events :
  gtb r pos_zero = true ->
  filteredEvents M geo r events =
  List.map (with_distance M geo)
    (List.filter (fun e => truthy_number (lat e) && truthy_number (lon e)
                           && leb (distance_to M geo e) r) events).
Proof.
  intros Hr. unfold filteredEvents. rewrite Hr.
  induction events as [|e events IH]; [done|].
  cbn [List.map List.filter]. rewrite within_radius_with_distance.
  destruct (_ && _ && _); cbn [List.map]; by rewrite IH.
Qed.

Lemma filteredEvents_no_radius r events :
  gtb r pos_zero = false -> filteredEvents M geo r events = events.
Proof. intros Hr. unfold filteredEvents. by rewrite Hr. Qed.

(** A coordinate that is the Number zero counts as missing. *)
Lemma zero_coordinate_dropped r e s :
  lat e = Some (S754_zero s) \/ lon e = Some (S754_zero s) ->
  gtb r pos_zero = true -> filteredEvents M geo r [e] = [].
Proof.
  intros Hzero Hr. rewrite filteredEvents_radius by done. cbn [List.filter].
  destruct Hzero as [-> | ->]; cbn [truthy_number truthy andb]; [done|].
  by rewrite andb_false_r.
Qed.

(** The distance of a retained event, as the result has it: a distance
    that is zero is reported as [null]. *)
Lemma to_result_distance e :
  truthy_number (lat e) && truthy_number (lon e) = true ->
  Result.distanceMiles (to_result (with_distance M geo e)) =
  if truthy (distance_to M geo e) then Some (round_to_tenth (distance_to M geo e)) else None.
Proof.
  intros Hc. unfold to_result, with_distance. rewrite Hc.
  by cbn [distanceMiles truthy_number or_zero Result.distanceMiles].
Qed.

Lemma results_from_events r allEvents res :
  res ∈ results_of M geo r allEvents ->
  exists e, e ∈ allEvents
    /\ Result.date res = formatDate (date e)
    /\ Result.windSpeedMph res = windSpeedMph e
    /\ Result.eventType res = eventType e.
Proof.
  unfold results_of, selectedEvents, uniqueEvents. intros Hres.
  apply list_elem_of_fmap in Hres as (e' & -> & He').
  eapply elem_of_sublist in He'; [|apply unique_from_sublist].
  eapply elem_of_sublist in He'; [|apply filteredEvents_sublist].
  apply list_elem_of_fmap in He' as (e & -> & He).
  exists e. split.
  - unfold sortedEvents in He. by rewrite Array_sort_perm in He.
  - cbn [to_result Result.date Result.windSpeedMph Result.eventType].
    rewrite annotate_date. unfold annotate.
    destruct (gtb r pos_zero); [|done].
    by destruct (with_distance_fields e) as (-> & -> & _).
Qed.

End RadiusFacts.

Section WindowFacts.
Variable M : MathLib.
Variable remote : Remote.

(** What holds of every result: it comes from a row of the allow-list
    on or after the cutoff, and its speed is an integer that is not
    negative. *)
Lemma results_window geo cutoff years w r res :
  res ∈ results_of M geo r
          (concat (fst (contributions remote geo cutoff years w))) ->
  exists record e,
    process_record geo cutoff record = Some e
    /\ Result.date res = formatDate (date e)
    /\ Result.windSpeedMph res = windSpeedMph e
    /\ Result.eventType res = eventType e
    /\ cutoff <= date e
    /\ eventType e ∈ WIND_EVENT_TYPES
    /\ 0 <= windSpeedMph e.
Proof.
  intros Hres. apply results_from_events in Hres as (e & He & Hd & Hs & Ht).
  apply list_elem_of_In, in_concat in He as (events & Hevents & He).
  apply list_elem_of_In in He, Hevents.
  pose proof (contributions_rows remote geo cutoff years w) as Hrows.
  rewrite Forall_forall in Hrows.
  destruct (Hrows _ Hevents) as (records & ->).
  apply list_elem_of_omap in He as (record & _ & Hr).
  exists record, e. split; [done|]. split; [done|]. split; [done|]. split; [done|].
  pose proof (process_record_speed _ _ _ _ Hr) as [Hnn _].
  apply process_record_inv in Hr as (Htype & _ & _ & _ & Hcut & _ & _ & Heq).
  split; [done|]. split; [|done]. rewrite Heq. by cbn [eventType].
Qed.

End WindowFacts.


Section TargetDistance.
Variable M : MathLib.

(** The distance of a point from itself is zero, whatever the
    approximations of the cosine, once the sine of zero and the
    arctangent of zero over one are zero, as ECMAScript has them. *)
Lemma haversine_at_target la lo :
  sub la la = pos_zero -> sub lo lo = pos_zero ->
  Math_sin M pos_zero = pos_zero ->
  Math_atan2 M pos_zero (of_Z 1) = pos_zero ->
  isFinite (mul (Math_cos M (toRad la)) (Math_cos M (toRad la))) = true ->
  haversineDistance M la lo la lo = pos_zero.
Proof.
  intros Hla Hlo Hsin Hatan Hcos. unfold haversineDistance.
  rewrite Hla, Hlo.
  assert (Hrad : div (toRad pos_zero) (of_Z 2) = pos_zero) by (vm_compute; reflexivity).
  rewrite Hrad, Hsin.
  assert (Hterm : exists s,
    mul (mul (mul (Math_cos M (toRad la)) (Math_cos M (toRad la))) pos_zero) pos_zero
    = S754_zero s).
  { destruct (mul (Math_cos M (toRad la)) (Math_cos M (toRad la)))
      as [s|s| |s m e]; cbn [isFinite] in Hcos; try discriminate Hcos;
      exists s; unfold mul, pos_zero; cbn [SFmul]; destruct s; reflexivity. }
  destruct Hterm as [s ->].
  assert (Ha : add (mul pos_zero pos_zero) (S754_zero s) = pos_zero)
    by (destruct s; vm_compute; reflexivity).
  rewrite Ha.
  assert (Hnum : sqrt pos_zero = pos_zero) by (vm_compute; reflexivity).
  assert (Hden : sqrt (sub (of_Z 1) pos_zero) = of_Z 1) by (vm_compute; reflexivity).
  rewrite Hnum, Hden, Hatan. vm_compute. reflexivity.
Qed.

(** An event at the target is kept by the radius filter, and its result
    has no distance. *)
Lemma event_at_target_null geo r e :
  gtb r pos_zero = true ->
  lat e = Some (Geo.lat geo) -> lon e = Some (Geo.lon geo) ->
  truthy (Geo.lat geo) = true -> truthy (Geo.lon geo) = true ->
  haversineDistance M (Geo.lat geo) (Geo.lon geo) (Geo.lat geo) (Geo.lon geo)
    = pos_zero ->
  filteredEvents M geo r [e] = [with_distance M geo e]
  /\ Result.distanceMiles (to_result (with_distance M geo e)) = None.
Proof.
  intros Hr Hlat Hlon Htlat Htlon Hzero.
  assert (Hd : distance_to M geo e = pos_zero)
    by (unfold distance_to; by rewrite Hlat, Hlon).
  assert (Hc : truthy_number (lat e) && truthy_number (lon e) = true)
    by (rewrite Hlat, Hlon; cbn [truthy_number]; by rewrite Htlat, Htlon).
  split.
  - rewrite filteredEvents_radius by done. cbn [List.filter].
    rewrite Hc, Hd. cbn [andb].
    assert (Hle : leb pos_zero r = true).
    { destruct r as [[]|[]| |[] m ex]; cbv in Hr |- *; congruence. }
    by rewrite Hle.
  - rewrite to_result_distance by done. by rewrite Hd.
Qed.

End TargetDistance.


(* ===================================================================== *)
(** * The claims about the rows, the radius and the loop *)
(* ===================================================================== *)

(** C1. Every result comes from a row on or after the cutoff whose type
    is in the allow-list, but its speed need not be positive: a row of the
    target county without a gust flag and with the magnitude 0.3 passes
    the test [magnitude <= 0] and is rounded afterwards, so the request
    answers with a result whose [windSpeedMph] is 0.  The same magnitude
    with a gust flag is rounded before the test and the row is left out. *)
Theorem C1_zero_speed_reported :
  Geo.state example_geo = Some "New York"
  /\ Geo.county example_geo = Some "Suffolk"
  /\ example_results [example_record example_day "0.3" "" "" ""] NaN
     = [example_result "06/15/2020" 0 None]
  /\ option_map windSpeedMph
       (process_record example_geo example_cutoff
          (example_record example_day "0.3" "" "" "")) = Some 0
  /\ process_record example_geo example_cutoff
       (example_record example_day "0.3" "EG" "" "") = None.
Proof. vm_compute. done. Qed.

(** C2. With a radius of 10 miles, a row at the coordinates of the target
    (40.0, -75.0) is at the distance 0 and is retained, and its result has
    no [distanceMiles]: the test [event.distanceMiles ? ... : null] takes
    the distance 0 for a missing one.  A row 0.1 degree to the north is
    retained with its distance, 6.9 miles. *)
Theorem C2_distance_zero_reported_null :
  haversineDistance SeriesMath.lib (Geo.lat example_geo) (Geo.lon example_geo)
    (parseFloat "40.0") (parseFloat "-75.0") = pos_zero
  /\ example_results [example_record example_day "50" "" "40.0" "-75.0"] (of_Z 10)
     = [example_result "06/15/2020" 50 None]
  /\ example_results [example_record example_day "50" "" "40.1" "-75.0"] (of_Z 10)
     = [example_result "06/15/2020" 50 (Some (of_decimal false 69 (-1)))].
Proof. vm_compute. done. Qed.

(** C3. With a radius of 5000 miles, a row on the equator at (0, -75.0),
    whose two coordinates are present and whose distance from the target
    (40.0, -75.0) is less than 5000 miles, is left out of the filtered
    list: the test [!e.lat || !e.lon] takes the coordinate 0 for a missing
    one.  The same row at the latitude 0.000001 is retained.  With the
    radius zero or absent the filtered list is the sorted list. *)
Theorem C3_zero_coordinate_dropped :
  let record := example_record example_day "50" "" "0" "-75.0" in
  let radius := of_Z 5000 in
  (exists e,
     process_record example_geo example_cutoff record = Some e
     /\ lat e = Some pos_zero /\ lon e = Some (parseFloat "-75.0")
     /\ leb (haversineDistance SeriesMath.lib (Geo.lat example_geo)
               (Geo.lon example_geo) pos_zero (parseFloat "-75.0")) radius = true
     /\ filteredEvents SeriesMath.lib example_geo radius [e] = [])
  /\ example_results [record] radius = []
  /\ List.map Result.windSpeedMph
       (example_results [example_record example_day "50" "" "0.000001" "-75.0"] radius)
     = [50]
  /\ (forall M geo events,
        filteredEvents M geo (radius_of_query NaN) events = events
        /\ filteredEvents M geo (radius_of_query pos_zero) events = events).
Proof.
  cbv zeta. split; [|split; [|split]].
  - eexists. split; [vm_compute; reflexivity|]. vm_compute. done.
  - vm_compute. done.
  - vm_compute. done.
  - intros M geo events. split; by apply filteredEvents_no_radius.
Qed.

(** C4.  The speed of a retained row is [Math.round(m * 1.15078)] when
    the uppercased magnitude type is EG or MG and [Math.round(m)]
    otherwise, for the parsed magnitude [m]; the magnitude 100 gives 115
    with a gust flag and 100 without.  A row with a gust flag is retained
    only if that rounded speed is finite and not [<= 0].  Without a gust
    flag the test is made on the magnitude before it is rounded: the
    magnitude 0.3 rounds to 0, which is [<= 0], and the row is retained
    with the speed 0. *)
Theorem C4_unrounded_magnitude_tested :
  (forall geo cutoff record e,
     let m := parseFloat_field (record !! "MAGNITUDE") in
     let flag := JsString.toUpperCase (or_empty (record !! "MAGNITUDE_TYPE")) in
     process_record geo cutoff record = Some e ->
     windSpeedMph e = integral_value (speed_of_magnitude m flag)
     /\ (flag = "EG" \/ flag = "MG" ->
         isFinite (speed_of_magnitude m flag) = true
         /\ leb (speed_of_magnitude m flag) pos_zero = false))
  /\ integral_value (speed_of_magnitude (parseFloat "100") "EG") = 115
  /\ integral_value (speed_of_magnitude (parseFloat "100") "MG") = 115
  /\ integral_value (speed_of_magnitude (parseFloat "100") "") = 100
  /\ List.map Result.windSpeedMph
       (example_results [example_record example_day "100" "eg" "" "";
                         example_record example_day "100" "" "" ""] NaN)
     = [115; 100]
  /\ leb (speed_of_magnitude (parseFloat "0.3") "") pos_zero = true
  /\ option_map windSpeedMph
       (process_record example_geo example_cutoff
          (example_record example_day "0.3" "" "" "")) = Some 0
  /\ example_results [example_record example_day "0.3" "" "" ""] NaN
     = [example_result "06/15/2020" 0 None].
Proof.
  split; [|vm_compute; repeat split; reflexivity].
  intros geo cutoff record e m flag He.
  apply process_record_inv in He as (_ & _ & _ & _ & _ & Hfin & Hpos & ->).
  cbn [windSpeedMph]. fold m flag in Hfin, Hpos |- *.
  rewrite speed_of_magnitude_spec. split; [reflexivity|].
  intros Hgust. apply gust_flag_spec in Hgust.
  rewrite <- speed_of_magnitude_spec. unfold convert_magnitude in *.
  rewrite Hgust in *. rewrite Math_round_idempotent. by split.
Qed.

(** C4, at a row of gusts of 100 knots. *)
Lemma C4_unrounded_magnitude_tested_witness :
  option_map windSpeedMph
    (process_record example_geo example_cutoff
       (example_record example_day "100" "MG" "" "")) = Some 115.
Proof.
  destruct C4_unrounded_magnitude_tested as [H _].
  destruct (process_record example_geo example_cutoff
              (example_record example_day "100" "MG" "" "")) as [e|] eqn:E;
    [|vm_compute in E; discriminate E].
  cbn [option_map]. f_equal.
  destruct (H example_geo example_cutoff _ e E) as [Hspeed _].
  rewrite Hspeed. vm_compute. reflexivity.
Defined.

(** C8. The loop over the years never throws: it returns the events it
    had with, for each year in turn, the events of the year when its
    processing returns and nothing when it throws, the later years running
    in the world the failing year left.  A listing that cannot be fetched,
    a file that cannot be downloaded or whose download breaks off, and a
    stream that is malformed each make the processing of the year throw.
    Once the address is geocoded the handler answers with a payload made
    from those events. *)
Theorem C8_year_failure_isolated (remote : Remote) :
  (forall geo cutoff years acc w,
     year_loop remote geo cutoff years acc w
     = (Returned (acc ++ concat (fst (contributions remote geo cutoff years w))),
        snd (contributions remote geo cutoff years w))
     /\ length (fst (contributions remote geo cutoff years w)) = length years)
  /\ (forall geo cutoff year years acc w msg w1,
        getWindEventsForYear remote year geo cutoff w = (Thrown msg, w1) ->
        year_loop remote geo cutoff (year :: years) acc w
        = year_loop remote geo cutoff years acc w1
        /\ fst (contributions remote geo cutoff (year :: years) w)
           = [] :: fst (contributions remote geo cutoff years w1))
  /\ (forall geo cutoff year w,
        listing_stale w -> refused (fetch_listing remote (now w)) ->
        exists msg w',
          getWindEventsForYear remote year geo cutoff w = (Thrown msg, w'))
  /\ (forall geo cutoff year w filename w1,
        getLatestStormFilename remote year w = (Returned (Some filename), w1) ->
        cacheDir w1 !! filename = None ->
        refused (fetch_file remote filename (now w1))
        \/ (exists ok d dt,
              fetch_file remote filename (now w1) = (Response ok d, dt)
              /\ completed d = false) ->
        exists msg w',
          getWindEventsForYear remote year geo cutoff w = (Thrown msg, w'))
  /\ (forall geo cutoff year w filename w1 data,
        getLatestStormFilename remote year w = (Returned (Some filename), w1) ->
        cacheDir w1 !! filename = Some data -> intact data = false ->
        exists msg w',
          getWindEventsForYear remote year geo cutoff w = (Thrown msg, w'))
  /\ (forall M LocalTZA geocodeAddress query_address query_radius geo w w0,
        let address := JsString.trim (or_empty query_address) in
        nonempty address = true ->
        geocodeAddress address w = (Returned (Some geo), w0) ->
        let cutoff := cutoff_at LocalTZA (now w0) in
        let years := seqZ (getUTCFullYear cutoff)
                          (getUTCFullYear (now w0) - getUTCFullYear cutoff + 1) in
        exists payload w',
          handler M remote LocalTZA geocodeAddress query_address query_radius w
          = (Returned (Success payload), w')
          /\ p_results payload
             = results_of M geo (radius_of_query query_radius)
                 (concat (fst (contributions remote geo cutoff years w0)))).
Proof.
  split; [|split; [|split; [|split; [|split]]]].
  - intros. split; [apply year_loop_contributions|apply contributions_length].
  - intros geo cutoff year years acc w msg w1 H. split.
    + by rewrite year_loop_step, H.
    + cbn [contributions]. rewrite H.
      by destruct (contributions remote geo cutoff years w1).
  - intros. by apply listing_failure_throws.
  - intros. by eapply download_failure_throws.
  - intros. by eapply malformed_stream_throws.
  - intros M LocalTZA geocodeAddress query_address query_radius geo w w0
      address Hne Hgeo cutoff years.
    eexists _, _. split.
    + by apply handler_succeeds.
    + done.
Qed.

(** C8, for a request in 2025 when the file of 2019 is refused and the
    file of 2020 has one row: the year 2019 throws and the reply has the
    event of 2020. *)
Lemma C8_year_failure_isolated_witness :
  let remote := refusing_2019 [example_record example_day "50" "" "" ""] in
  (exists msg w',
     getWindEventsForYear remote 2019 example_geo example_cutoff example_world
     = (Thrown msg, w'))
  /\ (exists payload w',
        handler SeriesMath.lib remote (fun _ _ => 0) example_geocoder
          (Some "Suffolk County, NY") NaN example_world
        = (Returned (Success payload), w')
        /\ p_results payload = [example_result "06/15/2020" 50 None]).
Proof.
  intros remote.
  destruct (C8_year_failure_isolated remote) as (_ & _ & _ & Hdown & _ & Hreq).
  split.
  - eapply (Hdown example_geo example_cutoff 2019 example_world).
    + vm_compute. reflexivity.
    + vm_compute. reflexivity.
    + left. vm_compute. reflexivity.
  - destruct (Hreq SeriesMath.lib (fun _ _ => 0) example_geocoder
                (Some "Suffolk County, NY") NaN example_geo
                example_world example_world)
      as (payload & w' & Hreply & Hresults).
    + vm_compute. reflexivity.
    + reflexivity.
    + exists payload, w'. split; [exact Hreply|].
      rewrite Hresults. vm_compute. reflexivity.
Defined.

(** C6, for three events of which the third repeats the date and the
    speed of the first with another type. *)
Lemma C6_dedup_by_date_and_speed_witness :
  let e (day speed : Z) (type : string) :=
    {| date := Date_UTC 2020 5 day; windSpeedMph := speed; eventType := type;
       lat := None; lon := None; distanceMiles := None |} in
  uniqueEvents [e 15 50 "High Wind"; e 15 58 "High Wind"; e 15 50 "Strong Wind"]
  = [e 15 50 "High Wind"; e 15 58 "High Wind"].
Proof.
  intros e.
  destruct (C6_dedup_by_date_and_speed
              [e 15 50 "High Wind"; e 15 58 "High Wind"; e 15 50 "Strong Wind"])
    as (H & _).
  - repeat constructor; vm_compute; congruence.
  - rewrite H. vm_compute. reflexivity.
Defined.


(* ===================================================================== *)
(** * The normalization of names *)
(* ===================================================================== *)

Section NormalizationFacts.
Import JsString Regex.

Lemma eq_ignore_case_length a : forall b,
eq_ignore_case a b = true -> String.length a = String.length b.
Proof.
induction a as [|x a IH]; intros [|y b]; try done.
cbn [eq_ignore_case String.length]. intros [_ H]%andb_true_iff.
f_equal. by apply IH.
Qed.

Lemma county_word_start w :
eq_ignore_case w "county" = true ->
exists c w', w = String c w' /\ is_space c = false.
Proof.
destruct w as [|c w']; [done|]. cbn [eq_ignore_case].
intros [Hc _]%andb_true_iff. exists c, w'. split; [done|].
apply Ascii.eqb_eq in Hc. destruct (is_space c) eqn:Hsp; [|done].
exfalso. revert Hc Hsp. by destruct c as [[] [] [] [] [] [] [] []].
Qed.

Lemma trimStart_spaces ws s :
all_space ws = true -> trimStart (ws +:+ s) = trimStart s.
Proof.
induction ws as [|c ws IH]; [done|]. cbn [all_space].
intros [Hc Hws]%andb_true_iff. rewrite append_cons. cbn [trimStart].
rewrite Hc. by apply IH.
Qed.

Lemma trimStart_county ws w :
all_space ws = true -> eq_ignore_case w "county" = true ->
trimStart (ws +:+ w) = w.
Proof.
intros Hws Hw. rewrite trimStart_spaces by done.
destruct (county_word_start w Hw) as (c & w' & -> & Hc).
cbn [trimStart]. by rewrite Hc.
Qed.

Lemma trimStart_split s :
exists ws, s = ws +:+ trimStart s /\ all_space ws = true.
Proof.
induction s as [|c s (ws & Hs & Hws)]; [by exists ""|].
cbn [trimStart]. destruct (is_space c) eqn:Hc.
- exists (String c ws). rewrite append_cons, <- Hs. cbn [all_space].
  by rewrite Hc, Hws.
- by exists "".
Qed.

Lemma ends_clean_cons c r :
ends_clean (String c r) = if nonempty r then ends_clean r else negb (is_space c).
Proof. by destruct r. Qed.

Lemma ends_clean_not_all_space r :
ends_clean r = true -> r <> "" -> all_space r = false.
Proof.
induction r as [|c r IH]; [done|]. rewrite ends_clean_cons. intros H _.
cbn [all_space]. destruct r as [|c' r'].
- cbn in H. apply negb_true_iff in H. by rewrite H.
- cbn [nonempty] in H. rewrite IH by done. apply andb_false_r.
Qed.

Lemma trimStart_not_all_space x t :
all_space x = false ->
trimStart (x +:+ t) = trimStart x +:+ t /\ trimStart x <> "".
Proof.
induction x as [|c x IH]; [done|]. cbn [all_space trimStart].
rewrite append_cons. cbn [trimStart]. destruct (is_space c); [|done].
cbn [andb]. apply IH.
Qed.

(** The leftmost match of the regular expression is the trailing county
  word with all the white space before it. *)
Lemma remove_county_suffix_cut r : forall ws w,
ws <> "" -> all_space ws = true -> eq_ignore_case w "county" = true ->
ends_clean r = true ->
remove_county_suffix (r +:+ ws +:+ w) = r.
Proof.
induction r as [|c r IH]; intros ws w Hne Hws Hw Hclean.
- rewrite append_empty_l. destruct ws as [|c ws]; [done|].
  rewrite append_cons. cbn [remove_county_suffix county_suffix_at].
  cbn [all_space] in Hws. apply andb_true_iff in Hws as [Hc Hws].
  by rewrite Hc, trimStart_county, Hw.
- rewrite append_cons. cbn [remove_county_suffix county_suffix_at].
  rewrite ends_clean_cons in Hclean.
  destruct (is_space c) eqn:Hc; cbn [andb].
  + destruct r as [|c' r']; [by cbn [nonempty negb] in Hclean|].
    cbn [nonempty] in Hclean.
    destruct (trimStart_not_all_space (String c' r') (ws +:+ w)) as [Hts Hnz].
    { by apply ends_clean_not_all_space. }
    rewrite Hts.
    destruct (eq_ignore_case (trimStart (String c' r') +:+ ws +:+ w) "county") eqn:E.
    * apply eq_ignore_case_length in E.
      apply eq_ignore_case_length in Hw.
      rewrite !length_append in E. cbn [String.length] in *.
      destruct (trimStart (String c' r')); [done|].
      cbn [String.length] in E. lia.
    * f_equal. by apply IH.
  + f_equal. apply IH; try done.
    destruct r; [done|exact Hclean].
Qed.

(** What [replace] does with the regular expression: it cuts a trailing
  county word, or there is none and it leaves the string. *)
Lemma remove_county_suffix_cases s :
(exists ws w,
   s = remove_county_suffix s +:+ ws +:+ w /\ ws <> "" /\ all_space ws = true
   /\ eq_ignore_case w "county" = true
   /\ ends_clean (remove_county_suffix s) = true)
\/ (remove_county_suffix s = s
    /\ forall base ws w,
         s = base +:+ ws +:+ w -> ws <> "" -> all_space ws = true ->
         eq_ignore_case w "county" = false).
Proof.
induction s as [|c s IH].
- right. split; [done|]. intros [|? ?] [|? ?] w; done.
- cbn [remove_county_suffix]. destruct (county_suffix_at (String c s)) eqn:Hat.
  + left. cbn [county_suffix_at] in Hat.
    apply andb_true_iff in Hat as [Hc Hw].
    destruct (trimStart_split s) as (ws & Hs & Hws).
    exists (String c ws), (trimStart s). rewrite append_empty_l, append_cons.
    rewrite <- Hs. cbn [all_space]. by rewrite Hc, Hws.
  + destruct IH as [(ws & w & Hs & Hne & Hws & Hw & Hclean)|[Hsame Hnone]].
    * left. exists ws, w. rewrite append_cons, <- Hs.
      repeat (split; [done|]). rewrite ends_clean_cons.
      destruct (remove_county_suffix s) as [|c' r'] eqn:Hr; [|done].
      cbn [nonempty]. rewrite append_empty_l in Hs.
      cbn [county_suffix_at] in Hat. rewrite Hs, trimStart_county, Hw in Hat by done.
      rewrite andb_true_r in Hat. by rewrite Hat.
    * right. rewrite Hsame. split; [done|].
      intros base ws w Hdec Hne Hws.
      destruct base as [|b base].
      -- rewrite append_empty_l in Hdec. destruct ws as [|c0 ws]; [done|].
         rewrite append_cons in Hdec. injection Hdec as <- ->.
         cbn [all_space] in Hws. apply andb_true_iff in Hws as [Hc Hws].
         cbn [county_suffix_at] in Hat. rewrite Hc in Hat. cbn [andb] in Hat.
         destruct (eq_ignore_case w "county") eqn:Hw; [|done].
         by rewrite trimStart_county, Hw in Hat.
      -- rewrite append_cons in Hdec. injection Hdec as <- ->.
         by eapply Hnone.
Qed.

Lemma county_word_stripped_spec s r :
county_word_stripped s r <-> r = remove_county_suffix s.
Proof.
split.
- intros [(ws & w & -> & Hne & Hws & Hw & Hclean)|[-> Hnone]].
  + symmetry. by apply remove_county_suffix_cut.
  + destruct (remove_county_suffix_cases s)
      as [(ws & w & Hs & Hne & Hws & Hw & _)|[Hsame _]]; [|done].
    by rewrite (Hnone _ _ _ Hs Hne Hws) in Hw.
- intros ->. destruct (remove_county_suffix_cases s)
    as [(ws & w & Hs & Hne & Hws & Hw & Hclean)|[Hsame Hnone]].
  + left. by exists ws, w.
  + right. by rewrite Hsame.
Qed.

(** ** Words *)

Lemma words_blank s : forall cur,
words_acc cur (map_chars alnum_or_blank s) = words_acc cur (blank_other_chars s).
Proof.
induction s as [|c s IH]; intros cur; [done|].
cbn [map_chars blank_other_chars words_acc]. unfold alnum_or_blank.
destruct (is_lower_az c || is_digit c) eqn:Hc; cbn [orb].
- by rewrite !IH.
- destruct (is_space c) eqn:Hsp.
  + change (is_space " ") with true. cbv iota. rewrite Hsp. by rewrite !IH.
  + by rewrite !IH.
Qed.

Lemma words_acc_nonempty s : forall cur,
nonempty cur = true -> words_acc cur s <> [].
Proof.
induction s as [|c s IH]; intros cur Hcur; cbn [words_acc].
- by rewrite Hcur.
- destruct (is_space c); [by rewrite Hcur|].
  apply IH. by destruct cur.
Qed.

Lemma unwords_cons w ws :
unwords (w :: ws) = w +:+ (if ws is [] then "" else " " +:+ unwords ws).
Proof. destruct ws; [by rewrite append_empty_r|done]. Qed.

Lemma forall_chars_snoc p cur c :
forall_chars p cur = true -> p c = true ->
forall_chars p (cur +:+ String c "") = true.
Proof. intros Hcur Hc. rewrite forall_chars_append, Hcur. cbn. by rewrite Hc. Qed.

(** Collapsing the white space and trimming gives the words joined by
  single spaces. *)
Lemma collapse_words s :
(forall cur,
   nonempty cur = true ->
   forall_chars (fun c => negb (is_space c)) cur = true ->
   trimEnd (cur +:+ collapse_spaces_from false s) = unwords (words_acc cur s))
/\ trimEnd (" " +:+ collapse_spaces_from true s)
   = (if words_acc "" s is [] then "" else " " +:+ unwords (words_acc "" s)).
Proof.
induction s as [|c s [IHa IHb]].
- split.
  + intros cur Hne Hcur. cbn [collapse_spaces_from words_acc]. rewrite Hne.
    rewrite trimEnd_append by done. by rewrite !append_empty_r.
  + done.
- split.
  + intros cur Hne Hcur. cbn [collapse_spaces_from words_acc].
    destruct (is_space c) eqn:Hc.
    * rewrite Hne, unwords_cons, trimEnd_append by done. f_equal. apply IHb.
    * replace (cur +:+ String c (collapse_spaces_from false s))
        with ((cur +:+ String c "") +:+ collapse_spaces_from false s)
        by (rewrite append_assoc; reflexivity).
      apply IHa; [by destruct cur|]. apply forall_chars_snoc; [done|].
      by rewrite Hc.
  + cbn [collapse_spaces_from words_acc]. destruct (is_space c) eqn:Hc.
    * cbn [nonempty]. apply IHb.
    * cbn [nonempty]. rewrite append_empty_l.
      pose proof (words_acc_nonempty s (String c "") eq_refl) as Hnz.
      destruct (words_acc (String c "") s) as [|w l] eqn:Hw; [done|].
      rewrite <- Hw.
      assert (trimEnd (String c "" +:+ collapse_spaces_from false s)
              = unwords (words_acc (String c "") s)) as <-.
      { apply IHa; [done|]. cbn. by rewrite Hc. }
      rewrite !append_cons, !append_empty_l. cbn [trimEnd all_space]. rewrite Hc.
      change (is_space " ") with true. reflexivity.
Qed.

Lemma trim_collapse_words s : forall in_run,
trim (collapse_spaces_from in_run s) = unwords (words_acc "" s).
Proof.
unfold trim. induction s as [|c s IH]; intros in_run; [done|].
cbn [collapse_spaces_from words_acc]. destruct (is_space c) eqn:Hc.
- cbn [nonempty]. destruct in_run; [apply IH|].
  cbn [trimStart]. change (is_space " ") with true. cbv iota. apply IH.
- cbn [nonempty trimStart]. rewrite Hc, append_empty_l.
  change (String c (collapse_spaces_from false s))
    with (String c "" +:+ collapse_spaces_from false s).
  apply (collapse_words s); [done|]. cbn. by rewrite Hc.
Qed.

Lemma normalized_as_spec v n : normalized_as v n <-> n = normalizeName v.
Proof.
unfold normalized_as, normalizeName.
destruct (truthy_string v); cbn [negb]; [|done].
unfold collapse_spaces, words. rewrite trim_collapse_words.
split.
- intros (stripped & Hs & ->). apply county_word_stripped_spec in Hs as ->.
  by rewrite words_blank.
- intros ->. eexists. split; [by apply county_word_stripped_spec|].
  by rewrite words_blank.
Qed.

End NormalizationFacts.

(** C5.  The normalization of the source is the one of the
    specification: [normalizeName] gives the empty name for a missing or
    empty value, and otherwise the lower-case value, without a trailing
    white space and county word, with every character other than a-z and
    0-9 taken as a space, as its words joined by single spaces; no other
    string is the normalized name.  For every record county name and
    every target county name, the test [countyMatches] of the source on
    the two normalized names holds exactly when, after normalizing both in
    this way, the names are equal, or one occurs in the other, or their
    first tokens delimited by white space are equal; a row that is kept
    matches the county of the target in this sense.  Target "Suffolk"
    matches the records "Suffolk County" and "Suffolk Co", whose
    normalized names are "suffolk" and "suffolk co". *)
Theorem C5_fuzzy_county_match :
  (forall (value : option string) (n : string),
     normalized_as value n <-> n = normalizeName value)
  /\ (forall recordCounty targetCounty : option string,
        countyMatches (normalizeName recordCounty) (normalizeName targetCounty) = true
        <-> fuzzy_county_match recordCounty targetCounty)
  /\ (forall geo cutoff record e,
        process_record geo cutoff record = Some e ->
        fuzzy_county_match (record !! "CZ_NAME") (Geo.county geo))
  /\ normalizeName (Some "Suffolk County") = "suffolk"
  /\ normalizeName (Some "Suffolk Co") = "suffolk co"
  /\ normalizeName (Some "Suffolk") = "suffolk"
  /\ countyMatches (normalizeName (Some "Suffolk County"))
                   (normalizeName (Some "Suffolk")) = true
  /\ countyMatches (normalizeName (Some "Suffolk Co"))
                   (normalizeName (Some "Suffolk")) = true
  /\ fuzzy_county_match (Some "Suffolk County") (Some "Suffolk")
  /\ fuzzy_county_match (Some "Suffolk Co") (Some "Suffolk").
Proof.
  assert (Hmatch : forall rc tc,
            countyMatches (normalizeName rc) (normalizeName tc) = true
            <-> fuzzy_county_match rc tc).
  { intros rc tc. rewrite countyMatches_spec. unfold fuzzy_county_match. split.
    - intros H. exists (normalizeName rc), (normalizeName tc).
      split; [by apply normalized_as_spec|].
      split; [by apply normalized_as_spec|]. exact H.
    - intros (r & t & Hr & Ht & H).
      apply normalized_as_spec in Hr as ->. apply normalized_as_spec in Ht as ->.
      exact H. }
  split; [exact normalized_as_spec|].
  split; [exact Hmatch|].
  split.
  { intros geo cutoff record e He. apply Hmatch.
    apply process_record_inv in He as (_ & _ & Hcounty & _).
    destruct (nonempty (normalizeName (Geo.county geo))) eqn:Hne.
    - by apply Hcounty.
    - destruct (normalizeName (Geo.county geo)); [|done].
      unfold countyMatches.
      destruct (normalizeName (record !! "CZ_NAME")); reflexivity. }
  repeat (split; [vm_compute; reflexivity|]).
  split; apply Hmatch; vm_compute; reflexivity.
Qed.

(** C5, at a row of Suffolk for the target Suffolk. *)
Lemma C5_fuzzy_county_match_witness :
  process_record example_geo example_cutoff
    (example_record example_day "100" "MG" "" "") <> None
  /\ fuzzy_county_match
       (example_record example_day "100" "MG" "" "" !! "CZ_NAME")
       (Geo.county example_geo).
Proof.
  destruct C5_fuzzy_county_match as (_ & _ & Hkept & _).
  destruct (process_record example_geo example_cutoff
              (example_record example_day "100" "MG" "" "")) as [e|] eqn:E;
    [|vm_compute in E; discriminate E].
  split; [discriminate|].
  exact (Hkept example_geo example_cutoff
           (example_record example_day "100" "MG" "" "") e E).
Defined.


(* ===================================================================== *)
(** * Further properties of the acquisition *)
(* ===================================================================== *)

Section CacheFacts.
Variable remote : Remote.

Lemma fetch_inv {B} (endpoint : Z -> FetchResult B * Z) w r w1 :
fetch endpoint w = (Returned r, w1) ->
fst (endpoint (now w)) = Response (fst r) (snd r)
/\ now w1 = now w + snd (endpoint (now w))
/\ directoryCache w1 = directoryCache w /\ cacheDir w1 = cacheDir w.
Proof.
unfold fetch, bind, Date_now, elapse.
destruct (endpoint (now w)) as [[|ok body] dt]; [done|].
unfold ret. intros [= <- <-]. done.
Qed.

Lemma fetch_thrown {B} (endpoint : Z -> FetchResult B * Z) w msg w1 :
fetch endpoint w = (Thrown msg, w1) ->
directoryCache w1 = directoryCache w /\ cacheDir w1 = cacheDir w.
Proof.
unfold fetch, bind, Date_now, elapse.
destruct (endpoint (now w)) as [[|ok body] dt]; [|done].
unfold throw. intros [= <- <-]. done.
Qed.

(** The listing is served from the cache, without a request, when the
  cached text is not empty and less than an hour old. *)
Lemma getNoaaDirectoryHtml_hit w html :
fst (directoryCache w) = Some html -> nonempty html = true ->
now w - snd (directoryCache w) < DIRECTORY_CACHE_TTL ->
getNoaaDirectoryHtml remote w = (Returned html, w).
Proof.
intros Hc Hne Hage. unfold getNoaaDirectoryHtml.
unfold bind at 1. unfold Date_now at 1.
unfold bind at 1. unfold get_directoryCache at 1.
rewrite Hc. cbn [truthy_string or_empty]. rewrite Hne. cbn [andb].
by destruct (Z.ltb_spec (now w - snd (directoryCache w)) DIRECTORY_CACHE_TTL);
  [|lia].
Qed.

(** What a returned listing leaves: the listing in the cache, and the
  files as they were. *)
Lemma getNoaaDirectoryHtml_inv w html w1 :
getNoaaDirectoryHtml remote w = (Returned html, w1) ->
fst (directoryCache w1) = Some html /\ cacheDir w1 = cacheDir w.
Proof.
unfold getNoaaDirectoryHtml.
unfold bind at 1. unfold Date_now at 1.
unfold bind at 1. unfold get_directoryCache at 1.
destruct (truthy_string (fst (directoryCache w)) && _) eqn:Hhit.
- apply andb_true_iff in Hhit as [Htruthy _].
  destruct (fst (directoryCache w)) as [cached|] eqn:Hc; [|done].
  unfold ret. cbn [or_empty]. by intros [= <- <-].
- unfold bind at 1.
  destruct (fetch (fetch_listing remote) w) as [[r|msg] wa] eqn:Hfetch; [|done].
  apply fetch_inv in Hfetch as (_ & _ & _ & Hfiles).
  destruct (negb (fst r)); [done|].
  unfold bind, set_directoryCache, ret. intros [= <- <-]. done.
Qed.

(** A file that is in the cache directory is not asked for again. *)
Lemma ensureFileDownloaded_present filename w :
is_Some (cacheDir w !! filename) ->
ensureFileDownloaded remote filename w = (Returned tt, w).
Proof.
intros Hpresent. unfold ensureFileDownloaded, bind, existsSync.
by rewrite bool_decide_eq_true_2.
Qed.

Lemma ensureFileDownloaded_inv filename w u w1 :
ensureFileDownloaded remote filename w = (Returned u, w1) ->
directoryCache w1 = directoryCache w /\ is_Some (cacheDir w1 !! filename).
Proof.
unfold ensureFileDownloaded. unfold bind at 1. unfold existsSync at 1.
case_bool_decide as Hpresent.
- unfold ret. by intros [= _ <-].
- unfold bind at 1.
  destruct (fetch (fetch_file remote filename) w) as [[r|msg] wa] eqn:Hfetch;
    [|done].
  apply fetch_inv in Hfetch as (_ & _ & Hdir & _).
  destruct (negb (fst r)); [done|].
  unfold bind, write_file. destruct (completed (snd r)); [|done].
  unfold ret. intros [= _ <-]. cbn [directoryCache cacheDir].
  split; [done|]. rewrite lookup_insert_eq. by eexists.
Qed.

End CacheFacts.

(** X18.  Once the processing of a year has returned, processing the year again
    while the cached listing is less than an hour old returns the same
    events without a request to the remote end and leaves the world as it
    is: whatever the remote end would answer plays no part. *)
Theorem year_reprocessed_from_cache remote remote' year geo cutoff w events w1 w2 :
  getWindEventsForYear remote year geo cutoff w = (Returned events, w1) ->
  truthy_string (fst (directoryCache w1)) = true ->
  directoryCache w2 = directoryCache w1 -> cacheDir w2 = cacheDir w1 ->
  now w2 - snd (directoryCache w1) < DIRECTORY_CACHE_TTL ->
  getWindEventsForYear remote' year geo cutoff w2 = (Returned events, w2).
Proof.
  intros Hfirst Htruthy Hdir Hfiles Hage.
  unfold getWindEventsForYear in Hfirst. unfold bind at 1 in Hfirst.
  unfold getLatestStormFilename in Hfirst. unfold bind at 1 in Hfirst.
  destruct (getNoaaDirectoryHtml remote w) as [[html|msg] wa] eqn:Hlisting;
    [|done].
  apply getNoaaDirectoryHtml_inv in Hlisting as [Hcached _].
  unfold ret at 1 in Hfirst.
  assert (Hsame : directoryCache w1 = directoryCache wa
                  /\ match latestStormFilename html year with
                     | None => events = []
                     | Some filename =>
                         exists data, cacheDir w1 !! filename = Some data
                                      /\ intact data = true
                                      /\ events = events_of_records geo cutoff
                                                    (records data)
                     end).
  { destruct (latestStormFilename html year) as [filename|].
    - unfold bind at 1 in Hfirst.
      destruct (ensureFileDownloaded remote filename wa) as [[u|msg] wb] eqn:Hdown;
        [|done].
      apply ensureFileDownloaded_inv in Hdown as [Hdirb _].
      unfold bind, read_file in Hfirst.
      destruct (cacheDir wb !! filename) as [data|] eqn:Hdata; [|done].
      destruct (intact data) eqn:Hintact; [|done].
      unfold ret in Hfirst. injection Hfirst as <- <-.
      split; [done|]. by exists data.
    - unfold ret in Hfirst. by injection Hfirst as <- <-. }
  destruct Hsame as [Hdir1 Hevents]. rewrite Hdir1 in *.
  assert (Hne : nonempty html = true) by (by rewrite Hcached in Htruthy).
  unfold getWindEventsForYear. unfold bind at 1.
  unfold getLatestStormFilename. unfold bind at 1.
  rewrite (getNoaaDirectoryHtml_hit remote' w2 html); [| |done|]; cycle 1.
  { by rewrite Hdir. }
  { by rewrite Hdir. }
  unfold ret at 1.
  destruct (latestStormFilename html year) as [filename|]; [|by subst].
  destruct Hevents as (data & Hdata & Hintact & ->).
  unfold bind at 1.
  rewrite ensureFileDownloaded_present by (rewrite Hfiles, Hdata; by eexists).
  unfold bind, read_file. by rewrite Hfiles, Hdata, Hintact.
Qed.

Lemma year_reprocessed_from_cache_witness :
  let records := [example_record example_day "50" "" "" ""] in
  let first := getWindEventsForYear (example_remote records) 2020 example_geo
                 example_cutoff example_world in
  getWindEventsForYear (refusing_2019 []) 2020 example_geo example_cutoff (snd first)
  = (fst first, snd first).
Proof.
  intros records first.
  assert (Hfirst : exists events, fst first = Returned events)
    by (eexists; vm_compute; reflexivity).
  destruct Hfirst as [events Hevents]. rewrite Hevents.
  apply (year_reprocessed_from_cache (example_remote records) (refusing_2019 [])
           2020 example_geo example_cutoff example_world events (snd first)).
  - rewrite <- Hevents. apply surjective_pairing.
  - vm_compute. reflexivity.
  - reflexivity.
  - reflexivity.
  - vm_compute. reflexivity.
Defined.


Section BrokenDownload.
Variable remote : Remote.

Lemma getLatestStormFilename_files year w name w1 :
getLatestStormFilename remote year w = (Returned name, w1) ->
cacheDir w1 = cacheDir w.
Proof.
unfold getLatestStormFilename, bind.
destruct (getNoaaDirectoryHtml remote w) as [[html|msg] wa] eqn:Hlisting; [|done].
apply getNoaaDirectoryHtml_inv in Hlisting as [_ Hfiles].
unfold ret. by intros [= _ <-].
Qed.

End BrokenDownload.

(** X19.  A download that breaks off throws and leaves what it wrote in the
    cache directory.  From then on the file counts as downloaded: it is
    not asked for again, and when what was written is not a whole stream,
    every later processing of the year throws, whatever the remote end
    answers by then. *)
Theorem broken_download_stays remote filename w d dt :
  cacheDir w !! filename = None ->
  fetch_file remote filename (now w) = (Response true d, dt) ->
  completed d = false ->
  exists msg w1,
    ensureFileDownloaded remote filename w = (Thrown msg, w1)
    /\ cacheDir w1 !! filename = Some (received d)
    /\ (forall remote' w2,
          cacheDir w2 = cacheDir w1 ->
          ensureFileDownloaded remote' filename w2 = (Returned tt, w2))
    /\ (intact (received d) = false ->
        forall remote' year geo cutoff w2 w3,
          cacheDir w2 = cacheDir w1 ->
          getLatestStormFilename remote' year w2 = (Returned (Some filename), w3) ->
          exists msg' w',
            getWindEventsForYear remote' year geo cutoff w2 = (Thrown msg', w')).
Proof.
  intros Hmissing Hfetch Hbroken.
  eexists _, _. split.
  { unfold ensureFileDownloaded. unfold bind at 1. unfold existsSync at 1.
    rewrite Hmissing, bool_decide_eq_false_2 by (by intros [? ?]).
    unfold bind at 1. unfold fetch, bind at 1. unfold Date_now at 1.
    rewrite Hfetch. unfold bind at 1. unfold elapse at 1. unfold ret at 1.
    cbn [fst snd negb]. unfold bind at 1. unfold write_file at 1.
    rewrite Hbroken. unfold throw. reflexivity. }
  cbn [cacheDir now directoryCache]. split; [by rewrite lookup_insert_eq|].
  split.
  - intros remote' w2 Hfiles. apply ensureFileDownloaded_present.
    rewrite Hfiles. cbn [cacheDir]. rewrite lookup_insert_eq. by eexists.
  - intros Hmalformed remote' year geo cutoff w2 w3 Hfiles Hname.
    eapply (malformed_stream_throws remote' year geo cutoff w2 filename w3);
      [exact Hname| |exact Hmalformed].
    rewrite (getLatestStormFilename_files _ _ _ _ _ Hname), Hfiles.
    cbn [cacheDir]. by rewrite lookup_insert_eq.
Qed.

Lemma broken_download_stays_witness :
  let filename := Regex.storm_filename "2020" "20240620" in
  exists msg w1,
    ensureFileDownloaded breaking_off filename example_world = (Thrown msg, w1)
    /\ ensureFileDownloaded (example_remote []) filename w1 = (Returned tt, w1).
Proof.
  intros filename.
  destruct (broken_download_stays breaking_off filename example_world
              {| received := {| records := []; intact := false |};
                 completed := false |} 900)
    as (msg & w1 & Hthrown & _ & Hlater & _).
  - vm_compute. reflexivity.
  - reflexivity.
  - reflexivity.
  - exists msg, w1. split; [exact Hthrown|]. by apply Hlater.
Defined.

Section ReplyFacts.
Variable M : MathLib.
Variable remote : Remote.
Variable LocalTZA : Z -> bool -> Z.
Variable geocodeAddress : string -> IO (option GeoTarget).

Lemma handler_cases query_address query_radius w :
let address := JsString.trim (or_empty query_address) in
handler M remote LocalTZA geocodeAddress query_address query_radius w =
if nonempty address then
  match geocodeAddress address w with
  | (Thrown _, w0) => (Returned (Failure 500 "Server error. Please try again."), w0)
  | (Returned None, w0) =>
      (Returned (Failure 404
         "Could not find that address. Try including city and state."), w0)
  | (Returned (Some geo), w0) =>
      let cutoff := cutoff_at LocalTZA (now w0) in
      let years := seqZ (getUTCFullYear cutoff)
                        (getUTCFullYear (now w0) - getUTCFullYear cutoff + 1) in
      let radiusMiles := radius_of_query query_radius in
      (Returned (Success {|
         p_address := Geo.displayName geo;
         p_county := Geo.county geo;
         p_state := Geo.state geo;
         p_radiusMiles := if truthy radiusMiles then Some radiusMiles else None;
         p_results :=
           results_of M geo radiusMiles
             (concat (fst (contributions remote geo cutoff years w0))) |}),
       snd (contributions remote geo cutoff years w0))
  end
else (Returned (Failure 400 "Address is required."), w).
Proof.
intros address.
destruct (nonempty address) eqn:Hne.
- destruct (geocodeAddress address w) as [[[geo|]|msg] w0] eqn:Hgeo.
  + by apply handler_succeeds.
  + unfold handler, try_catch, handler_body. fold address. rewrite Hne.
    cbn [negb]. unfold bind. by rewrite Hgeo.
  + unfold handler, try_catch, handler_body. fold address. rewrite Hne.
    cbn [negb]. unfold bind. by rewrite Hgeo.
- unfold handler, try_catch, handler_body. fold address. by rewrite Hne.
Qed.


End ReplyFacts.

Section ListingDown.
Variable remote : Remote.

Lemma listing_down_year year geo cutoff w :
fst (directoryCache w) = None ->
refused (fetch_listing remote (now w)) ->
exists msg w1,
  getWindEventsForYear remote year geo cutoff w = (Thrown msg, w1)
  /\ directoryCache w1 = directoryCache w.
Proof.
intros Hcache Hrefused.
unfold getWindEventsForYear, getLatestStormFilename, getNoaaDirectoryHtml.
unfold bind at 1. unfold bind at 1. unfold bind at 1.
unfold Date_now at 1. unfold bind at 1. unfold get_directoryCache at 1.
rewrite Hcache. cbn [truthy_string andb]. unfold bind at 1.
destruct (fetch (fetch_listing remote) w) as [[r|msg] w1] eqn:Hfetch.
- apply fetch_inv in Hfetch as (Hanswer & _ & Hdir & _).
  red in Hrefused. rewrite Hanswer in Hrefused. rewrite Hrefused.
  cbn [negb]. unfold throw. by eexists _, _.
- apply fetch_thrown in Hfetch as [Hdir _]. by eexists _, _.
Qed.

Lemma listing_down_contributions geo cutoff years : forall w,
fst (directoryCache w) = None ->
(forall t, refused (fetch_listing remote t)) ->
concat (fst (contributions remote geo cutoff years w)) = [].
Proof.
induction years as [|year years IH]; intros w Hcache Hdown; [done|].
cbn [contributions].
destruct (listing_down_year year geo cutoff w Hcache (Hdown _))
  as (msg & w1 & -> & Hdir).
specialize (IH w1). rewrite Hdir in IH. specialize (IH Hcache Hdown).
destruct (contributions remote geo cutoff years w1) as [rest w2].
by cbn [fst concat app] in *.
Qed.

(** X3.  When the listing cannot be had, nothing being cached and every
  request for it being refused, the request is answered all the same:
  the reply is a payload with no results, and nothing tells it from the
  reply for a place without wind events. *)
Theorem listing_down_empty_payload M LocalTZA geocodeAddress
  query_address query_radius geo w w0 :
let address := JsString.trim (or_empty query_address) in
nonempty address = true ->
geocodeAddress address w = (Returned (Some geo), w0) ->
fst (directoryCache w0) = None ->
(forall t, refused (fetch_listing remote t)) ->
exists w',
  handler M remote LocalTZA geocodeAddress query_address query_radius w =
  (Returned (Success {|
     p_address := Geo.displayName geo;
     p_county := Geo.county geo;
     p_state := Geo.state geo;
     p_radiusMiles :=
       if truthy (radius_of_query query_radius)
       then Some (radius_of_query query_radius) else None;
     p_results := [] |}), w').
Proof.
intros address Hne Hgeo Hcache Hdown. eexists.
rewrite handler_cases. fold address. rewrite Hne, Hgeo. cbv zeta.
rewrite listing_down_contributions by done.
unfold results_of, selectedEvents, sortedEvents, filteredEvents.
cbn [Array_sort foldr List.map List.filter].
by destruct (gtb _ _).
Qed.

End ListingDown.

Lemma listing_down_empty_payload_witness :
  exists payload,
    example_reply_of listing_down = Returned (Success payload)
    /\ p_results payload = [].
Proof.
  destruct (listing_down_empty_payload listing_down SeriesMath.lib (fun _ _ => 0)
              example_geocoder (Some "Suffolk County, NY") NaN example_geo
              example_world example_world) as [w' H].
  - vm_compute. reflexivity.
  - reflexivity.
  - reflexivity.
  - intros t. exact I.
  - eexists. unfold example_reply_of. rewrite H. split; reflexivity.
Defined.


Section FilesKept.
Variable remote : Remote.

Lemma getNoaaDirectoryHtml_files w o w1 :
getNoaaDirectoryHtml remote w = (o, w1) -> cacheDir w1 = cacheDir w.
Proof.
unfold getNoaaDirectoryHtml, fetch, bind, Date_now, get_directoryCache,
  elapse, ret, throw, set_directoryCache.
cbv beta iota zeta.
destruct (truthy_string (fst (directoryCache w)) && _).
- by intros [= <- <-].
- destruct (fetch_listing remote (now w)) as [[|[] html] dt];
    cbn [fst snd negb]; by intros [= <- <-].
Qed.

(** The files of the cache directory are never removed nor written over. *)
Lemma ensureFileDownloaded_files filename w o w1 :
ensureFileDownloaded remote filename w = (o, w1) -> cacheDir w ⊆ cacheDir w1.
Proof.
unfold ensureFileDownloaded, fetch, bind, Date_now, existsSync, elapse, ret,
  throw, write_file.
cbv beta iota zeta. case_bool_decide as Hpresent.
- by intros [= <- <-].
- assert (Hmissing : cacheDir w !! filename = None).
  { destruct (cacheDir w !! filename) eqn:E; [|done].
    exfalso. apply Hpresent. by eexists. }
  destruct (fetch_file remote filename (now w)) as [[|[] d] dt];
    cbn [fst snd negb].
  + by intros [= <- <-].
  + destruct (completed d); intros [= <- <-]; cbn [cacheDir];
      by apply insert_subseteq.
  + by intros [= <- <-].
Qed.

Lemma getWindEventsForYear_files year geo cutoff w o w1 :
getWindEventsForYear remote year geo cutoff w = (o, w1) ->
cacheDir w ⊆ cacheDir w1.
Proof.
unfold getWindEventsForYear. unfold bind at 1.
unfold getLatestStormFilename. unfold bind at 1.
destruct (getNoaaDirectoryHtml remote w) as [[html|msg] wa] eqn:Hlisting;
  apply getNoaaDirectoryHtml_files in Hlisting;
  [|intros [= <- <-]; by rewrite Hlisting].
unfold ret at 1.
destruct (latestStormFilename html year) as [filename|];
  [|unfold ret; intros [= <- <-]; by rewrite Hlisting].
unfold bind at 1.
destruct (ensureFileDownloaded remote filename wa) as [[u|msg] wb] eqn:Hdown;
  apply ensureFileDownloaded_files in Hdown; rewrite Hlisting in Hdown;
  [|by intros [= <- <-]].
unfold bind, read_file. destruct (cacheDir wb !! filename) as [data|];
  [|by intros [= <- <-]].
destruct (intact data); unfold ret, throw; by intros [= <- <-].
Qed.

(** The events of a year are those of the rows of a file of the cache
  directory. *)
Lemma getWindEventsForYear_from_file year geo cutoff w events w1 :
getWindEventsForYear remote year geo cutoff w = (Returned events, w1) ->
events = []
\/ exists filename data,
     cacheDir w1 !! filename = Some data
     /\ events = events_of_records geo cutoff (records data).
Proof.
unfold getWindEventsForYear. unfold bind at 1.
destruct (getLatestStormFilename remote year w) as [[[filename|]|msg] wa];
  [| |done].
- unfold bind at 1.
  destruct (ensureFileDownloaded remote filename wa) as [[u|msg] wb]; [|done].
  unfold bind, read_file.
  destruct (cacheDir wb !! filename) as [data|] eqn:Hdata; [|done].
  destruct (intact data); [|done].
  unfold ret. intros [= <- <-]. right. by exists filename, data.
- unfold ret. intros [= <- <-]. by left.
Qed.

Lemma contributions_files geo cutoff years : forall w,
cacheDir w ⊆ cacheDir (snd (contributions remote geo cutoff years w)).
Proof.
induction years as [|year years IH]; intros w; [done|].
cbn [contributions].
destruct (getWindEventsForYear remote year geo cutoff w) as [o w1] eqn:E.
apply getWindEventsForYear_files in E. specialize (IH w1).
destruct (contributions remote geo cutoff years w1) as [rest w2].
cbn [snd] in *. by etrans.
Qed.

Lemma contributions_from_files geo cutoff years : forall w,
Forall (fun events =>
          events = []
          \/ exists filename data,
               cacheDir (snd (contributions remote geo cutoff years w))
                 !! filename = Some data
               /\ events = events_of_records geo cutoff (records data))
       (fst (contributions remote geo cutoff years w)).
Proof.
induction years as [|year years IH]; intros w; [by constructor|].
cbn [contributions].
destruct (getWindEventsForYear remote year geo cutoff w) as [o w1] eqn:E.
specialize (IH w1). pose proof (contributions_files geo cutoff years w1) as Hkept.
destruct (contributions remote geo cutoff years w1) as [rest w2].
cbn [fst snd] in *. constructor; [|exact IH].
destruct o as [events|msg]; [|by left].
apply getWindEventsForYear_from_file in E
  as [->|(filename & data & Hfile & ->)]; [by left|].
right. exists filename, data. split; [|done].
by eapply lookup_weaken.
Qed.

End FilesKept.


(* ===================================================================== *)
(** * Further properties of the row filter *)
(* ===================================================================== *)

Section RowFields.

Lemma process_record_agree geo cutoff r1 r2 :
Forall (fun k => r1 !! k = r2 !! k) read_fields ->
process_record geo cutoff r1 = process_record geo cutoff r2.
Proof.
intros H. unfold read_fields in H.
repeat (apply Forall_cons in H as [? H]). cbn beta in *.
unfold process_record.
repeat match goal with E : r1 !! _ = _ |- _ => rewrite E; clear E end.
reflexivity.
Qed.

(** X11.  A field that is not read plays no part: in particular the zone type
  [CZ_TYPE], which the loop reads into [czType] and never uses, so that
  the rows of forecast zones are kept like the rows of counties. *)
Theorem unread_field_ignored geo cutoff record k v :
k ∉ read_fields ->
process_record geo cutoff (<[k := v]> record) = process_record geo cutoff record
/\ process_record geo cutoff (delete k record) = process_record geo cutoff record.
Proof.
intros Hk.
assert (Hne : Forall (fun k' => k' <> k) read_fields).
{ apply Forall_forall. intros k' Hk' ->. done. }
split; apply process_record_agree.
- eapply Forall_impl; [exact Hne|]. intros k' Hk'. cbn beta.
  by rewrite lookup_insert_ne.
- eapply Forall_impl; [exact Hne|]. intros k' Hk'. cbn beta.
  by rewrite lookup_delete_ne.
Qed.

Lemma unread_field_ignored_witness :
process_record example_geo example_cutoff
  (<["CZ_TYPE" := "Z"]> (example_record example_day "50" "" "" ""))
= process_record example_geo example_cutoff
    (example_record example_day "50" "" "" "").
Proof.
assert (H : "CZ_TYPE" ∉ read_fields).
{ unfold read_fields. rewrite !not_elem_of_cons.
  repeat (split; [discriminate|]). apply not_elem_of_nil. }
exact (proj1 (unread_field_ignored example_geo example_cutoff
                (example_record example_day "50" "" "" "") "CZ_TYPE" "Z" H)).
Defined.

End RowFields.


Section CountyEdge.

Lemma includes_empty s : JsString.includes s "" = true.
Proof. by destruct s. Qed.

Lemma countyMatches_sym a b : countyMatches a b = countyMatches b a.
Proof.
unfold countyMatches.
rewrite (String.eqb_sym a b).
rewrite (String.eqb_sym (JsString.split_space_first a)).
destruct (String.eqb b a), (JsString.includes a b), (JsString.includes b a);
  reflexivity.
Qed.

Lemma countyMatches_empty t : countyMatches "" t = true.
Proof.
unfold countyMatches. rewrite includes_empty.
by destruct (String.eqb "" t), (JsString.includes "" t).
Qed.

(** X12.  A row whose county name is missing or normalizes to the empty string
  passes the county test of every target: the row is processed as if no
  county had been asked for. *)
Theorem nameless_county_row geo cutoff record :
normalizeName (record !! "CZ_NAME") = "" ->
process_record geo cutoff record
= process_record (without_county geo) cutoff record.
Proof.
intros Hname. unfold process_record, without_county.
cbn [Geo.county Geo.state]. rewrite Hname, countyMatches_empty.
cbn [negb]. rewrite andb_false_r.
change (normalizeName None) with EmptyString.
change (nonempty "") with false. cbn [andb]. reflexivity.
Qed.

Lemma nameless_county_row_witness :
option_map windSpeedMph
  (process_record example_geo example_cutoff
     (<["CZ_NAME" := "--"]> (example_record example_day "50" "" "" "")))
= Some 50.
Proof.
rewrite (nameless_county_row example_geo example_cutoff
           (<["CZ_NAME" := "--"]> (example_record example_day "50" "" "" ""))).
- vm_compute. reflexivity.
- vm_compute. reflexivity.
Defined.

End CountyEdge.

Section RadiusQuery.
Variable M : MathLib.
Variable remote : Remote.
Variable LocalTZA : Z -> bool -> Z.
Variable geocodeAddress : string -> IO (option GeoTarget).

Lemma radius_of_query_value q :
radius_of_query q = (if gtb q pos_zero then q else pos_zero)
/\ gtb (radius_of_query q) pos_zero = gtb q pos_zero
/\ truthy (radius_of_query q) = gtb q pos_zero.
Proof. by destruct q as [[]|[]| |[] m e]. Qed.

(** X4.  [Math.max(0, Number(req.query.radius) || 0)] keeps a radius that is
  greater than zero, up to Infinity, and gives +0 for anything else: a
  negative radius, zero of either sign, and NaN, which is what a missing
  or unreadable parameter converts to.  The radius filter runs exactly
  when the radius asked for is greater than zero.  The payload
  object holds the radius when it is greater than zero and null when it
  is not; written as JSON, the reply has [radiusMiles: null] when the
  radius is not greater than zero and also when it is Infinity, for
  which the filter runs. *)
Theorem radius_of_query_cases query_address query_radius w geo w0 :
let address := JsString.trim (or_empty query_address) in
nonempty address = true ->
geocodeAddress address w = (Returned (Some geo), w0) ->
exists payload w',
  handler M remote LocalTZA geocodeAddress query_address query_radius w
  = (Returned (Success payload), w')
  /\ radius_of_query query_radius
     = (if gtb query_radius pos_zero then query_radius else pos_zero)
  /\ (forall events,
        filteredEvents M geo (radius_of_query query_radius) events
        = if gtb query_radius pos_zero
          then List.filter (within_radius query_radius)
                 (List.map (with_distance M geo) events)
          else events)
  /\ p_radiusMiles payload
     = (if gtb query_radius pos_zero then Some query_radius else None)
  /\ json_number (p_radiusMiles payload)
     = (if gtb query_radius pos_zero && isFinite query_radius
        then Some query_radius else None).
Proof.
intros address Hne Hgeo.
destruct (radius_of_query_value query_radius) as (Hvalue & Hruns & Htruthy).
eexists _, _. split; [by apply handler_succeeds|].
cbn [p_radiusMiles]. unfold filteredEvents. rewrite Htruthy, Hruns, Hvalue.
destruct (gtb query_radius pos_zero); cbn [json_number andb];
  repeat split; reflexivity.
Qed.

End RadiusQuery.

Lemma radius_of_query_cases_witness :
  exists payload w',
    handler SeriesMath.lib (example_remote []) (fun _ _ => 0) example_geocoder
      (Some "Suffolk County, NY") Infinity example_world
    = (Returned (Success payload), w')
    /\ p_radiusMiles payload = Some Infinity
    /\ json_number (p_radiusMiles payload) = None.
Proof.
  destruct (radius_of_query_cases SeriesMath.lib (example_remote [])
              (fun _ _ => 0) example_geocoder (Some "Suffolk County, NY")
              Infinity example_world example_geo example_world)
    as (payload & w' & Hreply & _ & _ & Hobject & Hwire).
  - vm_compute. reflexivity.
  - reflexivity.
  - exists payload, w'. split; [exact Hreply|]. split; [exact Hobject|exact Hwire].
Defined.


(* ===================================================================== *)
(** * Further properties of the deduplication *)
(* ===================================================================== *)

Section DedupAgain.

Lemma unique_from_keys events : forall seen : gset string,
NoDup (List.map dedup_key (unique_from seen events))
/\ Forall (fun e => dedup_key e ∉ seen) (unique_from seen events).
Proof.
induction events as [|e events IH]; intros seen; cbn [unique_from].
- split; constructor.
- case_bool_decide as Hseen; [apply IH|].
  destruct (IH ({[dedup_key e]} ∪ seen)) as [Hnodup Hfresh].
  cbn [List.map]. split.
  + constructor; [|done]. intros Hin.
    apply list_elem_of_In, in_map_iff in Hin as (e' & Hkey & He').
    rewrite Forall_forall in Hfresh. apply list_elem_of_In in He'.
    apply (Hfresh e' He'). rewrite Hkey.
    by apply elem_of_union_l, elem_of_singleton.
  + constructor; [done|]. eapply Forall_impl; [exact Hfresh|].
    intros e' He' Hin. by apply He', elem_of_union_r.
Qed.

Lemma unique_from_fixed events : forall seen : gset string,
NoDup (List.map dedup_key events) ->
Forall (fun e => dedup_key e ∉ seen) events ->
unique_from seen events = events.
Proof.
induction events as [|e events IH]; intros seen Hnodup Hfresh; [done|].
cbn [unique_from]. apply Forall_cons in Hfresh as [He Hfresh].
cbn [List.map] in Hnodup. apply NoDup_cons in Hnodup as [Hnotin Hnodup].
rewrite bool_decide_eq_false_2 by done. f_equal.
apply IH; [done|]. rewrite Forall_forall in *. intros e' He'.
specialize (Hfresh e' He').
assert (dedup_key e' <> dedup_key e).
{ intros Heq. apply Hnotin. rewrite <- Heq.
  apply list_elem_of_In, in_map, list_elem_of_In, He'. }
rewrite elem_of_union, elem_of_singleton. tauto.
Qed.

(** X9.  Deduplicating twice is deduplicating once, and a list whose events
  have different keys is left as it is. *)
Theorem uniqueEvents_idempotent events :
uniqueEvents (uniqueEvents events) = uniqueEvents events
/\ (NoDup (List.map dedup_key events) -> uniqueEvents events = events).
Proof.
unfold uniqueEvents. split.
- destruct (unique_from_keys events ∅) as [Hnodup Hfresh].
  by apply unique_from_fixed.
- intros Hnodup. apply unique_from_fixed; [done|].
  apply Forall_forall. intros e _. apply not_elem_of_empty.
Qed.

Lemma uniqueEvents_idempotent_witness :
let e (speed : Z) :=
  {| date := Date_UTC 2020 5 15; windSpeedMph := speed; eventType := "High Wind";
     lat := None; lon := None; distanceMiles := None |} in
uniqueEvents [e 50; e 58] = [e 50; e 58].
Proof.
intros e. apply (uniqueEvents_idempotent [e 50; e 58]).
vm_compute. apply NoDup_cons. split; [|apply NoDup_singleton].
rewrite list_elem_of_singleton. discriminate.
Defined.

End DedupAgain.


(* ===================================================================== *)
(** * Further properties of the dates *)
(* ===================================================================== *)

Section CalendarFacts.
Import JsString Regex.

Lemma DayWithinYear_range t :
0 <= DayWithinYear t < 365 + leap_day (YearFromTime t).
Proof.
unfold DayWithinYear, YearFromTime.
pose proof (YearFromDay_bounds (Day t)) as Hb.
rewrite DayFromYear_next in Hb.
destruct (DaysInYear_leap (YearFromDay (Day t))) as [Hd _]. lia.
Qed.

Lemma MonthFromTime_range t : 0 <= MonthFromTime t <= 11.
Proof.
unfold MonthFromTime.
repeat match goal with |- context [if ?b then _ else _] => destruct b end; lia.
Qed.

Lemma DateFromTime_range t : 1 <= DateFromTime t <= 31.
Proof.
pose proof (DayWithinYear_range t) as Hd.
destruct (DaysInYear_leap (YearFromTime t)) as [_ Hl].
unfold DateFromTime, MonthFromTime.
generalize dependent (DayWithinYear t). generalize dependent (leap_day (YearFromTime t)).
intros leap Hl d Hd.
repeat match goal with
       | |- context [if ?a <? ?b then _ else _] => destruct (Z.ltb_spec a b)
       end; cbn [month_start]; lia.
Qed.

(** The day a time value falls on is made of its year, month and day of
  the month. *)
Lemma MakeDay_of_time t :
MakeDay (YearFromTime t) (MonthFromTime t) (DateFromTime t) = Day t.
Proof.
pose proof (MonthFromTime_range t) as Hm.
unfold MakeDay. rewrite Z.div_small, Z.mod_small, Z.add_0_r by lia.
unfold DateFromTime, DayWithinYear. lia.
Qed.

Lemma Day_of_MakeDate day time :
0 <= time < msPerDay -> Day (MakeDate day time) = day.
Proof.
intros Ht. unfold Day, MakeDate, msPerDay in *.
Z.div_mod_to_equations; lia.
Qed.

Lemma year_of_MakeDay_time y m d time :
0 <= m <= 11 -> 1 <= d <= 31 -> 0 <= time < msPerDay ->
YearFromTime (MakeDate (MakeDay y m d) time) = y.
Proof.
intros Hm Hd Ht. unfold YearFromTime. rewrite Day_of_MakeDate by done.
apply YearFromDay_spec. unfold MakeDay.
rewrite Z.div_small, Z.mod_small, Z.add_0_r by lia.
rewrite DayFromYear_next.
destruct (DaysInYear_leap y) as [-> Hl].
pose proof (month_start_range m (leap_day y) Hm Hl). lia.
Qed.

Lemma month_start_leap m l1 l2 :
0 <= l1 <= 1 -> 0 <= l2 <= 1 -> month_start m l1 <= month_start m l2 + 1.
Proof.
intros H1 H2. unfold month_start.
destruct m as [|p|p]; [lia| |lia].
repeat (destruct p as [p|p|]; try lia).
Qed.

Lemma DayFromYear_decade y : 3651 <= DayFromYear y - DayFromYear (y - 10).
Proof. unfold DayFromYear. Z.div_mod_to_equations; lia. Qed.

Lemma MakeDate_le day1 day2 time :
day1 <= day2 -> MakeDate day1 time <= MakeDate day2 time.
Proof. unfold MakeDate, msPerDay. lia. Qed.

Lemma MakeDate_of_time t : MakeDate (Day t) (TimeWithinDay t) = t.
Proof.
unfold MakeDate, Day, TimeWithinDay, msPerDay. Z.div_mod_to_equations; lia.
Qed.

Lemma TimeWithinDay_range t : 0 <= TimeWithinDay t < msPerDay.
Proof. unfold TimeWithinDay, msPerDay. Z.div_mod_to_equations; lia. Qed.

Lemma MakeDay_decade y m d :
0 <= m <= 11 -> MakeDay (y - 10) m d <= MakeDay y m d.
Proof.
intros Hm. unfold MakeDay.
rewrite Z.div_small, Z.mod_small, !Z.add_0_r by lia.
destruct (DaysInYear_leap y) as [_ Hl1].
destruct (DaysInYear_leap (y - 10)) as [_ Hl2].
pose proof (month_start_leap m _ _ Hl2 Hl1).
pose proof (DayFromYear_decade y). lia.
Qed.

Lemma cutoff_at_utc LocalTZA t :
(forall x isUTC, LocalTZA x isUTC = 0) ->
cutoff_at LocalTZA t
= MakeDate (MakeDay (YearFromTime t - 10) (MonthFromTime t) (DateFromTime t))
           (TimeWithinDay t).
Proof.
intros Hutc. unfold cutoff_at, setFullYear, getFullYear.
by rewrite !Hutc, Z.add_0_r, Z.sub_0_r.
Qed.

End CalendarFacts.

(** X5.  On a server whose local time is UTC, the cutoff is in the tenth
    calendar year before the year of the request and is not after the
    request, so that the loop always goes over eleven years, from that
    year to the year of the request. *)
Theorem lookback_eleven_years LocalTZA t :
  (forall x isUTC, LocalTZA x isUTC = 0) ->
  getUTCFullYear (cutoff_at LocalTZA t) = getUTCFullYear t - 10
  /\ cutoff_at LocalTZA t <= t
  /\ seqZ (getUTCFullYear (cutoff_at LocalTZA t))
          (getUTCFullYear t - getUTCFullYear (cutoff_at LocalTZA t) + 1)
     = seqZ (getUTCFullYear t - 10) 11.
Proof.
  intros Hutc. rewrite (cutoff_at_utc LocalTZA t Hutc).
  assert (Hyear : getUTCFullYear
                    (MakeDate (MakeDay (YearFromTime t - 10) (MonthFromTime t)
                                       (DateFromTime t)) (TimeWithinDay t))
                  = getUTCFullYear t - 10).
  { unfold getUTCFullYear. apply year_of_MakeDay_time.
    - apply MonthFromTime_range.
    - apply DateFromTime_range.
    - apply TimeWithinDay_range. }
  split; [exact Hyear|]. split.
  - pose proof (MakeDate_le _ _ (TimeWithinDay t)
                  (MakeDay_decade (YearFromTime t) (MonthFromTime t)
                     (DateFromTime t) (MonthFromTime_range t))) as Hle.
    rewrite MakeDay_of_time, MakeDate_of_time in Hle. exact Hle.
  - rewrite Hyear. f_equal. lia.
Qed.

Lemma lookback_eleven_years_witness :
  getUTCFullYear (cutoff_at (fun _ _ => 0) (Date_UTC 2024 1 29)) = 2014
  /\ formatDate (cutoff_at (fun _ _ => 0) (Date_UTC 2024 1 29)) = "03/01/2014".
Proof.
  destruct (lookback_eleven_years (fun _ _ => 0) (Date_UTC 2024 1 29))
    as (H & _ & _); [done|].
  split; [rewrite H|]; vm_compute; reflexivity.
Defined.


Section SlashDates.
Import JsString Regex.
#[local] Arguments strip_prefix : simpl never.
#[local] Arguments digits_between : simpl never.

Lemma slash_date_matches mm dd yyyy rest :
forall_chars is_digit mm = true -> (1 <= String.length mm <= 2)%nat ->
forall_chars is_digit dd = true -> (1 <= String.length dd <= 2)%nat ->
digit_string 4 yyyy ->
slashMatch (trim (mm +:+ "/" +:+ dd +:+ "/" +:+ yyyy +:+ rest))
= Some (mm, dd, yyyy).
Proof.
intros Hmm Hlm Hdd Hld [Hly Hyd].
assert (Htrim : trim (mm +:+ "/" +:+ dd +:+ "/" +:+ yyyy +:+ rest)
                = mm +:+ "/" +:+ dd +:+ "/" +:+ yyyy +:+ trimEnd rest).
{ assert (Hs1 := digits_not_space mm Hmm).
  assert (Hs2 := digits_not_space dd Hdd).
  assert (Hs3 := digits_not_space yyyy Hyd).
  unfold trim. rewrite trimStart_clean.
  - rewrite (trimEnd_append mm), (trimEnd_append "/"), (trimEnd_append dd),
      (trimEnd_append "/"), (trimEnd_append yyyy); done.
  - destruct mm as [|c mm]; [simpl in Hlm; lia|].
    simpl in Hmm. apply andb_true_iff in Hmm as [Hc _].
    rewrite append_cons. simpl. by apply digit_not_space. }
rewrite Htrim. unfold slashMatch.
rewrite digits_between_stop; [|done|lia|done]. cbn [mbind option_bind].
rewrite strip_prefix_append. cbn [mbind option_bind].
rewrite digits_between_stop; [|done|lia|done]. cbn [mbind option_bind].
rewrite strip_prefix_append. cbn [mbind option_bind].
rewrite digits_between_exact by done. reflexivity.
Qed.

Lemma nonempty_append_digits mm rest :
(1 <= String.length mm)%nat -> nonempty (mm +:+ rest) = true.
Proof. destruct mm; simpl; [lia|done]. Qed.

Lemma two_places k :
0 <= k <= 99 ->
digit_string 2 (padStart0 2 (decimal k))
/\ digits_value (padStart0 2 (decimal k)) = k.
Proof.
intros Hk.
assert (Hall : forallb two_places_ok (seqZ 0 100) = true)
  by (vm_compute; reflexivity).
rewrite forallb_forall in Hall.
assert (Hin : In k (seqZ 0 100)) by (apply list_elem_of_In, elem_of_seqZ; lia).
specialize (Hall k Hin). unfold two_places_ok in Hall.
apply andb_true_iff in Hall as [[Hlen Hdig]%andb_true_iff Hval].
apply Nat.eqb_eq in Hlen. apply Z.eqb_eq in Hval. done.
Qed.

Lemma four_places y :
1000 <= y <= 9999 ->
digit_string 4 (decimal y) /\ digits_value (decimal y) = y.
Proof.
intros Hy.
assert (Hall : forallb four_places_ok (seqZ 1000 9000) = true)
  by (vm_compute; reflexivity).
rewrite forallb_forall in Hall.
assert (Hin : In y (seqZ 1000 9000)) by (apply list_elem_of_In, elem_of_seqZ; lia).
specialize (Hall y Hin). unfold four_places_ok in Hall.
apply andb_true_iff in Hall as [[Hlen Hdig]%andb_true_iff Hval].
apply Nat.eqb_eq in Hlen. apply Z.eqb_eq in Hval. done.
Qed.

Lemma parseNoaaDate_slash mm dd yyyy rest :
forall_chars is_digit mm = true -> (1 <= String.length mm <= 2)%nat ->
forall_chars is_digit dd = true -> (1 <= String.length dd <= 2)%nat ->
digit_string 4 yyyy ->
parseNoaaDate (Some (mm +:+ "/" +:+ dd +:+ "/" +:+ yyyy +:+ rest))
= Some (Date_UTC (digits_value yyyy) (digits_value mm - 1) (digits_value dd)).
Proof.
intros Hmm Hlm Hdd Hld Hy.
unfold parseNoaaDate. cbn [truthy_string or_empty].
rewrite nonempty_append_digits by lia. cbn [negb].
by rewrite slash_date_matches.
Qed.

End SlashDates.

(** X14.  A begin date written M/D/YYYY, with one or two digits of month and of
    day and four of year, whatever follows, is read as [Date.UTC] of the
    three numbers, the month less one.  Nothing checks their ranges: a
    month or a day out of range carries over, and a year from 0000 to 0099
    is read as the year 1900 more. *)
Theorem slash_date_parsed mm dd yyyy rest :
  JsString.forall_chars JsString.is_digit mm = true ->
  (1 <= String.length mm <= 2)%nat ->
  JsString.forall_chars JsString.is_digit dd = true ->
  (1 <= String.length dd <= 2)%nat ->
  digit_string 4 yyyy ->
  let year := JsString.digits_value yyyy in
  let month := JsString.digits_value mm in
  let day := JsString.digits_value dd in
  parseNoaaDate (Some (mm +:+ "/" +:+ dd +:+ "/" +:+ yyyy +:+ rest))
  = Some (Date_UTC year (month - 1) day)
  /\ (1 <= month <= 12 -> 1 <= day <= 31 ->
      getUTCFullYear (Date_UTC year (month - 1) day)
      = if (0 <=? year) && (year <=? 99) then 1900 + year else year).
Proof.
  intros Hmm Hlm Hdd Hld Hy year month day. split.
  - by apply parseNoaaDate_slash.
  - intros Hm Hd. unfold getUTCFullYear, Date_UTC.
    apply year_of_MakeDay; lia.
Qed.

Lemma slash_date_parsed_witness :
  option_map formatDate (parseNoaaDate (Some "13/45/0020 07:00:00"))
  = Some "02/14/1921".
Proof.
  destruct (slash_date_parsed "13" "45" "0020" " 07:00:00") as [H _];
    [reflexivity|simpl; lia|reflexivity|simpl; lia|by split|].
  change ("13" +:+ "/" +:+ "45" +:+ "/" +:+ "0020" +:+ " 07:00:00")
    with "13/45/0020 07:00:00" in H.
  rewrite H. vm_compute. reflexivity.
Defined.

Lemma parse_format_trip (d : Date) :
  at_midnight d -> 1000 <= getUTCFullYear d <= 9999 ->
  parseNoaaDate (Some (formatDate d)) = Some d.
Proof.
  intros Hmid Hyear. unfold formatDate.
  pose proof (MonthFromTime_range d) as Hm.
  pose proof (DateFromTime_range d) as Hday. unfold getUTCMonth, getUTCDate.
  destruct (two_places (MonthFromTime d + 1)) as [[Hl1 Hd1] Hv1]; [lia|].
  destruct (two_places (DateFromTime d)) as [[Hl2 Hd2] Hv2]; [lia|].
  destruct (four_places (getUTCFullYear d) Hyear) as [Hy4 Hv3].
  pose proof (parseNoaaDate_slash _ _ _ "" Hd1 ltac:(lia) Hd2 ltac:(lia) Hy4)
    as Hparse.
  rewrite append_empty_r in Hparse. rewrite Hparse, Hv1, Hv2, Hv3.
  f_equal. unfold Date_UTC, getUTCFullYear in *.
  destruct (Z.leb_spec 0 (YearFromTime d)), (Z.leb_spec (YearFromTime d) 99);
    cbn [andb]; try lia.
  - replace (MonthFromTime d + 1 - 1) with (MonthFromTime d) by lia.
    rewrite MakeDay_of_time.
    pose proof (MakeDate_of_time d) as Hd. red in Hmid. by rewrite Hmid in Hd.
Qed.

(** X15.  Reading a formatted date gives the date back, for a date at midnight
    UTC in a year from 1000 to 9999: on the dates the row parser makes,
    the formatted date stands for the date. *)
Theorem parse_format_round_trip (d : Date) :
  at_midnight d -> 1000 <= getUTCFullYear d <= 9999 ->
  parseNoaaDate (Some (formatDate d)) = Some d.
Proof. apply parse_format_trip. Qed.

Lemma parse_format_round_trip_witness :
  parseNoaaDate (Some (formatDate (Date_UTC 2020 5 15))) = Some (Date_UTC 2020 5 15).
Proof.
  apply parse_format_round_trip; [reflexivity|vm_compute; split; discriminate].
Defined.


(* ===================================================================== *)
(** * Further properties of the radius and of the results *)
(* ===================================================================== *)

Section TargetPoint.

Lemma sub_self x : isFinite x = true -> sub x x = pos_zero.
Proof.
destruct x as [[]|s| |s m e]; try done. intros _.
unfold sub, SFsub. cbv zeta. rewrite Z.sub_diag. reflexivity.
Qed.

End TargetPoint.

(** X8.  The distance of a point from itself is exactly +0, for finite
    coordinates and every Math library that has the sine of +0 and the
    arctangent of +0 over 1 equal to +0, as ECMAScript requires, and a
    finite square of the cosine.  So with a radius greater than zero an
    event at the coordinates of the target, when these are not zero, is
    kept with the distance +0, and its result has [distanceMiles: null]. *)
Theorem event_at_target M geo r e :
  gtb r pos_zero = true ->
  lat e = Some (Geo.lat geo) -> lon e = Some (Geo.lon geo) ->
  isFinite (Geo.lat geo) = true -> isFinite (Geo.lon geo) = true ->
  truthy (Geo.lat geo) = true -> truthy (Geo.lon geo) = true ->
  Math_sin M pos_zero = pos_zero ->
  Math_atan2 M pos_zero (of_Z 1) = pos_zero ->
  isFinite (mul (Math_cos M (toRad (Geo.lat geo)))
                (Math_cos M (toRad (Geo.lat geo)))) = true ->
  haversineDistance M (Geo.lat geo) (Geo.lon geo) (Geo.lat geo) (Geo.lon geo)
  = pos_zero
  /\ filteredEvents M geo r [e] = [with_distance M geo e]
  /\ distanceMiles (with_distance M geo e) = Some pos_zero
  /\ Result.distanceMiles (to_result (with_distance M geo e)) = None.
Proof.
  intros Hr Hlat Hlon Hflat Hflon Htlat Htlon Hsin Hatan Hcos.
  assert (Hzero : haversineDistance M (Geo.lat geo) (Geo.lon geo)
                    (Geo.lat geo) (Geo.lon geo) = pos_zero)
    by (apply haversine_at_target; auto using sub_self).
  split; [exact Hzero|].
  destruct (event_at_target_null M geo r e Hr Hlat Hlon Htlat Htlon Hzero)
    as [Hkept Hnull].
  split; [exact Hkept|]. split; [|exact Hnull].
  unfold with_distance. rewrite Hlat, Hlon. cbn [truthy_number or_zero].
  rewrite Htlat, Htlon. cbn [andb distanceMiles]. by rewrite Hzero.
Qed.

Lemma event_at_target_witness :
  let e := {| date := Date_UTC 2020 5 15; windSpeedMph := 50;
              eventType := "High Wind"; lat := Some (Geo.lat example_geo);
              lon := Some (Geo.lon example_geo); distanceMiles := None |} in
  List.map Result.distanceMiles
    (List.map to_result (filteredEvents SeriesMath.lib example_geo (of_Z 10) [e]))
  = [None].
Proof.
  intros e.
  destruct (event_at_target SeriesMath.lib example_geo (of_Z 10) e)
    as (_ & Hkept & _ & Hnull); [vm_compute; reflexivity..|].
  rewrite Hkept. cbn [List.map]. by rewrite Hnull.
Defined.

(** X6.  With a radius greater than zero the filtered list is made of the
    events whose latitude and longitude are both Numbers other than zero
    and NaN and whose distance from the target is at most the radius, in
    their order, each with its distance set; an event with a coordinate
    missing or equal to zero, or with a distance that is NaN, is left out.
    With any other radius the list is left as it is and no distance is
    set. *)
Theorem radius_filter_exact M geo r events :
  (gtb r pos_zero = true ->
   filteredEvents M geo r events
   = List.map (with_distance M geo)
       (List.filter (fun e => truthy_number (lat e) && truthy_number (lon e)
                              && leb (distance_to M geo e) r) events))
  /\ (gtb r pos_zero = false -> filteredEvents M geo r events = events)
  /\ (forall e, leb (distance_to M geo e) r = true ->
                distance_to M geo e <> NaN).
Proof.
  split; [apply filteredEvents_radius|]. split; [apply filteredEvents_no_radius|].
  intros e Hle Hnan. by rewrite Hnan in Hle.
Qed.

Lemma radius_filter_exact_witness :
  let e (la lo : option number) :=
    {| date := Date_UTC 2020 5 15; windSpeedMph := 50; eventType := "High Wind";
       lat := la; lon := lo; distanceMiles := None |} in
  List.map lat
    (filteredEvents SeriesMath.lib example_geo (of_Z 10)
       [e None (Some (parseFloat "-75.0"));
        e (Some (parseFloat "40.1")) (Some (parseFloat "-75.0"));
        e (Some (parseFloat "41.0")) (Some (parseFloat "-75.0"))])
  = [Some (parseFloat "40.1")].
Proof.
  intros e.
  destruct (radius_filter_exact SeriesMath.lib example_geo (of_Z 10)
              [e None (Some (parseFloat "-75.0"));
               e (Some (parseFloat "40.1")) (Some (parseFloat "-75.0"));
               e (Some (parseFloat "41.0")) (Some (parseFloat "-75.0"))])
    as [H _].
  rewrite H by (vm_compute; reflexivity). vm_compute. reflexivity.
Defined.

Section ReplyRows.
Variable M : MathLib.
Variable remote : Remote.
Variable LocalTZA : Z -> bool -> Z.
Variable geocodeAddress : string -> IO (option GeoTarget).

(** X2.  Every result of a reply comes from a row of a dataset file that is in
  the cache directory when the reply is made, a row that the row filter
  retains for the geocoded target and the cutoff of the request: its
  date is the formatted begin date of the row, which is not before the
  cutoff, its type is the type of the row, which is in the allow-list,
  and its speed is the speed of the row, an integer that is not
  negative, and positive when the row has a gust flag. *)
Theorem reply_results_from_rows query_address query_radius w geo w0 :
let address := JsString.trim (or_empty query_address) in
nonempty address = true ->
geocodeAddress address w = (Returned (Some geo), w0) ->
exists payload w',
  handler M remote LocalTZA geocodeAddress query_address query_radius w
  = (Returned (Success payload), w')
  /\ forall res, res ∈ p_results payload ->
     exists filename data record e,
       cacheDir w' !! filename = Some data
       /\ record ∈ records data
       /\ process_record geo (cutoff_at LocalTZA (now w0)) record = Some e
       /\ Result.date res = formatDate (date e)
       /\ Result.windSpeedMph res = windSpeedMph e
       /\ Result.eventType res = eventType e
       /\ cutoff_at LocalTZA (now w0) <= date e
       /\ eventType e ∈ WIND_EVENT_TYPES
       /\ 0 <= windSpeedMph e
       /\ (is_gust_flag (JsString.toUpperCase
                           (or_empty (record !! "MAGNITUDE_TYPE"))) = true ->
           0 < windSpeedMph e).
Proof.
intros address Hne Hgeo. eexists _, _. split.
{ by apply handler_succeeds. }
cbn [p_results]. intros res Hres.
apply results_from_events in Hres as (e & He & Hd & Hs & Ht).
apply list_elem_of_In, in_concat in He as (events & Hevents & He).
apply list_elem_of_In in He, Hevents.
pose proof (contributions_from_files remote geo (cutoff_at LocalTZA (now w0))
              (seqZ (getUTCFullYear (cutoff_at LocalTZA (now w0)))
                 (getUTCFullYear (now w0)
                  - getUTCFullYear (cutoff_at LocalTZA (now w0)) + 1)) w0)
  as Hfiles.
rewrite Forall_forall in Hfiles.
destruct (Hfiles _ Hevents) as [->|(filename & data & Hfile & ->)];
  [by apply elem_of_nil in He|].
apply list_elem_of_omap in He as (record & Hrecord & Hrow).
exists filename, data, record, e.
split; [exact Hfile|]. split; [exact Hrecord|]. split; [exact Hrow|].
split; [exact Hd|]. split; [exact Hs|]. split; [exact Ht|].
pose proof (process_record_speed _ _ _ _ Hrow) as [Hnn _].
pose proof (gust_speed_positive _ _ _ _ Hrow) as Hgust.
apply process_record_inv in Hrow as (Htype & _ & _ & _ & Hcut & _ & _ & Heq).
split; [exact Hcut|]. split; [|split; [exact Hnn|exact Hgust]].
rewrite Heq. exact Htype.
Qed.

End ReplyRows.

Lemma reply_results_from_rows_witness :
  exists payload w',
    handler SeriesMath.lib
      (example_remote [example_record example_day "50" "MG" "" ""])
      (fun _ _ => 0) example_geocoder (Some "Suffolk County, NY") NaN example_world
    = (Returned (Success payload), w')
    /\ forall res, res ∈ p_results payload -> 0 <= Result.windSpeedMph res.
Proof.
  destruct (reply_results_from_rows SeriesMath.lib
              (example_remote [example_record example_day "50" "MG" "" ""])
              (fun _ _ => 0) example_geocoder (Some "Suffolk County, NY") NaN
              example_world example_geo example_world)
    as (payload & w' & Hreply & Hall).
  - vm_compute. reflexivity.
  - reflexivity.
  - exists payload, w'. split; [exact Hreply|]. intros res Hin.
    destruct (Hall res Hin)
      as (filename & data & record & e & _ & _ & _ & _ & Hs & _ & _ & _ & Hnn & _).
    rewrite Hs. exact Hnn.
Defined.


(* ===================================================================== *)
(** * Properties of the geocoder *)
(* ===================================================================== *)

Section CountySuffix.
Import JsString Regex.

Lemma remove_suffix_word_one_word word base tail :
one_word base ->
remove_suffix_word word (base +:+ tail) = base +:+ remove_suffix_word word tail.
Proof.
unfold one_word. induction base as [|c base IH]; [done|].
cbn [forall_chars]. intros [Hc Hbase]%andb_true_iff.
rewrite !append_cons. cbn [remove_suffix_word suffix_word_at].
apply negb_true_iff in Hc. rewrite Hc. cbn [andb]. by rewrite IH.
Qed.

Lemma trim_one_word base : one_word base -> trim base = base.
Proof.
unfold one_word, trim. intros Hbase.
assert (Hstart : trimStart base = base).
{ destruct base as [|c base]; [done|]. cbn [forall_chars] in Hbase.
  apply andb_true_iff in Hbase as [Hc _]. apply negb_true_iff in Hc.
  cbn [trimStart]. by rewrite Hc. }
rewrite Hstart. pose proof (trimEnd_append base "" Hbase) as H.
by rewrite !append_empty_r in H.
Qed.

Lemma all_chars_complete x : In x all_chars.
Proof.
unfold all_chars. apply in_map_iff. exists (nat_of_ascii x).
split; [apply ascii_nat_embedding|].
apply in_seq. pose proof (nat_ascii_bounded x). lia.
Qed.

Lemma same_case_chars_complete x c :
Ascii.eqb (upper_char x) (upper_char c) = true -> In x (same_case_chars c).
Proof.
intros H. unfold same_case_chars. apply filter_In.
split; [apply all_chars_complete|exact H].
Qed.

(** A string that matches a word but for the case of its letters is one
  of the spellings of the word. *)
Lemma eq_ignore_case_variants word : forall w,
eq_ignore_case w word = true -> In w (case_variants word).
Proof.
induction word as [|c word IH]; intros [|x w]; try done.
- intros _. by left.
- cbn [eq_ignore_case case_variants]. intros [Hx Hw]%andb_true_iff.
  apply in_flat_map. exists w. split; [by apply IH|].
  apply in_map_iff. exists x. split; [done|].
  by apply same_case_chars_complete.
Qed.

Lemma county_words_cleaned :
forallb (fun word => forallb tail_cleaned (case_variants word)) county_words = true.
Proof. vm_compute. reflexivity. Qed.

Lemma tail_cleaned_variant word suffix :
word ∈ county_words -> eq_ignore_case suffix word = true ->
tail_cleaned suffix = true.
Proof.
intros Hword Hsuffix. pose proof county_words_cleaned as H.
rewrite forallb_forall in H. apply list_elem_of_In in Hword.
specialize (H word Hword). rewrite forallb_forall in H.
apply H. by apply eq_ignore_case_variants.
Qed.

Lemma clean_county_tail base word suffix :
one_word base -> word ∈ county_words -> eq_ignore_case suffix word = true ->
clean_county (base +:+ " " +:+ suffix) = base
/\ clean_county base = base.
Proof.
intros Hbase Hword Hsuffix.
assert (Hplain : forall word, remove_suffix_word word base = base).
{ intros word'. pose proof (remove_suffix_word_one_word word' base "" Hbase) as H.
  by rewrite !append_empty_r in H. }
split.
- pose proof (tail_cleaned_variant word suffix Hword Hsuffix) as Htail.
  unfold tail_cleaned in Htail. apply String.eqb_eq in Htail.
  unfold clean_county. change (" " +:+ suffix) with (String " " suffix).
  rewrite (remove_suffix_word_one_word "County" base _ Hbase).
  rewrite (remove_suffix_word_one_word "Parish" base _ Hbase).
  rewrite (remove_suffix_word_one_word "Borough" base _ Hbase).
  rewrite (remove_suffix_word_one_word "Census Area" base _ Hbase).
  rewrite Htail, append_empty_r. by apply trim_one_word.
- unfold clean_county. rewrite !Hplain. by apply trim_one_word.
Qed.

End CountySuffix.

(** X20.  The county of the geocoder loses its suffix: a name of one word
    followed by a space and one of the words County, Parish, Borough and
    Census Area, written in any mixture of upper and lower case letters,
    is cleaned to the word, and a name of one word is left as it is. *)
Theorem clean_county_suffix base word suffix :
  one_word base -> word ∈ county_words ->
  Regex.eq_ignore_case suffix word = true ->
  clean_county (base +:+ " " +:+ suffix) = base
  /\ clean_county base = base.
Proof. apply clean_county_tail. Qed.

Lemma clean_county_suffix_witness :
  clean_county "Orleans pArIsH" = "Orleans".
Proof.
  refine (proj1 (clean_county_suffix "Orleans" "Parish" "pArIsH" _ _ _)).
  - reflexivity.
  - unfold county_words. apply elem_of_cons. right. apply elem_of_cons. left.
    reflexivity.
  - reflexivity.
Defined.

Section GeocoderReplies.
Variable M : MathLib.
Variable remote : Remote.
Variable LocalTZA : Z -> bool -> Z.
Variable nominatim : string -> Z -> FetchResult GeocodeBody * Z.

Lemma geocodeAddress_cases address w :
geocodeAddress nominatim address w =
let w1 := {| now := now w + snd (nominatim address (now w));
             directoryCache := directoryCache w; cacheDir := cacheDir w |} in
match fst (nominatim address (now w)) with
| NetworkError => (Thrown "fetch failed", w1)
| Response false _ => (Returned None, w1)
| Response true MalformedBody => (Thrown "Unexpected token in JSON", w1)
| Response true OtherJson => (Returned None, w1)
| Response true (ResultArray []) => (Returned None, w1)
| Response true (ResultArray (result :: _)) =>
    (Returned (Some (geo_of_result result)), w1)
end.
Proof.
unfold geocodeAddress, fetch, bind, Date_now, elapse, ret, throw.
destruct (nominatim address (now w)) as [[|[] [| |[|result results]]] dt];
  reflexivity.
Qed.


End GeocoderReplies.



(* ===================================================================== *)
(** * Further properties of the names *)
(* ===================================================================== *)

Section NameShape.
Import JsString Regex.

Lemma blank_other_chars_kept s : forall_chars kept_char (blank_other_chars s) = true.
Proof.
induction s as [|c s IH]; [done|]. cbn [blank_other_chars forall_chars].
rewrite IH, andb_true_r. unfold kept_char.
destruct (is_lower_az c || is_digit c || is_space c) eqn:Hc; [done|].
reflexivity.
Qed.

Lemma space_char_is_space c : Ascii.eqb c " " = true -> is_space c = true.
Proof. by intros ->%Ascii.eqb_eq. Qed.

Lemma collapse_name_chars s : forall in_run,
forall_chars kept_char s = true ->
forall_chars name_char (collapse_spaces_from in_run s) = true.
Proof.
induction s as [|c s IH]; intros in_run; [done|].
cbn [forall_chars collapse_spaces_from]. intros [Hc Hs]%andb_true_iff.
destruct (is_space c) eqn:Hsp.
- destruct in_run; cbn [forall_chars]; by rewrite ?IH.
- cbn [forall_chars]. rewrite IH by done. rewrite andb_true_r.
  unfold kept_char in Hc. unfold name_char. rewrite Hsp, orb_false_r in Hc.
  by rewrite Hc.
Qed.

Lemma single_spaced_cons a s :
single_spaced (String a s)
= negb (Ascii.eqb a " " && starts_with_space s) && single_spaced s.
Proof. destruct s as [|b s]; [|done]. cbn. by rewrite andb_false_r. Qed.

Lemma collapse_single_spaced s : forall in_run,
single_spaced (collapse_spaces_from in_run s) = true
/\ (in_run = true -> starts_with_space (collapse_spaces_from in_run s) = false).
Proof.
induction s as [|c s IH]; intros in_run; [done|].
cbn [collapse_spaces_from]. destruct (is_space c) eqn:Hsp.
- destruct in_run; [apply IH|]. destruct (IH true) as [Hs Hf].
  rewrite single_spaced_cons, Hs, Hf by done. split; [done|]. done.
- destruct (IH false) as [Hs _]. rewrite single_spaced_cons, Hs.
  assert (Hc : Ascii.eqb c " " = false).
  { destruct (Ascii.eqb c " ") eqn:E; [|done].
    apply space_char_is_space in E. congruence. }
  cbn [starts_with_space]. rewrite Hc. done.
Qed.

Lemma trimStart_single_spaced s :
single_spaced s = true -> single_spaced (trimStart s) = true.
Proof.
induction s as [|c s IH]; [done|]. rewrite single_spaced_cons.
intros [Hpair Hs]%andb_true_iff. cbn [trimStart].
destruct (is_space c); [by apply IH|].
by rewrite single_spaced_cons, Hpair, Hs.
Qed.

Lemma trimEnd_starts s :
starts_with_space (trimEnd s) = true -> starts_with_space s = true.
Proof.
destruct s as [|c s]; [done|]. cbn [trimEnd].
by destruct (all_space (String c s)).
Qed.

Lemma trimEnd_single_spaced s :
single_spaced s = true -> single_spaced (trimEnd s) = true.
Proof.
induction s as [|c s IH]; [done|]. rewrite single_spaced_cons.
intros [Hpair Hs]%andb_true_iff. cbn [trimEnd].
destruct (all_space (String c s)); [done|].
rewrite single_spaced_cons, IH by done. rewrite andb_true_r.
destruct (Ascii.eqb c " "); [|done]. cbn [andb] in *.
destruct (starts_with_space (trimEnd s)) eqn:E; [|done].
apply trimEnd_starts in E. by rewrite E in Hpair.
Qed.

Lemma trimEnd_empty s : trimEnd s = EmptyString -> all_space s = true.
Proof.
destruct s as [|c s]; [done|]. cbn [trimEnd].
by destruct (all_space (String c s)).
Qed.

Lemma trimEnd_ends_clean s : ends_clean (trimEnd s) = true.
Proof.
induction s as [|c s IH]; [done|]. cbn [trimEnd].
destruct (all_space (String c s)) eqn:Hall; [done|].
destruct (trimEnd s) as [|b t] eqn:Ht.
- apply trimEnd_empty in Ht. cbn [all_space] in Hall. rewrite Ht in Hall.
  rewrite andb_true_r in Hall. cbn. by rewrite Hall.
- exact IH.
Qed.

End NameShape.

(** X13.  A normalized name is made of lower-case letters, digits and single
    spaces, and neither starts nor ends with a space; a name that is
    missing or empty normalizes to the empty string.  So the first token
    that [split(" ")[0]] takes is the first word of the name. *)
Theorem normalizeName_canonical v :
  JsString.forall_chars name_char (normalizeName v) = true
  /\ single_spaced (normalizeName v) = true
  /\ starts_clean (normalizeName v)
  /\ ends_clean (normalizeName v) = true
  /\ (truthy_string v = false -> normalizeName v = "")
  /\ JsString.split_space_first (normalizeName v) = first_word (normalizeName v).
Proof.
  assert (Hlast : JsString.split_space_first (normalizeName v)
                  = first_word (normalizeName v)).
  { symmetry. unfold first_word.
    destruct (normalizeName_shape v) as [Hblank Hclean].
    rewrite trimStart_clean by done. by apply take_word_split. }
  unfold normalizeName in *. destruct (truthy_string v); cbn [negb] in *.
  - split; [|split; [|split; [|split; [|split]]]]; [| | | |done|done].
    + apply trimEnd_chars, trimStart_chars, collapse_name_chars,
        blank_other_chars_kept.
    + apply trimEnd_single_spaced, trimStart_single_spaced, collapse_single_spaced.
    + apply trim_starts_clean.
    + apply trimEnd_ends_clean.
  - done.
Qed.

Lemma normalizeName_canonical_witness :
  normalizeName (Some "") = "" /\ normalizeName (Some "St. Mary's  County") = "st mary s".
Proof.
  split; [|vm_compute; reflexivity].
  destruct (normalizeName_canonical (Some "")) as (_ & _ & _ & _ & H & _).
  apply H. reflexivity.
Defined.


Section ListingFetch.
Variable remote : Remote.

(** X17.  When the cached listing cannot be used, the listing is asked for.  A
  listing that is served is stored with the time at which the request
  was made, not the time at which it was answered, and is returned; a
  request that fails or is refused throws and leaves the cache as it
  was, so that a listing that is too old is never served in its place.
  A listing that is served empty is stored and asked for again by the
  next call. *)
Theorem listing_fetch_outcomes w :
listing_stale w ->
match fetch_listing remote (now w) with
| (Response true html, dt) =>
    getNoaaDirectoryHtml remote w
    = (Returned html,
       {| now := now w + dt; directoryCache := (Some html, now w);
          cacheDir := cacheDir w |})
    /\ (html = "" ->
        listing_stale {| now := now w + dt; directoryCache := (Some html, now w);
                         cacheDir := cacheDir w |})
| (_, dt) =>
    exists msg,
      getNoaaDirectoryHtml remote w
      = (Thrown msg,
         {| now := now w + dt; directoryCache := directoryCache w;
            cacheDir := cacheDir w |})
end.
Proof.
intros Hstale. red in Hstale.
destruct (fetch_listing remote (now w)) as [[|[] html] dt] eqn:Hfetch;
  unfold getNoaaDirectoryHtml, fetch, bind, Date_now, get_directoryCache,
    elapse, ret, throw, set_directoryCache;
  cbv beta iota zeta; rewrite Hstale; cbv beta iota zeta;
  rewrite Hfetch; cbn [fst snd negb now directoryCache cacheDir].
- by eexists.
- split; [done|]. by intros ->.
- by eexists.
Qed.

End ListingFetch.

Lemma listing_fetch_outcomes_witness :
  fst (getNoaaDirectoryHtml (example_remote []) example_world)
  = Returned example_listing.
Proof.
  pose proof (listing_fetch_outcomes (example_remote []) example_world) as H.
  cbn [fetch_listing example_remote] in H.
  destruct H as [H _]; [reflexivity|]. by rewrite H.
Defined.

Section ResultDistance.
Variable M : MathLib.
Variable geo : GeoTarget.

(** X7.  With a radius greater than zero, every result stands for an event
  whose coordinates are both Numbers other than zero and NaN and whose
  distance from the target is at most the radius, and its distance is
  that distance rounded to one decimal, or [null] when that distance is
  zero. *)
Theorem radius_results_distance r allEvents res :
gtb r pos_zero = true ->
res ∈ results_of M geo r allEvents ->
exists e,
  e ∈ allEvents
  /\ truthy_number (lat e) = true /\ truthy_number (lon e) = true
  /\ leb (distance_to M geo e) r = true
  /\ Result.windSpeedMph res = windSpeedMph e
  /\ Result.distanceMiles res
     = if truthy (distance_to M geo e)
       then Some (round_to_tenth (distance_to M geo e)) else None.
Proof.
intros Hr Hres. unfold results_of, selectedEvents, uniqueEvents in Hres.
apply list_elem_of_fmap in Hres as (e' & -> & He').
eapply elem_of_sublist in He'; [|apply unique_from_sublist].
rewrite filteredEvents_radius in He' by done.
apply list_elem_of_fmap in He' as (e & -> & He).
apply list_elem_of_In, filter_In in He as [He Hcond].
apply andb_true_iff in Hcond as [[Hlat Hlon]%andb_true_iff Hle].
exists e. split.
{ apply list_elem_of_In in He. unfold sortedEvents in He.
  by rewrite Array_sort_perm in He. }
repeat (split; [done|]). split.
- cbn [to_result Result.windSpeedMph].
  by destruct (with_distance_fields M geo e) as (-> & _).
- apply to_result_distance. by rewrite Hlat, Hlon.
Qed.

End ResultDistance.

Lemma radius_results_distance_witness :
  let e := {| date := Date_UTC 2020 5 15; windSpeedMph := 50;
              eventType := "High Wind"; lat := Some (parseFloat "40.1");
              lon := Some (parseFloat "-75.0"); distanceMiles := None |} in
  exists e',
    e' ∈ [e]
    /\ Result.distanceMiles (to_result (with_distance SeriesMath.lib example_geo e))
       = if truthy (distance_to SeriesMath.lib example_geo e')
         then Some (round_to_tenth (distance_to SeriesMath.lib example_geo e'))
         else None.
Proof.
  intros e.
  destruct (radius_results_distance SeriesMath.lib example_geo (of_Z 10) [e]
              (to_result (with_distance SeriesMath.lib example_geo e)))
    as (e' & He' & _ & _ & _ & _ & Hd).
  - vm_compute. reflexivity.
  - assert (H : results_of SeriesMath.lib example_geo (of_Z 10) [e]
                = [to_result (with_distance SeriesMath.lib example_geo e)])
      by (vm_compute; reflexivity).
    rewrite H. apply list_elem_of_singleton. reflexivity.
  - exists e'. split; [exact He'|exact Hd].
Defined.


(* ===================================================================== *)
(** * The sort and the deduplication together *)
(* ===================================================================== *)

Section WhichDuplicate.

(** The time of day of a begin date is dropped: every date read is at
  midnight UTC. *)
Lemma Date_UTC_midnight y m d : at_midnight (Date_UTC y m d).
Proof.
unfold at_midnight, Date_UTC, MakeDate, TimeWithinDay, msPerDay.
rewrite Z.add_0_r. apply Z.mod_mul. lia.
Qed.

Lemma append_inj_length a b x y :
String.length a = String.length b -> a +:+ x = b +:+ y -> a = b.
Proof.
revert b. induction a as [|c a IH]; intros [|c' b]; try done.
cbn [String.length]. intros [= Hl]. rewrite !append_cons. intros [= -> H].
f_equal. by apply IH.
Qed.

Lemma formatDate_length d :
plain_date d -> String.length (formatDate d) = 10%nat.
Proof.
intros [_ Hyear]. unfold formatDate.
pose proof (MonthFromTime_range d) as Hm.
pose proof (DateFromTime_range d) as Hday. unfold getUTCMonth, getUTCDate.
destruct (two_places (MonthFromTime d + 1)) as [[Hl1 _] _]; [lia|].
destruct (two_places (DateFromTime d)) as [[Hl2 _] _]; [lia|].
destruct (four_places (getUTCFullYear d) Hyear) as [[Hl3 _] _].
rewrite !length_append, Hl1, Hl2, Hl3. reflexivity.
Qed.

Lemma formatDate_inj d1 d2 :
plain_date d1 -> plain_date d2 -> formatDate d1 = formatDate d2 -> d1 = d2.
Proof.
intros [Hm1 Hy1] [Hm2 Hy2] Heq.
pose proof (parse_format_trip d1 Hm1 Hy1) as H1.
pose proof (parse_format_trip d2 Hm2 Hy2) as H2.
rewrite Heq in H1. congruence.
Qed.

Lemma dedup_key_date e1 e2 :
plain_date (date e1) -> plain_date (date e2) ->
dedup_key e1 = dedup_key e2 -> date e1 = date e2.
Proof.
intros H1 H2 Hkey. apply formatDate_inj; [done..|].
unfold dedup_key in Hkey. eapply append_inj_length; [|exact Hkey].
by rewrite !formatDate_length.
Qed.

Lemma unique_from_extra_key k events : forall seen : gset string,
Forall (fun e => dedup_key e <> k) events ->
unique_from ({[k]} ∪ seen) events = unique_from seen events.
Proof.
induction events as [|e events IH]; intros seen Hk; [done|].
apply Forall_cons in Hk as [He Hk]. cbn [unique_from].
destruct (decide (dedup_key e ∈ seen)) as [Hin|Hnotin].
- rewrite !bool_decide_eq_true_2; [by apply IH|done|].
  by apply elem_of_union_r.
- rewrite !bool_decide_eq_false_2; [|done|].
  + f_equal. rewrite <- (IH ({[dedup_key e]} ∪ seen) Hk). f_equal.
    apply leibniz_equiv. intros x. rewrite !elem_of_union. tauto.
  + rewrite elem_of_union, elem_of_singleton. tauto.
Qed.

Lemma unique_from_on_date d events : forall seen : gset string,
(forall e e', e ∈ events -> e' ∈ events ->
              on_date d e = false -> on_date d e' = true ->
              dedup_key e' <> dedup_key e) ->
List.filter (on_date d) (unique_from seen events)
= unique_from seen (List.filter (on_date d) events).
Proof.
induction events as [|e events IH]; intros seen Hkeys; [done|].
assert (Hrest : forall e1 e2, e1 ∈ events -> e2 ∈ events ->
                  on_date d e1 = false -> on_date d e2 = true ->
                  dedup_key e2 <> dedup_key e1).
{ intros e1 e2 H1 H2. apply Hkeys; by apply list_elem_of_further. }
cbn [unique_from List.filter]. case_bool_decide as Hseen.
- rewrite IH by done. destruct (on_date d e); [|done].
  cbn [unique_from]. by rewrite bool_decide_eq_true_2.
- cbn [List.filter]. destruct (on_date d e) eqn:Hd.
  + cbn [unique_from]. rewrite bool_decide_eq_false_2 by done.
    by rewrite IH.
  + rewrite IH by done. apply unique_from_extra_key.
    apply Forall_forall. intros e' He'.
    apply list_elem_of_In, filter_In in He' as [He' Hd'].
    apply Hkeys; [apply list_elem_of_here| |done..].
    by apply list_elem_of_further, list_elem_of_In.
Qed.

End WhichDuplicate.

(** X16.  The begin date read from a row is at midnight UTC whatever time of
    day the field has, so that the events of one day have the same date,
    and the sort, which is stable, leaves them in the order of the
    rows. *)
Theorem begin_time_discarded value d :
  parseNoaaDate value = Some d ->
  at_midnight d
  /\ forall allEvents,
       List.filter (on_date d) (sortedEvents allEvents)
       = List.filter (on_date d) allEvents.
Proof.
  intros Hparse. split.
  - unfold parseNoaaDate in Hparse.
    destruct (negb (truthy_string value)); [done|].
    destruct (Regex.slashMatch _) as [[[month day] year]|].
    + injection Hparse as <-. apply Date_UTC_midnight.
    + destruct (Regex.dashMatch _) as [[[day monthStr] yearStr]|]; [|done].
      destruct (months !! _); [|done].
      injection Hparse as <-. apply Date_UTC_midnight.
  - intros allEvents. apply sortedEvents_stable.
Qed.

Lemma begin_time_discarded_witness :
  parseNoaaDate (Some "06/15/2020 23:59:00")
  = parseNoaaDate (Some "06/15/2020 00:01:00")
  /\ option_map TimeWithinDay (parseNoaaDate (Some "06/15/2020 23:59:00")) = Some 0.
Proof.
  destruct (begin_time_discarded (Some "06/15/2020 23:59:00") (Date_UTC 2020 5 15))
    as [Hmid _]; [vm_compute; reflexivity|].
  split; [vm_compute; reflexivity|].
  assert (H : parseNoaaDate (Some "06/15/2020 23:59:00") = Some (Date_UTC 2020 5 15))
    by (vm_compute; reflexivity).
  rewrite H. exact (f_equal Some Hmid).
Defined.

(** X10.  Of the events that share a date and a wind speed, the one that the
    results keep is the first in the order in which the events were
    accumulated, year by year and row by row: sorting and then
    deduplicating gives, for every date, what deduplicating the events of
    that date in their order of accumulation gives.  The dates are those
    the row parser makes from years of four digits. *)
Theorem first_accumulated_kept allEvents d :
  Forall (fun e => plain_date (date e)) allEvents ->
  List.filter (on_date d) (uniqueEvents (sortedEvents allEvents))
  = uniqueEvents (List.filter (on_date d) allEvents).
Proof.
  intros Hplain. unfold uniqueEvents.
  rewrite unique_from_on_date.
  - f_equal. apply sortedEvents_stable.
  - intros e e' He He' Hd Hd' Hkey.
    unfold sortedEvents in He, He'. rewrite Array_sort_perm in He, He'.
    rewrite Forall_forall in Hplain.
    apply dedup_key_date in Hkey; [|by apply Hplain..].
    unfold on_date in *. rewrite Hkey in Hd'. congruence.
Qed.

Lemma first_accumulated_kept_witness :
  let e (day : Z) (type : string) :=
    {| date := Date_UTC 2020 5 day; windSpeedMph := 50; eventType := type;
       lat := None; lon := None; distanceMiles := None |} in
  List.map eventType
    (List.filter (on_date (Date_UTC 2020 5 15))
       (uniqueEvents (sortedEvents
          [e 15 "High Wind"; e 16 "Hurricane"; e 15 "Strong Wind"])))
  = ["High Wind"].
Proof.
  intros e.
  rewrite (first_accumulated_kept
             [e 15 "High Wind"; e 16 "Hurricane"; e 15 "Strong Wind"]
             (Date_UTC 2020 5 15)).
  - vm_compute. reflexivity.
  - repeat constructor; vm_compute; try reflexivity; discriminate.
Defined.
